(** * Reporting engine of OrthogonalTransformerProbing: a shallow embedding

    The development follows [src/reporting/reporter.py]:
    embedding gates, the normalised prediction stream, the correlation,
    attachment-score and selected-dimensionality reporters.

    Conventions.
    - Real-valued numpy entries are rationals [Q]; the special values
      [nan] and [inf] are explicit constructors where the code produces them.
    - A 0/1 gate is a list of integers: its float entries are 0.0 or 1.0.
    - Python exceptions are values of [exn]; fallible code returns [result].
    - Python dictionaries are [gmap]s, numpy arrays are lists updated by
      index. *)

From Stdlib Require Import ZArith QArith Qabs Lia List String Ascii.
From stdpp Require Import base option list gmap strings pretty.

Local Open Scope Z_scope.

(** ** Exceptions and the error monad *)

Inductive exn : Type :=
| UnboundLocalError   (* a local variable read before assignment *)
| KeyError            (* dictionary lookup of a missing key *)
| TypeError           (* comparison with None, raising a non-exception *)
| IndexError          (* too many indices for an array *)
| ValueError_task     (* "Unrecognized task, need to contain ..." *)
| ValueError_argmin   (* argmin of an empty sequence *)
| LibraryError.       (* raised inside an external library *)

Inductive result (A : Type) : Type :=
| Ok (a : A)
| Raise (e : exn).
Arguments Ok {A} a.
Arguments Raise {A} e.

Definition rbind {A B} (m : result A) (f : A -> result B) : result B :=
  match m with
  | Ok a => f a
  | Raise e => Raise e
  end.

Notation "x <-! m ; k" := (rbind m (fun x => k))
  (at level 100, m at next level, right associativity).

Definition of_option {A} (e : exn) (o : option A) : result A :=
  match o with
  | Some a => Ok a
  | None => Raise e
  end.

(** ** Strings: [needle in hay] and [str.split] on one character *)

Fixpoint contains (needle hay : string) : bool :=
  String.prefix needle hay ||
  match hay with
  | EmptyString => false
  | String _ rest => contains needle rest
  end.

(** [s.split(sep)]: the pieces between occurrences of [sep]; always at
    least one piece. *)
Fixpoint split_on (sep : ascii) (s : string) : list string :=
  match s with
  | EmptyString => [EmptyString]
  | String c rest =>
      if Ascii.eqb c sep then EmptyString :: split_on sep rest
      else match split_on sep rest with
           | [] => [String c EmptyString]
           | piece :: pieces => String c piece :: pieces
           end
  end.

Definition plus_sign : ascii := "+"%char.

(** ** Python slicing [l[a:b]] with integer bounds *)

Definition clamp_index (len i : Z) : Z :=
  if i <? 0 then Z.max 0 (len + i) else Z.min i len.

Definition py_slice {A} (l : list A) (a b : Z) : list A :=
  let len := Z.of_nat (length l) in
  let a' := clamp_index len a in
  let b' := clamp_index len b in
  firstn (Z.to_nat (b' - a')) (skipn (Z.to_nat a') l).

(** ** The probe collaborator and the reporter configuration *)

(** The part of [network] the reporters read: the per-task diagonal
    weight vectors of both probes (dictionaries keyed by task name). *)
Record probe_weights : Type := {
  DistanceProbe : gmap string (list Q);
  DepthProbe : gmap string (list Q)
}.

(** [Reporter.__init__]: the two settings taken from [args]. *)
Record reporter_args : Type := {
  _probe_threshold : option Q;
  _drop_parts : option Z
}.

(** Python truthiness of [None]-or-number settings. *)
Definition truthyQ (o : option Q) : bool :=
  match o with
  | Some q => negb (Qeq_bool q 0)
  | None => false
  end.

Definition truthyZ (o : option Z) : bool :=
  match o with
  | Some z => negb (z =? 0)
  | None => false
  end.

(** ** [Reporter.get_embedding_gate] *)

(** [(np.abs(diagonal_probe) > threshold).astype(float)] *)
Definition threshold_gate (thr : Q) (diagonal_probe : list Q) : list Z :=
  map (fun w => if Qle_bool (Qabs w) thr then 0 else 1) diagonal_probe.

(** [np.where(gate)[-1]]: the indices of the non-zero entries, ascending. *)
Fixpoint np_where_from (i : nat) (gate : list Z) : list nat :=
  match gate with
  | [] => []
  | x :: rest =>
      if x =? 0 then np_where_from (S i) rest
      else i :: np_where_from (S i) rest
  end.

Definition np_where (gate : list Z) : list nat := np_where_from 0 gate.

(** [np.sum(gate)] *)
Definition np_sum (v : list Z) : Z := fold_right Z.add 0 v.

(** [gate[..., dims] = 0.] *)
Definition zero_dims (dims : list nat) (gate : list Z) : list Z :=
  fold_left (fun g d => <[d := 0]> g) dims gate.

(** [int(dim_num * part / drop_parts)]: true division of integral floats,
    then truncation toward zero. *)
Definition part_bound (dim_num part drop_parts : Z) : Z :=
  Z.quot (dim_num * part) drop_parts.

Definition drop_part (drop_parts part_to_drop : Z) (embedding_gate : list Z)
  : list Z :=
  let dim_num := np_sum embedding_gate in
  let part_start := part_bound dim_num part_to_drop drop_parts in
  let part_end := part_bound dim_num (part_to_drop + 1) drop_parts in
  let dims_to_drop := py_slice (np_where embedding_gate) part_start part_end in
  zero_dims dims_to_drop embedding_gate.

Definition diagonal_probe_of (net : probe_weights) (task : string)
  : result (list Q) :=
  if contains "distance" task then of_option KeyError (DistanceProbe net !! task)
  else if contains "depth" task then of_option KeyError (DepthProbe net !! task)
  else Raise UnboundLocalError.

(** The comparison with the threshold is that of a probe with at least
    one dimension: a threshold of [None] cannot be compared with a
    weight.  (On a probe without any dimension numpy has no weight to
    compare and the gate is empty whatever the threshold.) *)
Definition get_embedding_gate (net : probe_weights) (self : reporter_args)
    (task : string) (part_to_drop : Z) : result (list Z) :=
  diagonal_probe <-! diagonal_probe_of net task;
  thr <-! of_option TypeError (_probe_threshold self);
  let embedding_gate := threshold_gate thr diagonal_probe in
  Ok (if truthyZ (_drop_parts self)
      then drop_part (default 0 (_drop_parts self)) part_to_drop embedding_gate
      else embedding_gate).

(** ** Arrays and batches *)

(** A per-sentence numpy array: a vector (depth tasks) or a matrix
    (distance tasks). *)
Inductive ndarray (A : Type) : Type :=
| Arr1 (v : list A)
| Arr2 (m : list (list A)).
Arguments Arr1 {A} v.
Arguments Arr2 {A} m.

(** [a[:n]] *)
Definition slice_rows {A} (n : nat) (a : ndarray A) : ndarray A :=
  match a with
  | Arr1 v => Arr1 (firstn n v)
  | Arr2 m => Arr2 (firstn n m)
  end.

Definition slice_rows_ok {A} (n : nat) (a : ndarray A) : result (ndarray A) :=
  Ok (slice_rows n a).

(** [a[:n, :n]]: two indices need a matrix. *)
Definition slice_rows_cols {A} (n : nat) (a : ndarray A) : result (ndarray A) :=
  match a with
  | Arr1 _ => Raise IndexError
  | Arr2 m => Ok (Arr2 (firstn n (map (firstn n) m)))
  end.

(** [a.astype(bool)] on a numeric mask *)
Definition astype_bool (a : ndarray Z) : ndarray bool :=
  match a with
  | Arr1 v => Arr1 (map (fun x => negb (x =? 0)) v)
  | Arr2 m => Arr2 (map (map (fun x => negb (x =? 0))) m)
  end.

Definition embeddings : Type := list (list (list Q)).

(** One element of the data pipeline, after [tf.unstack]:
    [conll_indicies, batch_target, batch_mask, batch_num_tokens,
    batch_embeddings]. *)
Record batch : Type := {
  conll_indicies : list nat;
  batch_target : list (ndarray Q);
  batch_mask : list (ndarray Z);
  batch_num_tokens : list nat;
  batch_embeddings : embeddings
}.

(** The [network] collaborator: probe weights, the data pipeline
    restricted to one language and task, and the two probes' forward
    calls (already unstacked into per-sentence arrays). *)
Record network : Type := {
  probes : probe_weights;
  data_pipeline : string -> string -> list batch;
  distance_predict_on_batch :
    list nat -> embeddings -> string -> string -> option (list Z) ->
    list (ndarray Q);
  depth_predict_on_batch :
    list nat -> embeddings -> string -> string -> option (list Z) ->
    list (ndarray Q)
}.

(** What [predict] yields for one batch. *)
Record prediction : Type := {
  p_conll_indicies : list nat;
  p_num_tokens : list nat;
  pred_values : list (ndarray Q);
  gold_values : list (ndarray Q);
  mask : list (ndarray bool)
}.

(** A generator run to its end: the values yielded, then either normal
    exhaustion or the exception that ended it. *)
Inductive outcome : Type :=
| Finished
| Failed (e : exn).

Definition stream (A : Type) : Type := (list A * outcome)%type.

Fixpoint run_generator {A B} (step : A -> result B) (xs : list A) : stream B :=
  match xs with
  | [] => ([], Finished)
  | x :: rest =>
      match step x with
      | Raise e => ([], Failed e)
      | Ok y => let '(ys, o) := run_generator step rest in (y :: ys, o)
      end
  end.

(** [[f(a, n) for a, n in zip(arrays, lens)]] with a fallible [f] *)
Fixpoint zip_slices {A} (f : nat -> ndarray A -> result (ndarray A))
    (arrays : list (ndarray A)) (lens : list nat) : result (list (ndarray A)) :=
  match arrays, lens with
  | a :: arrays', n :: lens' =>
      x <-! f n a;
      xs <-! zip_slices f arrays' lens';
      Ok (x :: xs)
  | _, _ => Ok []
  end.

(** [range(n)] for a Python integer [n] *)
Definition py_range (n : Z) : list Z := map Z.of_nat (seq 0 (Z.to_nat n)).

(** ** [Reporter.predict] *)

(** The body of the inner loop: one batch under one dropped part. *)
Definition predict_batch (net : network) (self : reporter_args)
    (language lang task : string) (part_to_drop : Z) (b : batch)
  : result prediction :=
  embedding_gate <-!
    (if truthyQ (_probe_threshold self)
     then g <-! get_embedding_gate (probes net) self task part_to_drop; Ok (Some g)
     else Ok None);
  if contains "distance" task then
    let raw := distance_predict_on_batch net (batch_num_tokens b)
                 (batch_embeddings b) language task embedding_gate in
    pv <-! zip_slices slice_rows_cols raw (batch_num_tokens b);
    gv <-! zip_slices slice_rows_cols (batch_target b) (batch_num_tokens b);
    mk <-! zip_slices slice_rows_cols (map astype_bool (batch_mask b))
             (batch_num_tokens b);
    Ok {| p_conll_indicies := conll_indicies b;
          p_num_tokens := batch_num_tokens b;
          pred_values := pv; gold_values := gv; mask := mk |}
  else if contains "depth" task then
    let raw := depth_predict_on_batch net (batch_num_tokens b)
                 (batch_embeddings b) language task embedding_gate in
    pv <-! zip_slices slice_rows_ok raw (batch_num_tokens b);
    gv <-! zip_slices slice_rows_ok (batch_target b) (batch_num_tokens b);
    mk <-! zip_slices slice_rows_ok (map astype_bool (batch_mask b))
             (batch_num_tokens b);
    Ok {| p_conll_indicies := conll_indicies b;
          p_num_tokens := batch_num_tokens b;
          pred_values := pv; gold_values := gv; mask := mk |}
  else Raise ValueError_task.

Definition validation_steps (self : reporter_args) : Z :=
  if truthyZ (_drop_parts self) then default 0 (_drop_parts self) else 1.

(** The iterations of the two nested loops, in order. *)
Definition predict_iterations (net : network) (self : reporter_args)
    (lang task : string) : list (Z * batch) :=
  flat_map (fun part_to_drop =>
              map (fun b => (part_to_drop, b)) (data_pipeline net lang task))
           (py_range (validation_steps self)).

Definition predict (net : network) (self : reporter_args)
    (language lang task : string) : stream prediction :=
  run_generator
    (fun it => predict_batch net self language lang task (fst it) (snd it))
    (predict_iterations net self lang task).

(** ** State and exceptions: the monad of the reporters' methods *)

Definition action (S A : Type) : Type := S -> result A * S.

Definition ret {S A} (a : A) : action S A := fun s => (Ok a, s).

Definition fail {S A} (e : exn) : action S A := fun s => (Raise e, s).

Definition bind {S A B} (m : action S A) (k : A -> action S B) : action S B :=
  fun s =>
    match m s with
    | (Ok a, s') => k a s'
    | (Raise e, s') => (Raise e, s')
    end.

Definition lift {S A} (r : result A) : action S A := fun s => (r, s).

Notation "x <- m ;; k" := (bind m (fun x => k))
  (at level 100, m at next level, right associativity).
Notation "m ;;; k" := (bind m (fun _ => k))
  (at level 100, right associativity).

(** [for x in xs: body(x)] *)
Fixpoint for_each {S A} (xs : list A) (body : A -> action S unit) : action S unit :=
  match xs with
  | [] => ret tt
  | x :: rest => body x ;;; for_each rest body
  end.

(** [for x in generator: body(x)]: the values yielded, then the
    generator's own exception if it ended with one. *)
Definition for_stream {S A} (g : stream A) (body : A -> action S unit) : action S unit :=
  for_each (fst g) body ;;;
  match snd g with
  | Finished => ret tt
  | Failed e => fail e
  end.

(** ** Metric objects *)

(** The three metric classes imported from [reporting.metrics]. *)
Inductive metric_class : Type := Spearman | Pearson | Kendall.

(** A Python value held in [correlation_d]: a class object itself, or a
    reference to an instance living in the heap. *)
Inductive pyval : Type :=
| ClassObj (c : metric_class)
| InstanceRef (addr : nat).

(** One call's arguments: [(gold_values, pred_values, mask)]. *)
Definition observation : Type :=
  (list (ndarray Q) * list (ndarray Q) * list (ndarray bool))%type.

Definition array_len {A} (a : ndarray A) : nat :=
  match a with
  | Arr1 v => length v
  | Arr2 m => length m
  end.

(** Modelled from the spec: the correlation accumulator of
    [reporting.metrics], which is not among the sources.  It groups the
    observed sentences by sentence length. *)
Definition accumulator : Type := gmap nat (list (ndarray Q * ndarray Q)).

Fixpoint update_state (acc : accumulator)
    (gold pred : list (ndarray Q)) : accumulator :=
  match gold, pred with
  | g :: gold', p :: pred' =>
      update_state
        (<[array_len g := default [] (acc !! array_len g) ++ [(g, p)]]> acc)
        gold' pred'
  | _, _ => acc
  end.

Record cr_state : Type := {
  correlation_d : gmap string (gmap string pyval);
  heap : gmap nat accumulator
}.

Definition fresh_addr (h : gmap nat accumulator) : nat :=
  S (foldr Nat.max 0%nat (elements (dom h))).

(** ** [CorrelationReporter] *)

Definition lower_ascii (c : ascii) : ascii :=
  let n := nat_of_ascii c in
  if (Nat.leb 65 n && Nat.leb n 90)%bool then ascii_of_nat (n + 32) else c.

(** [s.lower()] on ASCII text *)
Fixpoint lower (s : string) : string :=
  match s with
  | EmptyString => EmptyString
  | String c rest => String (lower_ascii c) (lower rest)
  end.

Record args_t : Type := {
  probe_threshold : option Q;
  drop_parts : option Z;
  languages : list string;
  correlation : string;
  out_dir : string
}.

Record CorrelationReporter : Type := {
  cr_base : reporter_args;
  cr_dataset_name : string;
  cr_languages : list string;
  cr_tasks : list string;
  correlation_metric : pyval
}.

(** [CorrelationReporter.__init__]; raising a string is itself a
    [TypeError]. *)
Definition CorrelationReporter_init (args : args_t) (tasks : list string)
    (dataset_name : string) : result CorrelationReporter :=
  let base := {| _probe_threshold := probe_threshold args;
                 _drop_parts := drop_parts args |} in
  let mk := fun c => {| cr_base := base; cr_dataset_name := dataset_name;
                        cr_languages := languages args; cr_tasks := tasks;
                        correlation_metric := ClassObj c |} in
  if String.eqb (lower (correlation args)) "spearman" then Ok (mk Spearman)
  else if String.eqb (lower (correlation args)) "pearson" then Ok (mk Pearson)
  else if String.eqb (lower (correlation args)) "kendall" then Ok (mk Kendall)
  else Raise TypeError.

(** [self.correlation_d[lang][task] = v] on a [defaultdict(dict)] *)
Definition set_slot (lang task : string) (v : pyval) (st : cr_state) : cr_state :=
  {| correlation_d :=
       <[lang := <[task := v]> (default ∅ (correlation_d st !! lang))]>
         (correlation_d st);
     heap := heap st |}.

(** [self.correlation_d[lang][task]] *)
Definition get_slot (lang task : string) (st : cr_state) : option pyval :=
  default ∅ (correlation_d st !! lang) !! task.

Section Metrics.

(** What [reporting.metrics] decides and the sources do not show:
    whether a metric class can be constructed from an observation
    (the state of the new instance), or the constructor raises. *)
Variable construct : metric_class -> observation -> result accumulator.

(** [f(gold_values, pred_values, mask)]: calling a class builds a new
    instance, which the caller here drops; calling an instance updates
    it in place. *)
Definition call_metric (f : pyval) (obs : observation) : action cr_state unit :=
  fun st =>
    match f with
    | ClassObj c =>
        match construct c obs with
        | Raise e => (Raise e, st)
        | Ok inst =>
            (Ok tt, {| correlation_d := correlation_d st;
                       heap := <[fresh_addr (heap st) := inst]> (heap st) |})
        end
    | InstanceRef a =>
        match heap st !! a with
        | None => (Raise KeyError, st)
        | Some acc =>
            (Ok tt, {| correlation_d := correlation_d st;
                       heap := <[a := update_state acc (obs.1.1) (obs.1.2)]>
                                 (heap st) |})
        end
    end.

Definition observation_of (p : prediction) : observation :=
  (gold_values p, pred_values p, mask p).

(** [CorrelationReporter.compute] *)
Definition CorrelationReporter_compute (net : network)
    (self : CorrelationReporter) : action cr_state unit :=
  for_each (cr_languages self) (fun language =>
    for_each (split_on plus_sign language) (fun lang =>
      for_each (cr_tasks self) (fun task =>
        (fun st => (Ok tt, set_slot lang task (correlation_metric self) st)) ;;;
        for_stream (predict net (cr_base self) language lang task) (fun p =>
          f <- (fun st => (of_option KeyError (get_slot lang task st), st)) ;;
          call_metric f (observation_of p))))).

End Metrics.

(** ** [CorrelationReporter.write] *)

(** [np.nanmean(values)]: nan entries are replaced by zero and summed,
    the sum is divided by the number of entries that were not nan; with
    no such entry the result is nan.  [None] stands for nan. *)
Definition replace_nan (vals : list (option Q)) : list Q :=
  map (default 0%Q) vals.

Definition count_not_nan (vals : list (option Q)) : nat :=
  length (filter is_Some vals).

Definition Qsum (l : list Q) : Q := fold_right Qplus 0%Q l.

Definition np_nanmean (vals : list (option Q)) : option Q :=
  let cnt := count_not_nan vals in
  let tot := Qsum (replace_nan vals) in
  if Nat.eqb cnt 0 then None
  else Some (tot / inject_Z (Z.of_nat cnt))%Q.

(** The arithmetic mean of a list of numbers; nan for the empty list. *)
Definition mean (l : list Q) : option Q :=
  match l with
  | [] => None
  | _ => Some (Qsum l / inject_Z (Z.of_nat (length l)))%Q
  end.

Definition not_nan (vals : list (option Q)) : list Q := omap id vals.

(** Equality of floats up to the representation of the rational. *)
Definition float_eq (a b : option Q) : Prop :=
  match a, b with
  | Some x, Some y => (x == y)%Q
  | None, None => True
  | _, _ => False
  end.

Definition newline : string := String (ascii_of_nat 10) EmptyString.
Definition tab : string := String (ascii_of_nat 9) EmptyString.

(** [os.path.join(dir, name)] on POSIX *)
Definition path_join (dir name : string) : string :=
  if String.prefix "/" name then name
  else if String.eqb dir "" then name
  else if String.eqb (String.substring (String.length dir - 1) 1 dir) "/"
       then dir +:+ name
       else dir +:+ "/" +:+ name.

(** A file opened for writing and closed: path and final content. *)
Definition file : Type := (string * string)%type.

Definition emit (f : file) : action (list file) unit :=
  fun log => (Ok tt, log ++ [f]).

Definition gated_suffix (self : reporter_args) : string :=
  if truthyQ (_probe_threshold self)
  then "gated." +:+
       (if truthyZ (_drop_parts self)
        then "dp" +:+ pretty (default 0 (_drop_parts self)) +:+ "."
        else "")
  else "".

Definition cr_prefix (self : CorrelationReporter) (lang task : string) : string :=
  cr_dataset_name self +:+ "." +:+ lang +:+ "." +:+ task +:+ "." +:+
  gated_suffix (cr_base self).

Section Write.

(** [obj.result()] of [reporting.metrics]: the per-length values, in
    the order of the dictionary; [None] is nan. *)
Variable result_method : cr_state -> pyval -> result (list (nat * option Q)).

(** [str(x)] of a float *)
Variable str_float : option Q -> string.

Definition slot_result (st : cr_state) (lang task : string)
  : result (list (nat * option Q)) :=
  f <-! of_option KeyError (get_slot lang task st);
  result_method st f.

Definition bucket_lines (buckets : list (nat * option Q)) : string :=
  fold_right (fun b acc => pretty (b.1) +:+ tab +:+ str_float (b.2) +:+ newline +:+ acc)
             "" buckets.

(** The body of the innermost loop of [write]: the two files of one
    language and task.  A file whose content could not be computed has
    been created empty by [open]. *)
Definition write_one (args : args_t) (self : CorrelationReporter)
    (st : cr_state) (lang task : string) : action (list file) unit :=
  let prefix := cr_prefix self lang task in
  let spearman_path := path_join (out_dir args) (prefix +:+ "spearman") in
  let mean_path := path_join (out_dir args) (prefix +:+ "spearman_mean") in
  match slot_result st lang task with
  | Raise e => emit (spearman_path, "") ;;; fail e
  | Ok buckets =>
      emit (spearman_path, bucket_lines buckets) ;;;
      match slot_result st lang task with
      | Raise e => emit (mean_path, "") ;;; fail e
      | Ok buckets' =>
          emit (mean_path, str_float (np_nanmean (map snd buckets')) +:+ newline)
      end
  end.

Definition CorrelationReporter_write (args : args_t)
    (self : CorrelationReporter) (st : cr_state) : action (list file) unit :=
  for_each (cr_languages self) (fun language =>
    for_each (split_on plus_sign language) (fun lang =>
      for_each (cr_tasks self) (fun task =>
        write_one args self st lang task))).

End Write.

(** ** Matrices as lists of rows *)

(** [M[i, j]] *)
Definition mget {A} (M : list (list A)) (i j : nat) : option A :=
  M !! i ≫= (.!! j).

(** [M[i, j] = v] for indices within the shape *)
Definition mset {A} (i j : nat) (v : A) (M : list (list A)) : list (list A) :=
  alter (<[j := v]>) i M.

(** [sent_punctuation_mask[i]]; the mask has one entry per token. *)
Definition punct (sent_punctuation_mask : list bool) (i : nat) : bool :=
  default false (sent_punctuation_mask !! i).

(** ** [scipy.sparse.csgraph.minimum_spanning_tree] on a dense matrix

    The library is external.  Its documented behaviour is modelled: in a
    dense graph an entry that is zero, infinite or nan is no edge; the
    tree is built by Kruskal's algorithm over the remaining entries,
    taken as undirected edges in the order of their weights. *)

(** A distance entry after masking: a number or [np.inf]. *)
Inductive weight : Type :=
| W (q : Q)
| Winf.

Definition edge : Type := (nat * nat * Q)%type.

Definition edge_weight (w : weight) : option Q :=
  match w with
  | W q => if Qeq_bool q 0 then None else Some q
  | Winf => None
  end.

(** The stored entries, row by row. *)
Definition csgraph_from_dense (M : list (list weight)) : list edge :=
  concat (imap (fun i row =>
                  omap id (imap (fun j w => (fun q => (i, j, q)) <$> edge_weight w) row))
               M).

Fixpoint insert_edge (e : edge) (sorted : list edge) : list edge :=
  match sorted with
  | [] => [e]
  | e' :: rest =>
      if Qle_bool (e.2) (e'.2) then e :: sorted else e' :: insert_edge e rest
  end.

(** The edges in ascending order of weight. *)
Definition argsort_edges (es : list edge) : list edge :=
  fold_right insert_edge [] es.

(** Union-find, abstractly: [comp !! v] names the component of node [v]. *)
Definition component (comp : list nat) (v : nat) : nat := default 0%nat (comp !! v).

Definition union (cu cv : nat) (comp : list nat) : list nat :=
  map (fun c => if Nat.eqb c cv then cu else c) comp.

(** One edge of Kruskal's scan: kept when its ends lie in different
    components, which are then merged. *)
Definition kruskal_step (st : list nat * list edge) (e : edge)
  : list nat * list edge :=
  let '(comp, kept) := st in
  let cu := component comp (e.1.1) in
  let cv := component comp (e.1.2) in
  if Nat.eqb cu cv then st else (union cu cv comp, kept ++ [e]).

Definition kruskal (n : nat) (es : list edge) : list edge :=
  snd (fold_left kruskal_step es (seq 0 n, [])).

(** [minimum_spanning_tree(M).tocoo()]: the (row, col) of the kept
    entries. *)
Definition minimum_spanning_tree (M : list (list weight)) : list (nat * nat) :=
  map fst (kruskal (length M) (argsort_edges (csgraph_from_dense M))).

(** ** [UASReporter.undirected_tree] *)

(** The masking loops on one matrix. *)
Definition mask_undirected (sent_punctuation_mask : list bool) (sent_len : nat)
    (sent : list (list weight)) : list (list weight) :=
  fold_left (fun M i =>
    fold_left (fun M j =>
      if punct sent_punctuation_mask i || punct sent_punctuation_mask j
      then mset i j Winf M
      else if Nat.ltb j i then mset i j Winf M else M)
      (seq 0 sent_len) M)
    (seq 0 sent_len) sent.

(** [set(map(tuple, zip(tree.col + 1, tree.row + 1)))] *)
Definition edge_pairs (tree : list (nat * nat)) : gset (nat * nat) :=
  list_to_set (map (fun rc => (S (rc.2), S (rc.1))) tree).

Definition undirected_edges (sent_punctuation_mask : list bool) (sent_len : nat)
    (sent : list (list Q)) : gset (nat * nat) :=
  edge_pairs (minimum_spanning_tree
                (mask_undirected sent_punctuation_mask sent_len (map (map W) sent))).

Definition undirected_tree (sent_punctuation_mask : list bool)
    (sent_predicted sent_gold : list (list Q)) (sent_len : nat)
  : gset (nat * nat) * gset (nat * nat) :=
  (undirected_edges sent_punctuation_mask sent_len sent_predicted,
   undirected_edges sent_punctuation_mask sent_len sent_gold).

(** ** [UASReporter.directed_tree] *)

(** An arc score: a number or nan (no arc). *)
Inductive score : Type :=
| Sc (q : Q)
| Snan.

(** [np.argmin(v)]: the first index of the least entry. *)
Fixpoint argmin_from (best_i : nat) (best : Q) (i : nat) (v : list Q) : nat :=
  match v with
  | [] => best_i
  | x :: rest =>
      if Qle_bool best x then argmin_from best_i best (S i) rest
      else argmin_from i x (S i) rest
  end.

Definition np_argmin (v : list Q) : result nat :=
  match v with
  | [] => Raise ValueError_argmin
  | x :: rest => Ok (argmin_from 0 x 1 rest)
  end.

(** [depths[i]] *)
Definition depth_at (depths : list Q) (i : nat) : Q := default 0%Q (depths !! i).

(** [np.full((n+1, n+1), nan)] followed by [M[1:, 1:] = -sent] *)
Definition with_root_init (sent : list (list Q)) : list (list score) :=
  replicate (S (length sent)) Snan ::
  map (fun row => Snan :: map (fun d => Sc (- d)%Q) row) sent.

(** The score matrix of one tree (predicted or gold): the masking loops
    and the final wiring of the detected root. *)
Definition with_root (sent_punctuation_mask : list bool) (depths : list Q)
    (root : nat) (sent : list (list Q)) (sent_len : nat) : list (list score) :=
  let M1 :=
    fold_left (fun M i =>
      let M := if punct sent_punctuation_mask i
               then mset (i + 1) 0 (Sc 0) M else M in
      fold_left (fun M j =>
        if punct sent_punctuation_mask i || punct sent_punctuation_mask j
        then mset (i + 1) (j + 1) Snan M
        else if Qle_bool (depth_at depths i) (depth_at depths j)
             then mset (i + 1) (j + 1) Snan M else M)
        (seq 0 sent_len) M)
      (seq 0 sent_len) (with_root_init sent) in
  mset root 0 (Sc 0) M1.

(** [[(dep, head) for dep, head, is_punctuation
      in zip(range(1, sent_len+1), heads[1:], mask) if not is_punctuation]] *)
Fixpoint arcs_of (dep : nat) (n : nat) (heads : list Z) (mask : list bool)
  : list (nat * Z) :=
  match n, heads, mask with
  | S n', head :: heads', is_punctuation :: mask' =>
      if is_punctuation then arcs_of (S dep) n' heads' mask'
      else (dep, head) :: arcs_of (S dep) n' heads' mask'
  | _, _, _ => []
  end.

Section Decoder.

(** [ufal.chu_liu_edmonds.chu_liu_edmonds]: external.  It returns the
    list of heads (the tree score is not used by the reporter), or
    raises. *)
Variable chu_liu_edmonds : list (list score) -> result (list Z).

Definition directed_tree (sent_punctuation_mask : list bool)
    (predicted_depths gold_depths : list Q)
    (sent_predicted sent_gold : list (list Q)) (sent_len : nat)
  : result (gset (nat * Z) * gset (nat * Z)) :=
  predicted_root <-! np_argmin predicted_depths;
  gold_root <-! np_argmin gold_depths;
  let sent_predicted_with_root :=
    with_root sent_punctuation_mask predicted_depths (predicted_root + 1)
              sent_predicted sent_len in
  let sent_gold_with_root :=
    with_root sent_punctuation_mask gold_depths (gold_root + 1)
              sent_gold sent_len in
  predicted_heads <-! chu_liu_edmonds sent_predicted_with_root;
  gold_heads <-! chu_liu_edmonds sent_gold_with_root;
  Ok (list_to_set (arcs_of 1 sent_len (tail predicted_heads) sent_punctuation_mask),
      list_to_set (arcs_of 1 sent_len (tail gold_heads) sent_punctuation_mask)).

End Decoder.

(** ** [SelectedDimensionalityReporter.compute] *)

(** [selected_dims[i] * selected_dims[j]]: elementwise, a vector of one
    entry is broadcast, other shape mismatches are refused by the
    library. *)
Definition tf_multiply (a b : list Z) : result (list Z) :=
  if Nat.eqb (length a) (length b) then Ok (zip_with Z.mul a b)
  else match a, b with
       | [x], _ => Ok (map (Z.mul x) b)
       | _, [y] => Ok (map (fun v => v * y) a)
       | _, _ => Raise LibraryError
       end.

(** [np.zeros((n, n), dtype=int)] *)
Definition np_zeros (n : nat) : list (list Z) := replicate n (replicate n 0).

(** [enumerate(l)] *)
Definition enumerate {A} (l : list A) : list (nat * A) := imap (fun i x => (i, x)) l.

Record sd_state : Type := {
  dimension_matrices : gmap string (list (list Z));
  selected_dims : gmap nat (list Z)
}.

Definition set_matrix (language : string) (mat : list (list Z)) : action sd_state unit :=
  fun st => (Ok tt, {| dimension_matrices := <[language := mat]> (dimension_matrices st);
                       selected_dims := selected_dims st |}).

Definition get_matrix (language : string) : action sd_state (list (list Z)) :=
  fun st => (of_option KeyError (dimension_matrices st !! language), st).

Definition reset_selected_dims : action sd_state unit :=
  fun st => (Ok tt, {| dimension_matrices := dimension_matrices st;
                       selected_dims := ∅ |}).

Definition set_selected (i : nat) (g : list Z) : action sd_state unit :=
  fun st => (Ok tt, {| dimension_matrices := dimension_matrices st;
                       selected_dims := <[i := g]> (selected_dims st) |}).

Definition get_selected (i : nat) : action sd_state (list Z) :=
  fun st => (of_option KeyError (selected_dims st !! i), st).

(** The body of the innermost loop: one pair of tasks. *)
Definition overlap_step (language : string) (task_idx task_jdx : nat)
  : action sd_state unit :=
  gi <- get_selected task_idx ;;
  gj <- get_selected task_jdx ;;
  prod <- lift (tf_multiply gi gj) ;;
  let dims_n := np_sum prod in
  Mx <- get_matrix language ;;
  set_matrix language (mset task_idx task_jdx dims_n Mx) ;;;
  Mx' <- get_matrix language ;;
  set_matrix language (mset task_jdx task_idx dims_n Mx').

(** The body of the loop over [enumerate(self._tasks)]. *)
Definition task_step (net : probe_weights) (self : reporter_args)
    (language : string) (it : nat * string) : action sd_state unit :=
  let task_idx := it.1 in
  g <- lift (get_embedding_gate net self (it.2) 0) ;;
  set_selected task_idx g ;;;
  for_each (seq 0 (task_idx + 1)) (overlap_step language task_idx).

Definition SelectedDimensionalityReporter_compute (net : probe_weights)
    (self : reporter_args) (_languages _tasks : list string) : action sd_state unit :=
  for_each _languages (fun language =>
    set_matrix language (np_zeros (length _tasks)) ;;;
    reset_selected_dims ;;;
    for_each (enumerate _tasks) (task_step net self language)).

(** * Further models: the remaining reporter methods *)

(** ** [SelectedDimensionalityReporter.write] *)

(** [sep.join(pieces)] *)
Fixpoint join_with (sep : string) (pieces : list string) : string :=
  match pieces with
  | [] => ""
  | [p] => p
  | p :: rest => p +:+ sep +:+ join_with sep rest
  end.

Definition comma_tab : string := "," +:+ tab.

(** The file of one task: its own cell of the diagonal.  The file is
    open when the cell is read, so a failing read leaves it empty. *)
Definition write_selected_dims (out_dir language : string)
    (dimension_matrices : gmap string (list (list Z))) (it : nat * string)
  : action (list file) unit :=
  let task_idx := it.1 in
  let prefix := language +:+ "." +:+ it.2 +:+ "." in
  let path := path_join out_dir (prefix +:+ "selected_dims") in
  match (Mx <-! of_option KeyError (dimension_matrices !! language);
         of_option IndexError (mget Mx task_idx task_idx)) with
  | Raise e => emit (path, "") ;;; fail e
  | Ok v => emit (path, pretty v +:+ newline)
  end.

(** One line per task: the task's name, then its row of the matrix. *)
Definition inter_lines (tasks : list string) (Mx : list (list Z)) : string :=
  fold_right
    (fun tr acc =>
       join_with comma_tab (tr.1 :: map pretty (tr.2)) +:+ newline +:+ acc)
    "" (zip tasks Mx).

(** The table of one language: the header is written before the matrix
    is looked up. *)
Definition write_inter_dims (out_dir language : string) (tasks : list string)
    (dimension_matrices : gmap string (list (list Z)))
  : action (list file) unit :=
  let prefix := language +:+ "." in
  let path := path_join out_dir (prefix +:+ "inter_dims") in
  let header := join_with comma_tab (" " :: tasks) +:+ newline in
  match dimension_matrices !! language with
  | None => emit (path, header) ;;; fail KeyError
  | Some Mx => emit (path, header +:+ inter_lines tasks Mx)
  end.

Definition SelectedDimensionalityReporter_write (out_dir : string)
    (_languages _tasks : list string)
    (dimension_matrices : gmap string (list (list Z)))
  : action (list file) unit :=
  for_each _languages (fun language =>
    for_each (enumerate _tasks)
             (write_selected_dims out_dir language dimension_matrices) ;;;
    write_inter_dims out_dir language _tasks dimension_matrices).

(** ** [DependencyDepthReporter.compute] *)

(** [results]: a [defaultdict(dict)] from language to sentence index to
    the pair stored under ['predicted'] and ['gold']. *)
Abbreviation depth_results := (gmap string (gmap nat (ndarray Q * ndarray Q))).

(** [results[lang][conll_idx] = {...}]; reading a language that is
    missing creates its empty dictionary first. *)
Definition store_depths (lang : string) (it : nat * (ndarray Q * ndarray Q))
  : action depth_results unit :=
  fun results =>
    (Ok tt, <[lang := <[it.1 := it.2]> (default ∅ (results !! lang))]> results).

(** [zip(a, b, c)] *)
Definition zip3 {A B C} (a : list A) (b : list B) (c : list C)
  : list (A * (B * C)) :=
  zip a (zip b c).

(** The sentences of one yielded tuple. *)
Definition depth_sentences (p : prediction)
  : list (nat * (ndarray Q * ndarray Q)) :=
  zip3 (p_conll_indicies p) (pred_values p) (gold_values p).

Definition depth_member_step (net : network) (self : reporter_args)
    (language lang : string) : action depth_results unit :=
  for_stream (predict net self language lang "dep_depth") (fun p =>
    for_each (depth_sentences p) (store_depths lang)).

(** The loops of [compute], run on the local [results]. *)
Definition depth_loops (net : network) (self : reporter_args)
    (languages : list string) : action depth_results unit :=
  for_each languages (fun language =>
    for_each (split_on plus_sign language) (depth_member_step net self language)).

(** [compute] returns [results] when the loops end; an exception loses
    it. *)
Definition DependencyDepthReporter_compute (net : network)
    (self : reporter_args) (languages : list string) : result depth_results :=
  match depth_loops net self languages ∅ with
  | (Ok _, results) => Ok results
  | (Raise e, _) => Raise e
  end.

(** ** [UASReporter.compute] and [UASReporter.write] *)

(** The set handed to the metric: the edges of [undirected_tree] or
    the arcs of [directed_tree]. *)
Inductive arcs : Type :=
| UArcs (edges : gset (nat * nat))
| DArcs (heads : gset (nat * Z)).

(** The reporter: [punctuation_masks] is a dictionary over the
    languages of [conll_dict]; what it holds for a language is indexed
    by the sentence, and that lookup belongs to the CoNLL wrapper. *)
Record UASReporter : Type := {
  uas_base : reporter_args;
  uas_dataset_name : string;
  punctuation_masks : gmap string (nat -> result (list bool));
  uas_languages : list string;
  depths : option depth_results
}.

(** [if self.depths]: [None] and the empty dictionary are false. *)
Definition truthy_depths (d : option depth_results) : bool :=
  match d with
  | Some r => negb (bool_decide (r = ∅))
  | None => false
  end.

(** [zip(a, b, c, d)] *)
Definition zip4 {A B C D} (a : list A) (b : list B) (c : list C) (d : list D)
  : list (A * (B * (C * D))) :=
  zip a (zip b (zip c d)).

(** The sentences of one yielded tuple, with their lengths. *)
Definition uas_sentences (p : prediction)
  : list (nat * (ndarray Q * (ndarray Q * nat))) :=
  zip4 (p_conll_indicies p) (pred_values p) (gold_values p) (p_num_tokens p).

Definition uas_prefix (self : UASReporter) (lang : string) : string :=
  uas_dataset_name self +:+ "." +:+ lang +:+ "." +:+ gated_suffix (uas_base self).

Section UAS.

Variable chu_liu_edmonds : list (list score) -> result (list Z).

(** [reporting.metrics.UAS]: the type of an instance, the fresh
    instance [UAS()], [update_state(gold, predicted)] and
    [str(result())]. *)
Variable uas_t : Type.
Variable UAS : uas_t.
Variable uas_update_state : uas_t -> arcs -> arcs -> result uas_t.
Variable uas_result_str : uas_t -> result string.

(** The pair [(predicted, gold)] of one sentence.  [predict] yields
    matrices for a distance task and the depth reporter stores vectors;
    other shapes are left to the library. *)
Definition uas_sentence (self : UASReporter) (lang : string)
    (it : nat * (ndarray Q * (ndarray Q * nat))) : result (arcs * arcs) :=
  let conll_idx := it.1 in
  let sent_predicted := it.2.1 in
  let sent_gold := it.2.2.1 in
  let sent_len := it.2.2.2 in
  if truthy_depths (depths self) then
    masks <-! of_option KeyError (punctuation_masks self !! lang);
    sent_punctuation_mask <-! masks conll_idx;
    d <-! of_option KeyError (default ∅ (depths self) !! lang ≫= (.!! conll_idx));
    match d.1, d.2, sent_predicted, sent_gold with
    | Arr1 predicted_depths, Arr1 gold_depths, Arr2 mp, Arr2 mg =>
        t <-! directed_tree chu_liu_edmonds sent_punctuation_mask
                predicted_depths gold_depths mp mg sent_len;
        Ok (DArcs t.1, DArcs t.2)
    | _, _, _, _ => Raise LibraryError
    end
  else
    masks <-! of_option KeyError (punctuation_masks self !! lang);
    sent_punctuation_mask <-! masks conll_idx;
    match sent_predicted, sent_gold with
    | Arr2 mp, Arr2 mg =>
        let t := undirected_tree sent_punctuation_mask mp mg sent_len in
        Ok (UArcs t.1, UArcs t.2)
    | _, _ => Raise LibraryError
    end.

(** The body of the innermost loop: the trees of one sentence, then
    [self.uas[lang].update_state(gold, predicted)]. *)
Definition uas_sentence_step (self : UASReporter) (lang : string)
    (it : nat * (ndarray Q * (ndarray Q * nat)))
  : action (gmap string uas_t) unit :=
  t <- lift (uas_sentence self lang it) ;;
  m <- (fun uas => (of_option KeyError (uas !! lang), uas)) ;;
  m' <- lift (uas_update_state m t.2 t.1) ;;
  fun uas => (Ok tt, <[lang := m']> uas).

(** One member of a language: a fresh instance, then its sentences. *)
Definition uas_member_step (net : network) (self : UASReporter)
    (language lang : string) : action (gmap string uas_t) unit :=
  (fun uas => (Ok tt, <[lang := UAS]> uas)) ;;;
  for_stream (predict net (uas_base self) language lang "dep_distance") (fun p =>
    for_each (uas_sentences p) (uas_sentence_step self lang)).

Definition UASReporter_compute (net : network) (self : UASReporter)
  : action (gmap string uas_t) unit :=
  for_each (uas_languages self) (fun language =>
    for_each (split_on plus_sign language) (uas_member_step net self language)).

(** The file of one member: it is open when the metric is looked up. *)
Definition uas_write_one (out_dir : string) (self : UASReporter)
    (uas : gmap string uas_t) (lang : string) : action (list file) unit :=
  let path := path_join out_dir
                (uas_prefix self lang +:+
                 (if truthy_depths (depths self) then "uas" else "uuas")) in
  match (m <-! of_option KeyError (uas !! lang); uas_result_str m) with
  | Raise e => emit (path, "") ;;; fail e
  | Ok s => emit (path, s +:+ newline)
  end.

Definition UASReporter_write (out_dir : string) (self : UASReporter)
    (uas : gmap string uas_t) : action (list file) unit :=
  for_each (uas_languages self) (fun language =>
    for_each (split_on plus_sign language) (uas_write_one out_dir self uas)).

End UAS.

Arguments uas_sentence_step _ {_} _ _ _ _ _.
Arguments uas_member_step _ {_} _ _ _ _ _ _ _.
Arguments UASReporter_compute _ {_} _ _ _ _ _.
Arguments uas_write_one {_} _ _ _ _ _ _.
Arguments UASReporter_write {_} _ _ _ _ _.

(** * The data map of [data_support/tfrecord_wrapper.py] *)

(** A value of the data map as [json.load] delivers it and the wrapper
    builds it: [None], a string, or a dictionary with its items in
    insertion order. *)
#[local] Unset Elimination Schemes.
Inductive pyobj : Type :=
| PyNone
| PyStr (s : string)
| PyDict (items : list (string * pyobj)).
#[local] Set Elimination Schemes.

(** [d.get(k)] *)
Fixpoint dict_get (k : string) (d : list (string * pyobj)) : option pyobj :=
  match d with
  | [] => None
  | (k', v) :: rest => if decide (k' = k) then Some v else dict_get k rest
  end.

(** [d[k] = v]: an existing key keeps its place, a new one goes last. *)
Fixpoint dict_set (k : string) (v : pyobj) (d : list (string * pyobj))
  : list (string * pyobj) :=
  match d with
  | [] => [(k, v)]
  | (k', v') :: rest =>
      if decide (k' = k) then (k', v) :: rest else (k', v') :: dict_set k v rest
  end.

(** ** [merge_dict] *)

(** [d1] after [merge_dict(d1, d2)], for [d2] given as a value: the
    loop over [d2.items()], recursing where both sides hold a
    dictionary. *)
Fixpoint merge_into (d1 : list (string * pyobj)) (o2 : pyobj) {struct o2}
  : list (string * pyobj) :=
  match o2 with
  | PyDict d2 =>
      (fix items (d1 d2 : list (string * pyobj)) {struct d2}
         : list (string * pyobj) :=
         match d2 with
         | [] => d1
         | (k, v2) :: rest =>
             items (match dict_get k d1, v2 with
                    | Some (PyDict v1), PyDict _ =>
                        dict_set k (PyDict (merge_into v1 v2)) d1
                    | _, _ => dict_set k v2 d1
                    end) rest
         end) d1 d2
  | _ => d1
  end.

Definition merge_dict (d1 d2 : list (string * pyobj)) : list (string * pyobj) :=
  merge_into d1 (PyDict d2).

(** ** [TFRecordWrapper.__init__] *)

Definition modes : list string := ["train"; "dev"; "test"].

(** [for x in xs: d[x] = v] *)
Definition dict_fill (xs : list string) (v : pyobj) : list (string * pyobj) :=
  foldl (fun d x => dict_set x v d) [] xs.

(** The map the constructor builds: every task of every language of
    every model of every mode is [None]. *)
Definition init_map (tasks models languages : list string)
  : list (string * pyobj) :=
  dict_fill modes
    (PyDict (dict_fill models
       (PyDict (dict_fill languages
          (PyDict (dict_fill tasks PyNone)))))).

(** ** [TFRecordReader.read] *)

Inductive read_exn : Type :=
| ModelNotAvailable
| LanguageNotAvailable (lang : string)
| TaskNotAvailable (task : string)
| MapKeyError
| MapTypeError.

(** [o[k]] for a string key: neither [None] nor a string can be
    subscripted with it. *)
Definition subscript (o : pyobj) (k : string) : read_exn + pyobj :=
  match o with
  | PyDict d =>
      match dict_get k d with
      | Some v => inr v
      | None => inl MapKeyError
      end
  | _ => inl MapTypeError
  end.

(** [os.path.join(data_dir, o)]: only a string is a path. *)
Definition join_path (data_dir : string) (o : pyobj) : read_exn + string :=
  match o with
  | PyStr s => inr (path_join data_dir s)
  | _ => inl MapTypeError
  end.

Record TFRecordReader : Type := {
  tfr_tasks : list string;
  tfr_models : list string;
  tfr_languages : list string;
  map_tfrecord : list (string * pyobj);
  data_dir : string;
  model_name : string
}.

(** A data set of one mode: language to task to the file read. *)
Abbreviation data_set_t := (gmap string (gmap string string)).

(** [self.map_tfrecord[mode][self.model_name][lang][task]], joined to
    the directory. *)
Definition tfr_fn_of (self : TFRecordReader) (mode lang task : string)
  : read_exn + string :=
  match subscript (PyDict (map_tfrecord self)) mode with
  | inl e => inl e
  | inr m1 =>
      match subscript m1 (model_name self) with
      | inl e => inl e
      | inr m2 =>
          match subscript m2 lang with
          | inl e => inl e
          | inr m3 =>
              match subscript m3 task with
              | inl e => inl e
              | inr leaf => join_path (data_dir self) leaf
              end
          end
      end
  end.

(** The loop over [read_tasks] for one language. *)
Fixpoint read_tasks_loop (self : TFRecordReader) (mode lang : string)
    (read_tasks : list string) (data_set : data_set_t)
  : read_exn + data_set_t :=
  match read_tasks with
  | [] => inr data_set
  | task :: rest =>
      if decide (task ∈ tfr_tasks self) then
        match tfr_fn_of self mode lang task with
        | inl e => inl e
        | inr tfr_fn =>
            read_tasks_loop self mode lang rest
              (<[lang := <[task := tfr_fn]> (default ∅ (data_set !! lang))]>
                 data_set)
        end
      else inl (TaskNotAvailable task)
  end.

(** The loop over the members of the requested languages. *)
Fixpoint read_langs_loop (self : TFRecordReader) (mode : string)
    (read_tasks langs : list string) (data_set : data_set_t)
  : read_exn + data_set_t :=
  match langs with
  | [] => inr data_set
  | lang :: rest =>
      if decide (lang ∈ tfr_languages self) then
        match read_tasks_loop self mode lang read_tasks (<[lang := ∅]> data_set) with
        | inl e => inl e
        | inr data_set' => read_langs_loop self mode read_tasks rest data_set'
        end
      else inl (LanguageNotAvailable lang)
  end.

(** The loop over the modes: the attributes set so far, and the
    exception that ended the loop, if any. *)
Fixpoint read_modes_loop (self : TFRecordReader)
    (read_tasks read_languages : list string) (ms : list string)
    (attrs : gmap string data_set_t) : gmap string data_set_t * option read_exn :=
  match ms with
  | [] => (attrs, None)
  | mode :: rest =>
      match read_langs_loop self mode read_tasks
              (flat_map (split_on plus_sign) read_languages) ∅ with
      | inl e => (attrs, Some e)
      | inr data_set =>
          read_modes_loop self read_tasks read_languages rest
                          (<[mode := data_set]> attrs)
      end
  end.

Definition TFRecordReader_read (self : TFRecordReader)
    (read_tasks read_languages : list string)
  : gmap string data_set_t * option read_exn :=
  if decide (model_name self ∈ tfr_models self)
  then read_modes_loop self read_tasks read_languages modes ∅
  else (∅, Some ModelNotAvailable).

(** ** [TFRecordReader.__init__] *)

(** The map of a reader: the wrapper's map for no task, model or
    language, with the map of the JSON file merged into it by
    [_from_json]. *)
Definition reader_map (json_map : list (string * pyobj))
  : list (string * pyobj) :=
  merge_dict (init_map [] [] []) json_map.

(** * Vocabulary of the properties *)

(** The path of the mean file that [write] opens for one language and
    task. *)
Definition mean_path (args : args_t) (self : CorrelationReporter)
    (lang task : string) : string :=
  path_join (out_dir args) (cr_prefix self lang task +:+ "spearman_mean").

(** The slice of the true indices that pass [p] of [k] drops, in the
    words of the specification: from floor(T*p/k) to floor(T*(p+1)/k),
    [T] the number of true dimensions. *)
Definition spec_slice (gate : list Z) (k p : Z) : list nat :=
  let T := Z.of_nat (length (np_where gate)) in
  let s := Z.to_nat (T * p / k) in
  let e := Z.to_nat (T * (p + 1) / k) in
  firstn (e - s) (skipn s (np_where gate)).

(** Index [i] is true in the gate [before] and zero in [after]. *)
Definition zeroed (before after : list Z) (i : nat) : Prop :=
  before !! i = Some 1 /\ after !! i = Some 0.

Definition zero_one (x : Z) : Prop := x = 0 \/ x = 1.

(** The entry that the loops of [directed_tree] leave in cell [(r, c)]
    of the score matrix: row and column 0 are the virtual root, token
    [i] sits at index [i + 1]. *)
Definition score_cell (sent_punctuation_mask : list bool) (depths : list Q)
    (root : nat) (sent : list (list Q)) (r c : nat) : score :=
  match r, c with
  | O, _ => Snan
  | S i, O =>
      if punct sent_punctuation_mask i || Nat.eqb root (S i) then Sc 0 else Snan
  | S i, S j =>
      if punct sent_punctuation_mask i || punct sent_punctuation_mask j then Snan
      else if Qle_bool (depth_at depths i) (depth_at depths j) then Snan
      else match mget sent i j with
           | Some d => Sc (- d)%Q
           | None => Snan
           end
  end.

(** Token [j] (or the root, [c = 0]) is a candidate head of the node in
    row [r]: the score is a number. *)
Definition candidate (scores : list (list score)) (r c : nat) : Prop :=
  exists q, mget scores r c = Some (Sc q).

(** The sentence has the shape [predict] gives it: one mask entry and
    one depth per token, a square distance matrix. *)
Definition well_shaped (sent_punctuation_mask : list bool) (depths : list Q)
    (sent : list (list Q)) (sent_len : nat) : Prop :=
  length sent_punctuation_mask = sent_len /\
  length depths = sent_len /\
  length sent = sent_len /\
  Forall (fun row => length row = sent_len) sent.

(** What is used of the arborescence decoder when it returns: one entry
    per node, and for every node but the root a head that is the
    virtual root or one of the node's candidates.  A node without
    candidate can only be given the root. *)
Definition root_or_candidate (scores : list (list score)) (heads : list Z)
  : Prop :=
  length heads = length scores /\
  forall r, (1 <= r < length scores)%nat ->
    exists h : nat, heads !! r = Some (Z.of_nat h) /\
                    (h = 0%nat \/ candidate scores r h).

(** The number of tokens that are not punctuation. *)
Definition non_punctuation (sent_punctuation_mask : list bool) : nat :=
  length (filter (fun b => b = false) sent_punctuation_mask).

(** A set of (dependent, head) arcs over a sentence of [L] tokens: one
    arc per non-punctuation token, and no punctuation token at either
    end of an arc. *)
Definition arcs_ok (mask : list bool) (L : nat) (arcs : gset (nat * Z)) : Prop :=
  size arcs = non_punctuation mask /\
  (forall t, (t < L)%nat -> punct mask t = false ->
     exists h, (S t, h) ∈ arcs /\ forall h', (S t, h') ∈ arcs -> h' = h) /\
  (forall dep head, (dep, head) ∈ arcs ->
     (1 <= dep <= L)%nat /\ punct mask (dep - 1) = false /\
     (head = 0 \/
      exists j, head = Z.of_nat (S j) /\ (j < L)%nat /\ punct mask j = false)).

(** The indices of the tokens that are not punctuation, ascending. *)
Fixpoint content_tokens_from (i : nat) (mask : list bool) : list nat :=
  match mask with
  | [] => []
  | b :: rest =>
      if b then content_tokens_from (S i) rest
      else i :: content_tokens_from (S i) rest
  end.

Definition content_tokens (mask : list bool) : list nat :=
  content_tokens_from 0 mask.

(** An entry of the kept upper half, between two tokens that are not
    punctuation, that is a finite number. *)
Definition finite_entry (mask : list bool) (sent : list (list Q))
    (u v : nat) : Prop :=
  (u < v)%nat /\ punct mask u = false /\ punct mask v = false /\
  exists q, mget sent u v = Some q.

(** Such an entry that is moreover not zero: what the spanning-tree
    routine reads as an edge. *)
Definition nonzero_entry (mask : list bool) (sent : list (list Q))
    (u v : nat) : Prop :=
  (u < v)%nat /\ punct mask u = false /\ punct mask v = false /\
  exists q, mget sent u v = Some q /\ Qeq_bool q 0 = false.

(** The tokens that are not punctuation are connected by the relation
    [R], taken as undirected edges. *)
Definition connected_tokens (R : nat -> nat -> Prop) (mask : list bool)
    (L : nat) : Prop :=
  forall u v, (u < L)%nat -> (v < L)%nat ->
    punct mask u = false -> punct mask v = false -> rtsc R u v.

(** A distance matrix of [L] rows and [L] columns. *)
Definition square (sent : list (list Q)) (L : nat) : Prop :=
  length sent = L /\ Forall (fun row => length row = L) sent.

(** The decoded pairs are 1-based pairs (larger, smaller) of tokens
    that are not punctuation. *)
Definition one_based_pairs (mask : list bool) (L : nat)
    (edges : gset (nat * nat)) : Prop :=
  forall a b, (a, b) ∈ edges ->
    exists i j, a = S j /\ b = S i /\ (i < j < L)%nat /\
                punct mask i = false /\ punct mask j = false.

(** The number of dimensions where both gates are 1. *)
Definition both_true (gi gj : list Z) : Z :=
  Z.of_nat (length (filter (fun p : Z * Z => p.1 = 1 /\ p.2 = 1) (zip gi gj))).

(** The number of true entries of a gate. *)
Definition true_count (g : list Z) : Z :=
  Z.of_nat (length (filter (fun x : Z => x = 1) g)).

(** An action runs to its end from state [s] and establishes [post]. *)
Definition runs_ok {S A} (m : action S A) (s : S) (post : A -> S -> Prop) : Prop :=
  exists a s', m s = (Ok a, s') /\ post a s'.

(** The gate of the task at position [i]. *)
Definition gate_at (gates : list (list Z)) (i : nat) : list Z :=
  default [] (gates !! i).

(** The matrix has [T] rows and [T] columns. *)
Definition shape_ok (T : nat) (M : list (list Z)) : Prop :=
  length M = T /\ Forall (fun row => length row = T) M.

(** Cell [(i, j)] holds the overlap of the gates of tasks [i] and [j]. *)
Definition cell_ok (gates : list (list Z)) (M : list (list Z)) (i j : nat) : Prop :=
  mget M i j = Some (both_true (gate_at gates i) (gate_at gates j)).

(** The state while the matrix of [language] is filled: other languages
    are as in [dm0]; the cells among the first [a] tasks are done, and
    so are row and column [a] up to [b]. *)
Definition filling (gates : list (list Z)) (T : nat) (language : string)
    (dm0 : gmap string (list (list Z))) (a b : nat) (st : sd_state) : Prop :=
  (forall l, l <> language -> dimension_matrices st !! l = dm0 !! l) /\
  exists M, dimension_matrices st !! language = Some M /\
    shape_ok T M /\
    (forall i j, (i < a)%nat -> (j < a)%nat -> cell_ok gates M i j) /\
    (forall j, (j < b)%nat -> cell_ok gates M a j /\ cell_ok gates M j a).

Definition selected_ok (gates : list (list Z)) (a : nat) (st : sd_state) : Prop :=
  forall i, (i < a)%nat -> selected_dims st !! i = Some (gate_at gates i).

(** * Further vocabulary *)

(** The arrays of a yielded tuple are cut to their sentences: the
    [i]-th array has at most as many rows as the [i]-th sentence has
    tokens. *)
Definition cut_to_length {A} (arrays : list (ndarray A)) (lens : list nat) : Prop :=
  length arrays = Nat.min (length arrays) (length lens) /\
  forall i a n, arrays !! i = Some a -> lens !! i = Some n ->
                (array_len a <= n)%nat.

Definition prediction_cut (p : prediction) : Prop :=
  cut_to_length (pred_values p) (p_num_tokens p) /\
  cut_to_length (gold_values p) (p_num_tokens p) /\
  cut_to_length (mask p) (p_num_tokens p).

(** The array is a matrix. *)
Definition is_matrix {A} (a : ndarray A) : Prop :=
  match a with
  | Arr2 _ => True
  | Arr1 _ => False
  end.

(** A matrix within [n] rows and [n] columns. *)
Definition within_square {A} (n : nat) (a : ndarray A) : Prop :=
  match a with
  | Arr2 m =>
      (length m <= n)%nat /\ Forall (fun row => (length row <= n)%nat) m
  | Arr1 _ => False
  end.

(** The arrays of a yielded tuple are matrices cut to their sentences
    along both axes: the [i]-th has at most as many rows, and as many
    columns, as the [i]-th sentence has tokens. *)
Definition cut_to_square {A} (arrays : list (ndarray A)) (lens : list nat)
  : Prop :=
  forall i a n, arrays !! i = Some a -> lens !! i = Some n -> within_square n a.

Definition prediction_square (p : prediction) : Prop :=
  cut_to_square (pred_values p) (p_num_tokens p) /\
  cut_to_square (gold_values p) (p_num_tokens p) /\
  cut_to_square (mask p) (p_num_tokens p).

(** The file that reports how many dimensions the task at position
    [it.1] selects. *)
Definition selected_dims_file (out_dir language : string)
    (gates : list (list Z)) (it : nat * string) : file :=
  (path_join out_dir (language +:+ "." +:+ it.2 +:+ "." +:+ "selected_dims"),
   pretty (true_count (gate_at gates it.1)) +:+ newline).

(** The table of overlaps of every pair of gates. *)
Definition overlap_table (gates : list (list Z)) : list (list Z) :=
  map (fun gi => map (both_true gi) gates) gates.

(** The file that holds the table of one language. *)
Definition inter_dims_file (out_dir language : string) (tasks : list string)
    (gates : list (list Z)) : file :=
  (path_join out_dir (language +:+ "." +:+ "inter_dims"),
   join_with comma_tab (" " :: tasks) +:+ newline +:+
   inter_lines tasks (overlap_table gates)).

(** [results[lang][idx]], when both keys are present. *)
Definition depths_of (results : depth_results) (lang : string) (idx : nat)
  : option (ndarray Q * ndarray Q) :=
  results !! lang ≫= (.!! idx).

(** Every batch of a depth pipeline is complete: each of its sentence
    indices comes with a token count and a target, and the probe
    returns a prediction for it. *)
Definition complete_batches (net : network) : Prop :=
  forall lang b, b ∈ data_pipeline net lang "dep_depth" ->
    (length (conll_indicies b) <= length (batch_num_tokens b))%nat /\
    (length (conll_indicies b) <= length (batch_target b))%nat /\
    forall language g,
      (length (conll_indicies b) <=
       length (depth_predict_on_batch net (batch_num_tokens b)
                 (batch_embeddings b) language "dep_depth" g))%nat.

(** The pair [v] is what the last pass of [predict] over a member
    [lang] of a requested language yields for sentence [idx]: the pass
    that drops part [validation_steps - 1]. *)
Definition from_last_pass (net : network) (self : reporter_args)
    (languages : list string) (lang : string) (idx : nat)
    (v : ndarray Q * ndarray Q) : Prop :=
  exists language b p,
    language ∈ languages /\ lang ∈ split_on plus_sign language /\
    b ∈ data_pipeline net lang "dep_depth" /\
    predict_batch net self language lang "dep_depth"
                  (validation_steps self - 1) b = Ok p /\
    (idx, v) ∈ depth_sentences p.

(** The dictionary of [lang]; empty while the language is missing. *)
Definition lang_map (lang : string) (r : depth_results)
  : gmap nat (ndarray Q * ndarray Q) :=
  default ∅ (r !! lang).

(** One store into the dictionary of a language. *)
Definition put (m : gmap nat (ndarray Q * ndarray Q))
    (w : nat * (ndarray Q * ndarray Q)) : gmap nat (ndarray Q * ndarray Q) :=
  <[w.1 := w.2]> m.

(** Entries once stored are never removed. *)
Definition depths_kept (r r' : depth_results) : Prop :=
  forall lang idx, is_Some (depths_of r lang idx) ->
                   is_Some (depths_of r' lang idx).

(** Metrics once entered are never removed. *)
Definition uas_kept {uas_t : Type} (s s' : gmap string uas_t) : Prop :=
  forall k, is_Some (s !! k) -> is_Some (s' !! k).

(** The files of a list of members whose metrics are present and
    report. *)
Definition uas_files {uas_t : Type} (uas_result_str : uas_t -> result string)
    (out_dir : string) (self : UASReporter)
    (uas : gmap string uas_t) (langs : list string) (fs : list file) : Prop :=
  Forall2 (fun lang f =>
             exists m s, uas !! lang = Some m /\ uas_result_str m = Ok s /\
               f = (path_join out_dir
                      (uas_prefix self lang +:+
                       (if truthy_depths (depths self) then "uas" else "uuas")),
                    s +:+ newline))
          langs fs.

(** One step of [merge_dict]: what [d1] holds under [k] once the item
    [(k, v2)] of [d2] is merged. *)
Definition merged_value (v1 : option pyobj) (v2 : pyobj) : pyobj :=
  match v1, v2 with
  | Some (PyDict m1), PyDict m2 => PyDict (merge_dict m1 m2)
  | _, _ => v2
  end.

(** The keys of a dictionary, in order. *)
Definition dict_keys (d : list (string * pyobj)) : list string := d.*1.

(** A value as a Python dictionary can be: no key occurs twice, at any
    depth. *)
Fixpoint well_formed (o : pyobj) : Prop :=
  match o with
  | PyDict d =>
      NoDup (d.*1) /\
      (fix all (d : list (string * pyobj)) : Prop :=
         match d with
         | [] => True
         | (_, v) :: rest => well_formed v /\ all rest
         end) d
  | _ => True
  end.

(** The number of constructors of a value. *)
Fixpoint pysize (o : pyobj) : nat :=
  match o with
  | PyDict d =>
      S ((fix sum (d : list (string * pyobj)) : nat :=
            match d with
            | [] => 0%nat
            | (_, v) :: rest => (pysize v + sum rest)%nat
            end) d)
  | _ => 1%nat
  end.

(** The data map names the file [fn] for the task of the language,
    under the mode and the reader's model. *)
Definition available (self : TFRecordReader) (mode lang task fn : string) : Prop :=
  exists m1 m2 m3,
    dict_get mode (map_tfrecord self) = Some (PyDict m1) /\
    dict_get (model_name self) m1 = Some (PyDict m2) /\
    dict_get lang m2 = Some (PyDict m3) /\
    dict_get task m3 = Some (PyStr fn).

(** [data_set[lang][task]], when both keys are present. *)
Definition entry (data_set : data_set_t) (lang task : string) : option string :=
  data_set !! lang ≫= (.!! task).

(** The entries of a language are complete and right. *)
Definition language_read (self : TFRecordReader) (mode : string)
    (ts : list string) (ds : data_set_t) (lang : string) : Prop :=
  forall task, task ∈ ts ->
    exists p, tfr_fn_of self mode lang task = inr p /\
              entry ds lang task = Some p.

(** * Sample inputs

    Small concrete collaborators and sentences on which the definitions
    are evaluated. *)

Definition sample_batch : batch :=
  {| conll_indicies := [0%nat];
     batch_target := [Arr2 [[0; 1]; [1; 0]]%Q];
     batch_mask := [Arr2 [[0; 1]; [1; 0]]];
     batch_num_tokens := [2%nat];
     batch_embeddings := [] |}.

Definition sample_probes : probe_weights :=
  {| DistanceProbe := {[ "dep_distance" := [1; 1 # 2; 0; 2; -3]%Q ]};
     DepthProbe := {[ "dep_depth" := [1; 0; 0; 2; 1 # 4]%Q ]} |}.

(** A network whose pipeline holds one batch for every language and
    task and whose probes return the gold targets. *)
Definition sample_net : network :=
  {| probes := sample_probes;
     data_pipeline := fun _ _ => [sample_batch];
     distance_predict_on_batch := fun _ _ _ _ _ => [Arr2 [[0; 1]; [1; 0]]%Q];
     depth_predict_on_batch := fun _ _ _ _ _ => [Arr1 [0; 1]%Q] |}.

(** The same network over an empty dataset. *)
Definition empty_net : network :=
  {| probes := sample_probes;
     data_pipeline := fun _ _ => [];
     distance_predict_on_batch := distance_predict_on_batch sample_net;
     depth_predict_on_batch := depth_predict_on_batch sample_net |}.

Definition plain_reporter : reporter_args :=
  {| _probe_threshold := None; _drop_parts := None |}.

Definition gated_reporter : reporter_args :=
  {| _probe_threshold := Some (1 # 10)%Q; _drop_parts := None |}.

Definition sample_args : args_t :=
  {| probe_threshold := None; drop_parts := None;
     languages := ["en+de"]; correlation := "Spearman"; out_dir := "out" |}.

Definition sample_reporter : CorrelationReporter :=
  {| cr_base := plain_reporter; cr_dataset_name := "test";
     cr_languages := ["en"]; cr_tasks := ["dep_distance"; "dep_depth"];
     correlation_metric := ClassObj Spearman |}.

Definition empty_state : cr_state := {| correlation_d := ∅; heap := ∅ |}.

(** A constructor that accepts an observation and starts from it. *)
Definition sample_construct (c : metric_class) (obs : observation)
  : result accumulator :=
  Ok (update_state ∅ (obs.1.1) (obs.1.2)).

(** A [result()] with one undefined bucket. *)
Definition sample_result_method (st : cr_state) (f : pyval)
  : result (list (nat * option Q)) :=
  Ok [(3%nat, Some (1 # 2)%Q); (5%nat, None); (7%nat, Some 1%Q)].

Definition sample_str_float (x : option Q) : string :=
  match x with
  | None => "nan"
  | Some q => pretty (Qnum q) +:+ "/" +:+ pretty (Zpos (Qden q))
  end.

(** Three tokens on a path: distances 1, 1 and 2. *)
Definition path3 : list (list Q) := [[0; 1; 2]; [1; 0; 1]; [2; 1; 0]]%Q.

Definition no_punct3 : list bool := [false; false; false].

(** Depths whose minimum is attained by the first two tokens. *)
Definition tied_depths : list Q := [0; 0; 1]%Q.

(** Depths of the path rooted at its first token. *)
Definition path_depths : list Q := [0; 1; 2]%Q.

(** A decoder for score matrices whose arcs lead from deeper to
    shallower tokens only.  No choice of heads closes a cycle there, so
    the best arborescence takes the best candidate of every row; a row
    without candidate is given the virtual root. *)
Fixpoint best_from (i : nat) (best : option (nat * Q)) (row : list score)
  : option (nat * Q) :=
  match row with
  | [] => best
  | Snan :: rest => best_from (S i) best rest
  | Sc q :: rest =>
      match best with
      | Some (_, b) =>
          if Qle_bool q b then best_from (S i) best rest
          else best_from (S i) (Some (i, q)) rest
      | None => best_from (S i) (Some (i, q)) rest
      end
  end.

Definition best_head (row : list score) : result Z :=
  match best_from 0 None row with
  | Some (h, _) => Ok (Z.of_nat h)
  | None => Ok 0
  end.

Fixpoint best_heads (rows : list (list score)) : result (list Z) :=
  match rows with
  | [] => Ok []
  | row :: rest =>
      h <-! best_head row;
      hs <-! best_heads rest;
      Ok (h :: hs)
  end.

Definition greedy_heads (scores : list (list score)) : result (list Z) :=
  match scores with
  | [] => Raise LibraryError
  | _ :: rows => hs <-! best_heads rows; Ok (-1 :: hs)
  end.

(** A sentence whose first token is punctuation and has the least depth. *)
Definition punct_first : list bool := [true; false; false].

(** Depths that all three tokens share. *)
Definition level_depths : list Q := [0; 0; 0]%Q.

(** The state after both slots of the sample reporter were filled. *)
Definition sample_state : cr_state :=
  set_slot "en" "dep_depth" (ClassObj Spearman)
    (set_slot "en" "dep_distance" (ClassObj Spearman) empty_state).

(** Two tokens at distance exactly zero. *)
Definition zero2 : list (list Q) := [[0; 0]; [0; 0]]%Q.

(** Three tokens, the first at distance zero from both others. *)
Definition zero3 : list (list Q) := [[0; 0; 0]; [0; 0; 1]; [0; 1; 0]]%Q.

(** Two probes whose gates at threshold 1/2 are [1,1,0,0] and [1,0,0,1]. *)
Definition overlap_probes : probe_weights :=
  {| DistanceProbe := {[ "a_distance" := [1; -1; 0; 1 # 4]%Q ]};
     DepthProbe := {[ "b_depth" := [2; 0; 1 # 2; -3]%Q ]} |}.

Definition overlap_reporter : reporter_args :=
  {| _probe_threshold := Some (1 # 2)%Q; _drop_parts := None |}.

Definition empty_sd_state : sd_state :=
  {| dimension_matrices := ∅; selected_dims := ∅ |}.

(** * Further sample inputs *)

(** A reporter that gates and drops the selected dimensions in two
    parts. *)
Definition dropping_reporter : reporter_args :=
  {| _probe_threshold := Some (1 # 10)%Q; _drop_parts := Some 2 |}.

(** A network whose depth probe answers with the gate it was given. *)
Definition gate_echo_net : network :=
  {| probes := sample_probes;
     data_pipeline := fun _ _ => [sample_batch];
     distance_predict_on_batch := distance_predict_on_batch sample_net;
     depth_predict_on_batch :=
       fun _ _ _ _ g => [Arr1 (map inject_Z (default [] g))] |}.

(** A metric that counts its updates. *)
Definition counting_update (m : nat) (gold predicted : arcs) : result nat :=
  Ok (S m).

Definition counting_result_str (m : nat) : result string := Ok (pretty m).

(** An undirected reporter over English, whose sentences have no
    punctuation. *)
Definition sample_uas_reporter : UASReporter :=
  {| uas_base := plain_reporter;
     uas_dataset_name := "test";
     punctuation_masks := {[ "en" := fun _ => Ok [false; false] ]};
     uas_languages := ["en"];
     depths := None |}.

(** The map of a data directory with one model, language and task. *)
Definition sample_json_map : list (string * pyobj) :=
  [("train", PyDict [("bert", PyDict [("en",
      PyDict [("dep_distance", PyStr "train.tfrecord")])])]);
   ("dev", PyDict [("bert", PyDict [("en",
      PyDict [("dep_distance", PyStr "dev.tfrecord")])])]);
   ("test", PyDict [("bert", PyDict [("en",
      PyDict [("dep_distance", PyStr "test.tfrecord")])])])].

Definition sample_reader : TFRecordReader :=
  {| tfr_tasks := ["dep_distance"];
     tfr_models := ["bert"];
     tfr_languages := ["en"];
     map_tfrecord := reader_map sample_json_map;
     data_dir := "data";
     model_name := "bert" |}.

(** * Properties *)

(** ** The error monad and loops *)

Lemma rbind_Ok {A B} (m : result A) (f : A -> result B) (b : B) :
  rbind m f = Ok b -> exists a, m = Ok a /\ f a = Ok b.
Proof. destruct m as [a|e]; simpl; [eauto | discriminate]. Qed.

Lemma for_each_app {S A} (xs ys : list A) (body : A -> action S unit) (s : S) :
  for_each (xs ++ ys) body s =
  match for_each xs body s with
  | (Ok _, s') => for_each ys body s'
  | (Raise e, s') => (Raise e, s')
  end.
Proof.
  revert s; induction xs as [|x xs IH]; intros s; simpl; [done|].
  unfold bind. destruct (body x s) as [[[]|e] s1]; [apply IH | done].
Qed.

(** A property of the state that every iteration keeps, whatever its
    outcome, is kept by the loop. *)
Lemma for_each_preserves {S A} (P : S -> Prop) (xs : list A)
    (body : A -> action S unit) :
  (forall x s, x ∈ xs -> P s -> P (body x s).2) ->
  forall s, P s -> P (for_each xs body s).2.
Proof.
  induction xs as [|x xs IH]; intros Hbody s Hs; simpl; [done|].
  unfold bind.
  pose proof (Hbody x s ltac:(left) Hs) as H1.
  destruct (body x s) as [[[]|e] s1]; simpl in *; [|done].
  apply IH; [|done]. intros y t Hy. apply Hbody. by right.
Qed.

(** With a preorder on states that every iteration respects, each
    element of a loop that ran to its end had its iteration succeed
    between two states bracketed by the loop's. *)
Lemma for_each_ok_elem {S A} (R : S -> S -> Prop) `{!PreOrder R}
    (xs : list A) (body : A -> action S unit) :
  (forall x s, R s (body x s).2) ->
  forall s s', for_each xs body s = (Ok tt, s') ->
  R s s' /\
  forall x, x ∈ xs ->
    exists s1 s2, R s s1 /\ body x s1 = (Ok tt, s2) /\ R s2 s'.
Proof.
  intros Hmono. induction xs as [|x xs IH]; intros s s' Hrun; simpl in Hrun.
  - inversion Hrun; subst. split; [reflexivity|]. intros x Hx. inversion Hx.
  - unfold bind in Hrun. pose proof (Hmono x s) as Hstep.
    destruct (body x s) as [[[]|e] s1] eqn:Hb; [|discriminate].
    destruct (IH _ _ Hrun) as [Hr Hel]. simpl in Hstep. split.
    + by etrans.
    + intros y Hy. apply elem_of_cons in Hy as [->|Hy].
      * exists s, s1. split; [reflexivity|]. done.
      * destruct (Hel y Hy) as (t1 & t2 & H1 & H2 & H3).
        exists t1, t2. split; [by etrans|done].
Qed.

(** ** [CorrelationReporter.__init__] *)

(** C7: construction fails exactly when the lower-cased correlation kind
    is none of spearman, pearson, kendall; otherwise it succeeds and the
    reporter holds the metric of that name.  Construction takes neither
    the network nor the dataset, so nothing is computed or iterated
    before the failure. *)
Theorem CorrelationReporter_init_kind
    (args : args_t) (tasks : list string) (dataset_name : string) :
  match CorrelationReporter_init args tasks dataset_name with
  | Ok self =>
      (lower (correlation args) = "spearman" /\
       correlation_metric self = ClassObj Spearman) \/
      (lower (correlation args) = "pearson" /\
       correlation_metric self = ClassObj Pearson) \/
      (lower (correlation args) = "kendall" /\
       correlation_metric self = ClassObj Kendall)
  | Raise _ =>
      lower (correlation args) <> "spearman" /\
      lower (correlation args) <> "pearson" /\
      lower (correlation args) <> "kendall"
  end.
Proof.
  unfold CorrelationReporter_init.
  destruct (String.eqb_spec (lower (correlation args)) "spearman") as [E1|N1].
  { left. done. }
  destruct (String.eqb_spec (lower (correlation args)) "pearson") as [E2|N2].
  { right; left. done. }
  destruct (String.eqb_spec (lower (correlation args)) "kendall") as [E3|N3].
  { right; right. done. }
  done.
Qed.

(** The kind is matched whatever its case: the sample arguments name
    it with a capital and the reporter holds the Spearman metric. *)
Example init_accepts_any_case :
  lower "SpEaRmAn" = "spearman" /\ lower "PEARSON" = "pearson" /\
  lower "Kendall" = "kendall" /\
  match CorrelationReporter_init sample_args ["dep_distance"] "test" with
  | Ok self => correlation_metric self = ClassObj Spearman
  | Raise _ => False
  end.
Proof. split_and!; reflexivity. Qed.

(** ** [CorrelationReporter.write] *)

Lemma Qsum_replace_nan (vals : list (option Q)) :
  (Qsum (replace_nan vals) == Qsum (not_nan vals))%Q.
Proof.
  induction vals as [|[q|] vals IH]; simpl.
  - reflexivity.
  - change (q + Qsum (replace_nan vals) == q + Qsum (not_nan vals))%Q.
    by rewrite IH.
  - change (0 + Qsum (replace_nan vals) == Qsum (not_nan vals))%Q.
    rewrite IH. apply Qplus_0_l.
Qed.

Lemma count_not_nan_length (vals : list (option Q)) :
  count_not_nan vals = length (not_nan vals).
Proof.
  unfold count_not_nan, not_nan.
  induction vals as [|[q|] vals IH]; [done| |].
  - rewrite filter_cons_True by eauto. simpl. by f_equal.
  - rewrite filter_cons_False by (intros [? [=]]). done.
Qed.

(** The mean that [np.nanmean] returns is the mean of the entries that
    are not nan. *)
Lemma np_nanmean_mean (vals : list (option Q)) :
  float_eq (np_nanmean vals) (mean (not_nan vals)).
Proof.
  unfold np_nanmean. rewrite count_not_nan_length.
  pose proof (Qsum_replace_nan vals) as Hsum.
  destruct (not_nan vals) as [|q l] eqn:E; simpl; [done|].
  simpl in Hsum. unfold Qsum at 1. by rewrite Hsum.
Qed.

Section WriteProperties.

Variable result_method : cr_state -> pyval -> result (list (nat * option Q)).
Variable str_float : option Q -> string.

Lemma emit_prefix (f : file) (log : list file) :
  log `prefix_of` (emit f log).2.
Proof. simpl. by apply prefix_app_r. Qed.

Lemma write_one_prefix args self st lang task (log : list file) :
  log `prefix_of` (write_one result_method str_float args self st lang task log).2.
Proof.
  unfold write_one. destruct (slot_result _ _ _ _) as [b|e]; simpl.
  - by do 2 apply prefix_app_r.
  - by apply prefix_app_r.
Qed.

Lemma write_one_ok args self st lang task (log log' : list file) :
  write_one result_method str_float args self st lang task log = (Ok tt, log') ->
  exists buckets,
    slot_result result_method st lang task = Ok buckets /\
    (mean_path args self lang task,
     str_float (np_nanmean (map snd buckets)) +:+ newline) ∈ log'.
Proof.
  unfold write_one. destruct (slot_result _ _ _ _) as [b|e] eqn:E; simpl.
  - intros [= <-]. exists b. split; [done|].
    apply elem_of_app. right. by left.
  - discriminate.
Qed.

Lemma for_each_prefix {A} (xs : list A) (body : A -> action (list file) unit) :
  (forall x log, log `prefix_of` (body x log).2) ->
  forall log, log `prefix_of` (for_each xs body log).2.
Proof.
  intros Hb log. apply (for_each_preserves (fun l => log `prefix_of` l)); [|done].
  intros x s _ Hs. etrans; [exact Hs | apply Hb].
Qed.

(** C8: when [write] runs to its end, then for every requested language,
    each of its members and every task, the log of written files holds
    the mean file of that pair, whose content is the printed
    [np.nanmean] of the bucket values; and that mean is the arithmetic
    mean of the bucket values that are not nan. *)
Theorem write_mean_excludes_nan (args : args_t) (self : CorrelationReporter)
    (st : cr_state) (log log' : list file) (language lang task : string) :
  CorrelationReporter_write result_method str_float args self st log
    = (Ok tt, log') ->
  language ∈ cr_languages self ->
  lang ∈ split_on plus_sign language ->
  task ∈ cr_tasks self ->
  exists buckets,
    slot_result result_method st lang task = Ok buckets /\
    (mean_path args self lang task,
     str_float (np_nanmean (map snd buckets)) +:+ newline) ∈ log' /\
    float_eq (np_nanmean (map snd buckets)) (mean (not_nan (map snd buckets))).
Proof.
  intros Hrun Hlanguage Hlang Htask.
  unfold CorrelationReporter_write in Hrun.
  set (tasks_loop := fun lang0 : string => for_each (cr_tasks self) (fun task0 =>
         write_one result_method str_float args self st lang0 task0)) in *.
  set (langs_loop := fun language0 : string =>
         for_each (split_on plus_sign language0) tasks_loop) in *.
  assert (Htl : forall l lg, lg `prefix_of` (tasks_loop l lg).2).
  { intros l lg. apply for_each_prefix. intros; apply write_one_prefix. }
  assert (Hll : forall l lg, lg `prefix_of` (langs_loop l lg).2).
  { intros l lg. apply for_each_prefix. intros; apply Htl. }
  destruct (for_each_ok_elem prefix _ _ Hll _ _ Hrun) as [_ H1].
  destruct (H1 _ Hlanguage) as (a1 & a2 & _ & Hrun1 & Hout1).
  destruct (for_each_ok_elem prefix _ _ Htl _ _ Hrun1) as [_ H2].
  destruct (H2 _ Hlang) as (b1 & b2 & _ & Hrun2 & Hout2).
  destruct (for_each_ok_elem prefix _ _
              (fun t lg => write_one_prefix args self st lang t lg) _ _ Hrun2)
    as [_ H3].
  destruct (H3 _ Htask) as (c1 & c2 & _ & Hrun3 & Hout3).
  destruct (write_one_ok _ _ _ _ _ _ _ Hrun3) as (buckets & Hb & Hin).
  exists buckets. split; [done|]. split; [|apply np_nanmean_mean].
  assert (Hp : c2 `prefix_of` log') by (etrans; [exact Hout3|]; by etrans).
  destruct Hp as [rest ->]. apply elem_of_app. by left.
Qed.

End WriteProperties.

Lemma write_mean_excludes_nan_witness :
  exists buckets,
    slot_result sample_result_method sample_state "en" "dep_depth" = Ok buckets /\
    (mean_path sample_args sample_reporter "en" "dep_depth",
     sample_str_float (np_nanmean (map snd buckets)) +:+ newline)
      ∈ (CorrelationReporter_write sample_result_method sample_str_float
           sample_args sample_reporter sample_state []).2 /\
    float_eq (np_nanmean (map snd buckets)) (mean (not_nan (map snd buckets))).
Proof.
  apply (write_mean_excludes_nan sample_result_method sample_str_float
           sample_args sample_reporter sample_state [] _ "en" "en" "dep_depth").
  - vm_compute. reflexivity.
  - vm_compute. apply list_elem_of_here.
  - vm_compute. apply list_elem_of_here.
  - vm_compute. apply list_elem_of_further, list_elem_of_here.
Defined.

(** The buckets 1/2, nan and 1 have the mean 3/4: the nan bucket
    counts neither in the sum nor in the number of buckets. *)
Example nanmean_skips_nan_bucket :
  float_eq (np_nanmean [Some (1 # 2)%Q; None; Some 1%Q]) (Some (3 # 4)%Q) /\
  float_eq (np_nanmean [None; None]) None.
Proof. split; vm_compute; reflexivity. Qed.

(** ** [Reporter.predict] on a task of neither type *)

Lemma predict_batch_unrecognized (net : network) (self : reporter_args)
    (language lang task : string) (part : Z) (b : batch) :
  contains "distance" task = false ->
  contains "depth" task = false ->
  exists e, predict_batch net self language lang task part b = Raise e /\
            (truthyQ (_probe_threshold self) = false -> e = ValueError_task).
Proof.
  intros Hd Hp. unfold predict_batch.
  destruct (truthyQ (_probe_threshold self)) eqn:Hg.
  - unfold get_embedding_gate, diagonal_probe_of. rewrite Hd, Hp. simpl.
    eexists. split; [done|]. discriminate.
  - simpl. rewrite Hd, Hp. eauto.
Qed.

Lemma run_generator_all_raise {A B} (step : A -> result B) (xs : list A) :
  (forall x, exists e, step x = Raise e) ->
  (run_generator step xs).1 = [].
Proof.
  intros H. destruct xs as [|x xs]; simpl; [done|].
  destruct (H x) as [e ->]. done.
Qed.

(** C6, as the code has it: for a task name containing neither
    [distance] nor [depth], [predict] never yields a tuple; and when
    gating is off and the loops have at least one iteration, the
    generator ends with the unrecognized-task error, raised in the
    first iteration. *)
Theorem predict_unrecognized_task (net : network) (self : reporter_args)
    (language lang task : string) :
  contains "distance" task = false ->
  contains "depth" task = false ->
  (predict net self language lang task).1 = [] /\
  (truthyQ (_probe_threshold self) = false ->
   predict_iterations net self lang task <> [] ->
   (predict net self language lang task).2 = Failed ValueError_task).
Proof.
  intros Hd Hp. split.
  - apply run_generator_all_raise. intros it.
    destruct (predict_batch_unrecognized net self language lang task
                (fst it) (snd it) Hd Hp) as (e & He & _). eauto.
  - intros Hg Hne. unfold predict.
    destruct (predict_iterations net self lang task) as [|it its]; [done|].
    simpl.
    destruct (predict_batch_unrecognized net self language lang task
                (fst it) (snd it) Hd Hp) as (e & He & Hv).
    rewrite He. simpl. by rewrite (Hv Hg).
Qed.

Lemma predict_unrecognized_task_witness :
  (predict sample_net plain_reporter "en" "en" "pos").1 = [] /\
  (truthyQ (_probe_threshold plain_reporter) = false ->
   predict_iterations sample_net plain_reporter "en" "pos" <> [] ->
   (predict sample_net plain_reporter "en" "en" "pos").2 = Failed ValueError_task).
Proof.
  apply (predict_unrecognized_task sample_net plain_reporter "en" "en" "pos");
    reflexivity.
Defined.

(** C6 as stated fails: over an empty dataset the generator of an
    unrecognized task ends normally, and with gating on the error of the
    first iteration is the unbound local of [get_embedding_gate], not
    the unrecognized-task error. *)
Lemma predict_unrecognized_counterexample :
  contains "distance" "pos" = false /\
  contains "depth" "pos" = false /\
  predict empty_net plain_reporter "en" "en" "pos" = ([], Finished) /\
  predict sample_net gated_reporter "en" "en" "pos"
    = ([], Failed UnboundLocalError).
Proof. repeat split; reflexivity. Qed.

(** ** [CorrelationReporter.compute] *)

Section ComputeProperties.

Variable construct : metric_class -> observation -> result accumulator.

Lemma call_metric_slots (f : pyval) (obs : observation) (st : cr_state) :
  correlation_d (call_metric construct f obs st).2 = correlation_d st.
Proof.
  unfold call_metric. destruct f as [c|a].
  - by destruct (construct c obs).
  - by destruct (heap st !! a).
Qed.

Lemma get_slot_set_slot (lang task lang' task' : string) (v : pyval)
    (st : cr_state) :
  get_slot lang' task' (set_slot lang task v st) =
  if decide (lang = lang' /\ task = task') then Some v
  else get_slot lang' task' st.
Proof.
  unfold get_slot, set_slot. simpl.
  destruct (decide (lang = lang')) as [->|Hl].
  - rewrite lookup_insert_eq. simpl.
    destruct (decide (task = task')) as [->|Ht].
    + rewrite lookup_insert_eq. by rewrite decide_True.
    + rewrite lookup_insert_ne by done. rewrite decide_False; [done|].
      intros [_ ?]; done.
  - rewrite lookup_insert_ne by done. rewrite decide_False; [done|].
    intros [? _]; done.
Qed.

(** Every slot [compute] fills holds the one value the constructor
    put in [correlation_metric]: no slot gets an object of its own. *)
Lemma compute_slots_shared (net : network) (self : CorrelationReporter)
    (st : cr_state) :
  (forall lang task v, get_slot lang task st = Some v ->
                       v = correlation_metric self) ->
  forall lang task v,
    get_slot lang task
      (CorrelationReporter_compute construct net self st).2 = Some v ->
    v = correlation_metric self.
Proof.
  set (P := fun s : cr_state =>
         forall lang task v, get_slot lang task s = Some v ->
                             v = correlation_metric self).
  intros H0. change (P (CorrelationReporter_compute construct net self st).2).
  unfold CorrelationReporter_compute.
  apply for_each_preserves; [|exact H0]. intros language s1 _ H1.
  apply for_each_preserves; [|exact H1]. intros lang s2 _ H2.
  apply for_each_preserves; [|exact H2]. intros task s3 _ H3.
  unfold bind at 1. simpl.
  assert (Hset : P (set_slot lang task (correlation_metric self) s3)).
  { intros l t v. rewrite get_slot_set_slot. case_decide; [congruence|apply H3]. }
  revert Hset. generalize (set_slot lang task (correlation_metric self) s3).
  intros s4 H4. unfold for_stream, bind at 1.
  assert (H5 : P (for_each (predict net (cr_base self) language lang task).1
                    (fun p => f <- (fun st0 => (of_option KeyError (get_slot lang task st0), st0)) ;;
                              call_metric construct f (observation_of p)) s4).2).
  { apply for_each_preserves; [|exact H4]. intros p s5 _ H5.
    unfold bind. destruct (get_slot lang task s5) as [f|]; simpl; [|done].
    intros l t v Hv. apply (H5 l t v). revert Hv. unfold get_slot.
    by rewrite call_metric_slots. }
  destruct (for_each _ _ s4) as [[[]|e] s6]; simpl in *; [|done].
  by destruct (predict net (cr_base self) language lang task).2.
Qed.

End ComputeProperties.

(** C1, the code at two pairs: with languages [en] and tasks
    [dep_distance], [dep_depth], [compute] runs to its end and both
    slots hold the same value, the class [Spearman] itself; no
    accumulator instance was created for either pair, and the instances
    built by the calls are not the ones stored. *)
Theorem compute_stores_the_class_in_every_slot :
  (CorrelationReporter_compute sample_construct sample_net sample_reporter
     empty_state).1 = Ok tt /\
  get_slot "en" "dep_distance"
    (CorrelationReporter_compute sample_construct sample_net sample_reporter
       empty_state).2 = Some (ClassObj Spearman) /\
  get_slot "en" "dep_depth"
    (CorrelationReporter_compute sample_construct sample_net sample_reporter
       empty_state).2 = Some (ClassObj Spearman).
Proof. vm_compute. repeat split; reflexivity. Qed.

(** ** [Reporter.get_embedding_gate] *)

Lemma threshold_gate_zero_one (thr : Q) (w : list Q) :
  Forall zero_one (threshold_gate thr w).
Proof.
  unfold threshold_gate. apply List.Forall_forall. intros x Hx.
  apply in_map_iff in Hx as (q & <- & _).
  unfold zero_one. destruct (Qle_bool _ _); auto.
Qed.

Lemma np_where_from_lookup (g : list Z) (i j : nat) :
  j ∈ np_where_from i g <->
  exists r x, j = (i + r)%nat /\ g !! r = Some x /\ x <> 0.
Proof.
  revert i. induction g as [|y g IH]; intros i; simpl.
  - split; [intros H; inversion H | intros (r & x & _ & H & _); done].
  - destruct (Z.eqb_spec y 0) as [->|Hy].
    + rewrite IH. split.
      * intros (r & x & -> & Hr & Hx). exists (S r), x. split; [lia|done].
      * intros (r & x & -> & Hr & Hx). destruct r as [|r]; simpl in Hr.
        -- congruence.
        -- exists r, x. split; [lia|done].
    + rewrite elem_of_cons, IH. split.
      * intros [->|(r & x & -> & Hr & Hx)].
        -- exists 0%nat, y. split; [lia|done].
        -- exists (S r), x. split; [lia|done].
      * intros (r & x & -> & Hr & Hx). destruct r as [|r]; simpl in Hr.
        -- left; lia.
        -- right. exists r, x. split; [lia|done].
Qed.

Lemma np_where_from_NoDup (g : list Z) (i : nat) : NoDup (np_where_from i g).
Proof.
  revert i. induction g as [|y g IH]; intros i; simpl; [constructor|].
  destruct (y =? 0); [apply IH|]. constructor; [|apply IH].
  rewrite np_where_from_lookup. intros (r & x & E & _). lia.
Qed.

Lemma np_sum_zero_one (g : list Z) (i : nat) :
  Forall zero_one g -> np_sum g = Z.of_nat (length (np_where_from i g)).
Proof.
  intros H. revert i. induction H as [|y g [->| ->] _ IH]; intros i; simpl.
  - done.
  - by rewrite (IH (S i)).
  - rewrite (IH (S i)). lia.
Qed.

Lemma zero_dims_length (dims : list nat) (g : list Z) :
  length (zero_dims dims g) = length g.
Proof.
  unfold zero_dims. revert g. induction dims as [|d dims IH]; intros g; simpl.
  - done.
  - by rewrite IH, length_insert.
Qed.

Lemma zero_dims_lookup (dims : list nat) (g : list Z) (i : nat) :
  zero_dims dims g !! i =
  if decide (i ∈ dims) then (fun _ => 0) <$> g !! i else g !! i.
Proof.
  unfold zero_dims. revert g. induction dims as [|d dims IH]; intros g.
  - case_decide as H; [inversion H|done].
  - cbn [fold_left]. rewrite IH.
    destruct (decide (i = d)) as [->|Hne].
    + rewrite (decide_True (P := d ∈ d :: dims)) by (by left).
      destruct (decide (d < length g)%nat) as [Hlt|Hge].
      * rewrite list_lookup_insert_eq by done.
        destruct (lookup_lt_is_Some_2 g d Hlt) as [x ->].
        by case_decide.
      * rewrite list_insert_ge by lia.
        rewrite (lookup_ge_None_2 g d) by lia. by case_decide.
    + rewrite list_lookup_insert_ne by done.
      destruct (decide (i ∈ dims)) as [Hin|Hnin].
      * rewrite decide_True; [done|by right].
      * rewrite decide_False; [done|].
        intros H. apply elem_of_cons in H as [?|?]; done.
Qed.

Lemma zero_dims_zero_one (dims : list nat) (g : list Z) :
  Forall zero_one g -> Forall zero_one (zero_dims dims g).
Proof.
  intros H. apply Forall_lookup. intros i x. rewrite zero_dims_lookup.
  rewrite Forall_lookup in H. case_decide.
  - destruct (g !! i); simpl; [|done]. intros [= <-]. by left.
  - apply H.
Qed.

Lemma py_slice_within {A} (l : list A) (a b : Z) :
  0 <= a <= b -> b <= Z.of_nat (length l) ->
  py_slice l a b = firstn (Z.to_nat b - Z.to_nat a) (skipn (Z.to_nat a) l).
Proof.
  intros Hab Hb. unfold py_slice, clamp_index.
  destruct (Z.ltb_spec a 0); [lia|]. destruct (Z.ltb_spec b 0); [lia|].
  rewrite !Z.min_l by lia. f_equal. lia.
Qed.

Lemma part_bound_floor (T p k : Z) :
  0 <= T -> 0 <= p -> 0 < k -> part_bound T p k = T * p / k.
Proof.
  intros. unfold part_bound. apply Z.quot_div_nonneg; lia.
Qed.

Lemma floor_bounds (T p k : Z) :
  0 <= T -> 0 <= p < k ->
  0 <= T * p / k <= T * (p + 1) / k /\ T * (p + 1) / k <= T.
Proof.
  intros HT Hp. repeat split.
  - apply Z.div_pos; nia.
  - apply Z.div_le_mono; nia.
  - apply Z.div_le_upper_bound; nia.
Qed.

Lemma drop_part_spec_slice (g : list Z) (k p : Z) :
  Forall zero_one g -> 0 <= p < k ->
  drop_part k p g = zero_dims (spec_slice g k p) g.
Proof.
  intros Hg Hp. unfold drop_part, spec_slice.
  rewrite (np_sum_zero_one g 0 Hg). fold (np_where g).
  set (T := Z.of_nat (length (np_where g))).
  assert (0 <= T) by lia.
  rewrite !part_bound_floor by lia.
  destruct (floor_bounds T p k) as [[? ?] ?]; [lia..|].
  by rewrite py_slice_within by (fold T; lia).
Qed.

Lemma elem_of_slice {A} (l : list A) (s e : nat) (x : A) :
  x ∈ firstn (e - s) (skipn s l) <->
  exists r, (s <= r < e)%nat /\ l !! r = Some x.
Proof.
  rewrite list_elem_of_lookup. split.
  - intros (j & Hj). apply lookup_take_Some in Hj as [Hj Hlt].
    rewrite lookup_drop in Hj. exists (s + j)%nat. split; [lia|done].
  - intros (r & Hr & Hl). exists (r - s)%nat.
    apply lookup_take_Some. split; [|lia].
    rewrite lookup_drop. by replace (s + (r - s))%nat with r by lia.
Qed.

(** The bounds floor(T*p/k), p = 0..k, cut 0..T-1 into k consecutive
    ranges: every position lies in exactly one. *)
Lemma floor_parts_cover (T k r : Z) :
  0 < k -> 0 <= r < T ->
  exists p, 0 <= p < k /\ T * p / k <= r < T * (p + 1) / k.
Proof.
  intros Hk Hr. exists (((r + 1) * k - 1) / T).
  assert (HT : 0 < T) by lia.
  pose proof (Z.mul_div_le ((r + 1) * k - 1) T HT) as Hlo.
  pose proof (Z.mul_succ_div_gt ((r + 1) * k - 1) T HT) as Hhi.
  set (p := ((r + 1) * k - 1) / T) in *.
  assert (0 <= p) by (apply Z.div_pos; nia).
  assert (p < k) by (apply Z.div_lt_upper_bound; nia).
  split; [lia|]. split.
  - cut (T * p / k < r + 1); [lia|]. apply Z.div_lt_upper_bound; nia.
  - cut (r + 1 <= T * (p + 1) / k); [lia|]. apply Z.div_le_lower_bound; nia.
Qed.

Lemma floor_parts_disjoint (T k r p q : Z) :
  0 < k -> 0 <= T ->
  T * p / k <= r < T * (p + 1) / k ->
  T * q / k <= r < T * (q + 1) / k ->
  p = q.
Proof.
  intros Hk HT Hp Hq.
  destruct (Z.lt_trichotomy p q) as [Hlt|[->|Hgt]]; [|done|].
  - assert (T * (p + 1) / k <= T * q / k) by (apply Z.div_le_mono; nia). lia.
  - assert (T * (q + 1) / k <= T * p / k) by (apply Z.div_le_mono; nia). lia.
Qed.

Lemma spec_slice_position (g : list Z) (k p : Z) (i : nat) :
  0 < k -> 0 <= p < k ->
  i ∈ spec_slice g k p <->
  exists r : nat,
    np_where g !! r = Some i /\
    Z.of_nat (length (np_where g)) * p / k <= Z.of_nat r
      < Z.of_nat (length (np_where g)) * (p + 1) / k.
Proof.
  intros Hk Hp. unfold spec_slice. rewrite elem_of_slice.
  set (T := Z.of_nat (length (np_where g))).
  destruct (floor_bounds T p k) as [[? ?] ?]; [lia..|].
  split; intros (r & Ha & Hb); exists r; (split; [done || lia | done || lia]).
Qed.

(** C4: with [drop_parts = k > 0], pass [p] of [get_embedding_gate]
    returns a 0/1 vector as long as the probe in which exactly the
    slice floor(T*p/k) .. floor(T*(p+1)/k) of the true indices is
    zeroed and every other entry is kept; and each true index is in the
    slice of exactly one pass p = 0..k-1. *)
Theorem get_embedding_gate_drop_parts (net : probe_weights)
    (self : reporter_args) (task : string) (w : list Q) (thr : Q) (k : Z) :
  diagonal_probe_of net task = Ok w ->
  _probe_threshold self = Some thr ->
  _drop_parts self = Some k ->
  0 < k ->
  (forall p, 0 <= p < k ->
     exists gp,
       get_embedding_gate net self task p = Ok gp /\
       length gp = length w /\
       Forall zero_one gp /\
       (forall i, zeroed (threshold_gate thr w) gp i <->
                  i ∈ spec_slice (threshold_gate thr w) k p) /\
       (forall i, i ∉ spec_slice (threshold_gate thr w) k p ->
                  gp !! i = threshold_gate thr w !! i)) /\
  (forall i, threshold_gate thr w !! i = Some 1 ->
     exists p, 0 <= p < k /\
               i ∈ spec_slice (threshold_gate thr w) k p /\
               forall q, 0 <= q < k ->
                         i ∈ spec_slice (threshold_gate thr w) k q -> q = p).
Proof.
  intros Hw Hthr Hdp Hk.
  set (g := threshold_gate thr w).
  assert (Hg : Forall zero_one g) by apply threshold_gate_zero_one.
  assert (Hwhere : forall i, i ∈ np_where g <-> g !! i = Some 1).
  { intros i. unfold np_where. rewrite np_where_from_lookup. split.
    - intros (r & x & -> & Hr & Hx). simpl.
      rewrite Forall_lookup in Hg. destruct (Hg _ _ Hr) as [->| ->]; done.
    - intros Hi. exists i, 1. done. }
  split.
  - intros p Hp. exists (zero_dims (spec_slice g k p) g).
    assert (Hsub : forall i, i ∈ spec_slice g k p -> g !! i = Some 1).
    { intros i Hi. apply Hwhere. unfold spec_slice in Hi.
      apply elem_of_slice in Hi as (r & _ & Hr).
      by apply list_elem_of_lookup_2 in Hr. }
    split; [|split; [|split; [|split]]].
    + unfold get_embedding_gate. rewrite Hw, Hthr, Hdp. simpl.
      destruct (Z.eqb_spec k 0); [lia|]. simpl. f_equal.
      by apply drop_part_spec_slice.
    + rewrite zero_dims_length. unfold g, threshold_gate. apply length_map.
    + by apply zero_dims_zero_one.
    + intros i. unfold zeroed. rewrite zero_dims_lookup. split.
      * intros [H1 H0]. case_decide; [done|congruence].
      * intros Hi. rewrite decide_True by done.
        rewrite (Hsub i Hi). done.
    + intros i Hi. rewrite zero_dims_lookup. by rewrite decide_False.
  - intros i Hi. apply Hwhere in Hi.
    apply list_elem_of_lookup in Hi as (r & Hr).
    pose proof (lookup_lt_Some _ _ _ Hr) as Hlt.
    destruct (floor_parts_cover (Z.of_nat (length (np_where g))) k (Z.of_nat r))
      as (p & Hp & Hpr); [lia..|].
    exists p. split; [done|]. split.
    + apply spec_slice_position; [done..|]. eauto.
    + intros q Hq Hiq. apply spec_slice_position in Hiq as (r' & Hr' & Hqr); [|done..].
      assert (r' = r) as ->.
      { eapply NoDup_lookup; [apply np_where_from_NoDup|exact Hr'|exact Hr]. }
      eapply floor_parts_disjoint; [exact Hk| |exact Hqr|exact Hpr]. lia.
Qed.

Lemma get_embedding_gate_drop_parts_witness :
  (forall p, 0 <= p < 2 ->
     exists gp,
       get_embedding_gate sample_probes
         {| _probe_threshold := Some (1 # 10)%Q; _drop_parts := Some 2 |}
         "dep_distance" p = Ok gp /\
       length gp = length [1; 1 # 2; 0; 2; -3]%Q /\
       Forall zero_one gp /\
       (forall i, zeroed (threshold_gate (1 # 10) [1; 1 # 2; 0; 2; -3]%Q) gp i <->
                  i ∈ spec_slice (threshold_gate (1 # 10) [1; 1 # 2; 0; 2; -3]%Q) 2 p) /\
       (forall i, i ∉ spec_slice (threshold_gate (1 # 10) [1; 1 # 2; 0; 2; -3]%Q) 2 p ->
                  gp !! i = threshold_gate (1 # 10) [1; 1 # 2; 0; 2; -3]%Q !! i)) /\
  (forall i, threshold_gate (1 # 10) [1; 1 # 2; 0; 2; -3]%Q !! i = Some 1 ->
     exists p, 0 <= p < 2 /\
               i ∈ spec_slice (threshold_gate (1 # 10) [1; 1 # 2; 0; 2; -3]%Q) 2 p /\
               forall q, 0 <= q < 2 ->
                         i ∈ spec_slice (threshold_gate (1 # 10) [1; 1 # 2; 0; 2; -3]%Q) 2 q ->
                         q = p).
Proof.
  apply (get_embedding_gate_drop_parts sample_probes
           {| _probe_threshold := Some (1 # 10)%Q; _drop_parts := Some 2 |}
           "dep_distance" [1; 1 # 2; 0; 2; -3]%Q (1 # 10)%Q 2);
    [reflexivity | reflexivity | reflexivity | lia].
Defined.

(** ** Loops that write one cell per iteration *)

Lemma fold_left_ext_in {A B} (f g : A -> B -> A) (l : list B) (a : A) :
  (forall acc x, f acc x = g acc x) -> fold_left f l a = fold_left g l a.
Proof.
  intros H. revert a. induction l as [|x l IH]; intros a; simpl; [done|].
  by rewrite H, IH.
Qed.

(** A loop over [a, a+n) whose iteration [k] changes only index
    [off + k], as a function of the old entry there. *)
Lemma fold_seq_lookup {A} (off : nat) (G : nat -> list A -> list A)
    (h : nat -> option A -> option A) :
  (forall k l y, y <> (off + k)%nat -> G k l !! y = l !! y) ->
  (forall k l, G k l !! (off + k)%nat = h k (l !! (off + k)%nat)) ->
  forall n a l x,
    fold_left (fun l k => G k l) (seq a n) l !! x =
    if decide (off + a <= x < off + a + n)%nat
    then h (x - off)%nat (l !! x) else l !! x.
Proof.
  intros Hne Heq. induction n as [|n IH]; intros a l x; simpl.
  - rewrite decide_False by lia. done.
  - rewrite IH. destruct (decide (x = off + a)%nat) as [->|Hx].
    + rewrite decide_False by lia. rewrite decide_True by lia.
      rewrite Heq. by replace (off + a - off)%nat with a by lia.
    + rewrite Hne by done.
      destruct (decide (off + S a <= x < off + S a + n)%nat).
      * by rewrite decide_True by lia.
      * by rewrite decide_False by lia.
Qed.

Lemma fold_alter_fuse {A B} (a : nat) (g : B -> list A -> list A)
    (js : list B) (M : list (list A)) :
  fold_left (fun M j => alter (g j) a M) js M =
  alter (fun r => fold_left (fun r j => g j r) js r) a M.
Proof.
  revert M. induction js as [|j js IH]; intros M; simpl.
  - by rewrite list_alter_id.
  - rewrite IH, list_alter_alter_eq. done.
Qed.

Lemma mget_alter_row {A} (f : list A -> list A) (M : list (list A)) (a r c : nat) :
  mget (alter f a M) r c =
  if decide (a = r) then (M !! r) ≫= (fun row => f row !! c) else mget M r c.
Proof.
  unfold mget. destruct (decide (a = r)) as [->|Hne].
  - rewrite list_lookup_alter_eq. by destruct (M !! r).
  - by rewrite list_lookup_alter_ne.
Qed.

Lemma mget_row {A} (M : list (list A)) (r c : nat) (row : list A) :
  M !! r = Some row -> mget M r c = row !! c.
Proof. unfold mget. by intros ->. Qed.

(** ** The score matrix of [directed_tree] *)

Definition cell_update (mask : list bool) (depths : list Q) (i j : nat)
    (row : list score) : list score :=
  if punct mask i || punct mask j then <[(j + 1)%nat := Snan]> row
  else if Qle_bool (depth_at depths i) (depth_at depths j)
       then <[(j + 1)%nat := Snan]> row else row.

Definition row_update (mask : list bool) (depths : list Q) (L i : nat)
    (row : list score) : list score :=
  fold_left (fun r j => cell_update mask depths i j r) (seq 0 L)
            (if punct mask i then <[0%nat := Sc 0]> row else row).

Lemma with_root_rows (mask : list bool) (depths : list Q) (root : nat)
    (sent : list (list Q)) (L : nat) :
  with_root mask depths root sent L =
  mset root 0 (Sc 0)
    (fold_left (fun M i => alter (row_update mask depths L i) (i + 1)%nat M)
               (seq 0 L) (with_root_init sent)).
Proof.
  unfold with_root. f_equal. apply fold_left_ext_in. intros M i.
  unfold row_update.
  rewrite (fold_left_ext_in _
             (fun M j => alter (cell_update mask depths i j) (i + 1)%nat M)).
  - rewrite fold_alter_fuse. unfold mset.
    destruct (punct mask i); [|done].
    rewrite list_alter_alter_eq. done.
  - intros M' j. unfold cell_update, mset.
    destruct (punct mask i || punct mask j); [done|].
    destruct (Qle_bool _ _); [done|]. by rewrite list_alter_id.
Qed.

Lemma row_update_length mask depths L i row :
  length (row_update mask depths L i row) = length row.
Proof.
  unfold row_update.
  assert (H : forall js r, length (fold_left (fun r j => cell_update mask depths i j r) js r)
                           = length r).
  { induction js as [|j js IH]; intros r; simpl; [done|]. rewrite IH.
    unfold cell_update. repeat case_match; by rewrite ?length_insert. }
  rewrite H. destruct (punct mask i); by rewrite ?length_insert.
Qed.

Lemma row_update_lookup mask depths L i row (c : nat) :
  (c < length row)%nat -> (length row <= S L)%nat ->
  row_update mask depths L i row !! c =
  match c with
  | O => if punct mask i then Some (Sc 0) else row !! 0%nat
  | S j =>
      if punct mask i || punct mask j then Some Snan
      else if Qle_bool (depth_at depths i) (depth_at depths j) then Some Snan
      else row !! S j
  end.
Proof.
  intros Hc HL. unfold row_update.
  set (row0 := if punct mask i then <[0%nat := Sc 0]> row else row).
  assert (Hlen0 : length row0 = length row).
  { unfold row0. destruct (punct mask i); by rewrite ?length_insert. }
  rewrite (fold_seq_lookup 1 (fun j r => cell_update mask depths i j r)
             (fun j o => if punct mask i || punct mask j then (fun _ => Snan) <$> o
                         else if Qle_bool (depth_at depths i) (depth_at depths j)
                              then (fun _ => Snan) <$> o else o)).
  - destruct c as [|j].
    + rewrite decide_False by lia. unfold row0.
      destruct (punct mask i); [|done]. by rewrite list_lookup_insert_eq by lia.
    + rewrite decide_True by lia. replace (S j - 1)%nat with j by lia.
      assert (Hr0 : row0 !! S j = row !! S j).
      { unfold row0. destruct (punct mask i); [|done].
        by rewrite list_lookup_insert_ne by lia. }
      rewrite Hr0. destruct (lookup_lt_is_Some_2 row (S j) Hc) as [v ->].
      by repeat case_match.
  - intros k l y Hy. unfold cell_update.
    repeat case_match; try done; rewrite list_lookup_insert_ne; (done || lia).
  - intros k l. unfold cell_update. replace (k + 1)%nat with (1 + k)%nat by lia.
    assert (Hins : <[(1 + k)%nat := Snan]> l !! (1 + k)%nat = (fun _ => Snan) <$> l !! (1 + k)%nat).
    { destruct (decide (1 + k < length l)%nat).
      - rewrite list_lookup_insert_eq by done.
        by destruct (lookup_lt_is_Some_2 l (1 + k)%nat) as [v ->].
      - rewrite list_insert_ge by lia. by rewrite lookup_ge_None_2 by lia. }
    repeat case_match; done.
Qed.

Lemma with_root_init_lookup (sent : list (list Q)) (r : nat) :
  with_root_init sent !! r =
  match r with
  | O => Some (replicate (S (length sent)) Snan)
  | S i => (fun row => Snan :: map (fun d => Sc (- d)%Q) row) <$> sent !! i
  end.
Proof.
  unfold with_root_init. destruct r as [|i]; simpl; [done|].
  change (map ?f sent) with (f <$> sent). by rewrite list_lookup_fmap.
Qed.

(** Every cell of the score matrix, in closed form. *)
Lemma with_root_cell (mask : list bool) (depths : list Q) (root : nat)
    (sent : list (list Q)) (L r c : nat) :
  length sent = L ->
  Forall (fun row => length row = L) sent ->
  (1 <= root)%nat ->
  (r <= L)%nat -> (c <= L)%nat ->
  mget (with_root mask depths root sent L) r c
    = Some (score_cell mask depths root sent r c).
Proof.
  intros Hlen Hrows Hroot Hr Hc.
  rewrite with_root_rows. unfold mset. rewrite mget_alter_row.
  set (M1 := fold_left _ _ _).
  assert (HM1 : forall x, M1 !! x =
            if decide (1 <= x < 1 + L)%nat
            then row_update mask depths L (x - 1) <$> with_root_init sent !! x
            else with_root_init sent !! x).
  { intros x. unfold M1.
    rewrite (fold_seq_lookup 1
               (fun i M => alter (row_update mask depths L i) (i + 1)%nat M)
               (fun i o => row_update mask depths L i <$> o)).
    - done.
    - intros k l y Hy. apply list_lookup_alter_ne. lia.
    - intros k l. replace (k + 1)%nat with (1 + k)%nat by lia.
      apply list_lookup_alter_eq. }
  destruct r as [|i].
  - rewrite decide_False by lia.
    erewrite mget_row; last first.
    { rewrite HM1, decide_False by lia. by rewrite with_root_init_lookup. }
    rewrite lookup_replicate_2 by lia. done.
  - assert (Hi : (i < length sent)%nat) by lia.
    destruct (lookup_lt_is_Some_2 sent i Hi) as [row Hrow].
    assert (Hrowlen : length row = L).
    { rewrite Forall_lookup in Hrows. by apply (Hrows i). }
    assert (HM1i : M1 !! S i =
              Some (row_update mask depths L i
                      (Snan :: map (fun d => Sc (- d)%Q) row))).
    { rewrite HM1, decide_True by lia. rewrite with_root_init_lookup, Hrow.
      simpl. by replace (i - 0)%nat with i by lia. }
    set (row0 := Snan :: map (fun d => Sc (- d)%Q) row) in *.
    assert (Hrow0 : length row0 = S L).
    { unfold row0. simpl. by rewrite length_map, Hrowlen. }
    assert (Hcell : row_update mask depths L i row0 !! c =
              Some (score_cell mask depths (if decide (root = S i) then 0%nat else root)
                      sent (S i) c) \/
              (c = 0%nat /\ root = S i)).
    { destruct (decide (c = 0%nat /\ root = S i)) as [|Hn]; [by right|left].
      rewrite row_update_lookup by lia. destruct c as [|j]; simpl.
      - case_decide; [lia|].
        destruct (Nat.eqb_spec root (S i)); [lia|].
        rewrite orb_false_r. by destruct (punct mask i).
      - destruct (punct mask i || punct mask j); [done|].
        destruct (Qle_bool _ _); [done|].
        unfold row0. simpl. change (map ?f row) with (f <$> row).
        rewrite list_lookup_fmap. unfold mget. rewrite Hrow. simpl.
        assert (Hj : (j < length row)%nat) by lia.
        by destruct (lookup_lt_is_Some_2 row j Hj) as [d ->]. }
    destruct (decide (root = S i)) as [Heq|Hne].
    + rewrite HM1i. simpl. destruct c as [|j].
      * rewrite list_lookup_insert_eq by (rewrite row_update_length; lia).
        simpl. rewrite Heq, Nat.eqb_refl, orb_true_r. done.
      * rewrite list_lookup_insert_ne by lia.
        destruct Hcell as [->|[? _]]; [|lia]. done.
    + unfold mget. rewrite HM1i. simpl.
      destruct Hcell as [->|[_ ?]]; [|lia]. done.
Qed.

(** ** [np.argmin] *)

Lemma argmin_from_spec (v : list Q) (rest : list Q) :
  forall i bi,
    drop i v = rest -> (bi < i)%nat -> (i <= length v)%nat ->
    let a := argmin_from bi (depth_at v bi) i rest in
    (a = bi \/ (i <= a)%nat) /\
    (a < length v)%nat /\
    (depth_at v a <= depth_at v bi)%Q /\
    (forall j, (i <= j < length v)%nat -> (depth_at v a <= depth_at v j)%Q) /\
    (forall j, (i <= j < a)%nat -> ~ (depth_at v j <= depth_at v a)%Q) /\
    (a <> bi -> ~ (depth_at v bi <= depth_at v a)%Q).
Proof.
  induction rest as [|x rest IH]; intros i bi Hdrop Hbi Hi; simpl.
  - assert (length v <= i)%nat.
    { apply (f_equal length) in Hdrop. rewrite length_drop in Hdrop. simpl in Hdrop. lia. }
    split_and!; try (intros; lia). apply Qle_refl.
  - assert (Hvi : v !! i = Some x).
    { rewrite <- (Nat.add_0_r i), <- lookup_drop, Hdrop. done. }
    assert (Hval : depth_at v i = x) by (unfold depth_at; by rewrite Hvi).
    assert (Hdrop' : drop (S i) v = rest).
    { erewrite drop_S in Hdrop by exact Hvi. by injection Hdrop. }
    pose proof (lookup_lt_Some _ _ _ Hvi) as Hlt.
    destruct (Qle_bool (depth_at v bi) x) eqn:Hle.
    + apply Qle_bool_iff in Hle.
      destruct (IH (S i) bi Hdrop' ltac:(lia) ltac:(lia))
        as (H1 & H2 & H3 & H4 & H5 & H6).
      split_and!; [destruct H1; [left|right]; (done || lia) | done | done | | | done].
      * intros j Hj. destruct (decide (j = i)) as [->|Hne].
        -- rewrite Hval. by eapply Qle_trans.
        -- apply H4. lia.
      * intros j Hj. destruct (decide (j = i)) as [->|Hne].
        -- intros Hc. apply H6; [lia|]. eapply Qle_trans; [|exact Hc].
           by rewrite Hval.
        -- apply H5. lia.
    + assert (Hlt' : ~ (depth_at v bi <= depth_at v i)%Q).
      { rewrite Hval. intros Hc. apply Qle_bool_iff in Hc. congruence. }
      rewrite <- Hval.
      destruct (IH (S i) i Hdrop' ltac:(lia) ltac:(lia))
        as (H1 & H2 & H3 & H4 & H5 & H6).
      assert (Hib : (depth_at v i <= depth_at v bi)%Q).
      { apply Qlt_le_weak. by apply Qnot_le_lt. }
      split_and!; [right; lia | done | by eapply Qle_trans | | | ].
      * intros j Hj. destruct (decide (j = i)) as [->|Hne]; [done|]. apply H4. lia.
      * intros j Hj. destruct (decide (j = i)) as [->|Hne].
        -- apply H6. lia.
        -- apply H5. lia.
      * intros _ Hc. apply Hlt'. by eapply Qle_trans.
Qed.

(** [np.argmin] returns the first index of a least entry. *)
Lemma np_argmin_spec (v : list Q) (a : nat) :
  np_argmin v = Ok a ->
  (a < length v)%nat /\
  (forall j, (j < length v)%nat -> Qle_bool (depth_at v a) (depth_at v j) = true) /\
  (forall j, (j < a)%nat -> Qle_bool (depth_at v j) (depth_at v a) = false).
Proof.
  destruct v as [|x rest]; simpl; [discriminate|]. intros [= <-].
  destruct (argmin_from_spec (x :: rest) rest 1 0)
    as (H1 & H2 & H3 & H4 & H5 & H6); [done | lia | simpl; lia |].
  change (depth_at (x :: rest) 0) with x in *.
  set (a := argmin_from 0 x 1 rest) in *.
  split; [done|]. split.
  - intros j Hj. apply Qle_bool_iff. destruct j as [|j]; [done|]. apply H4. simpl. lia.
  - intros j Hj. destruct (Qle_bool _ _) eqn:E; [|done]. apply Qle_bool_iff in E.
    exfalso. destruct j as [|j].
    + by apply H6; [lia|].
    + by apply (H5 (S j)); [lia|].
Qed.

Lemma np_argmin_empty : np_argmin [] = Raise ValueError_argmin.
Proof. reflexivity. Qed.

(** ** Candidate heads in the score matrix *)

Lemma well_shaped_cell (mask : list bool) (depths : list Q)
    (sent : list (list Q)) (L i j : nat) :
  well_shaped mask depths sent L -> (i < L)%nat -> (j < L)%nat ->
  exists d, mget sent i j = Some d.
Proof.
  intros (_ & _ & Hlen & Hrows) Hi Hj.
  destruct (lookup_lt_is_Some_2 sent i) as [row Hrow]; [lia|].
  rewrite Forall_lookup in Hrows. pose proof (Hrows _ _ Hrow) as Hr.
  destruct (lookup_lt_is_Some_2 row j) as [d Hd]; [lia|].
  exists d. unfold mget. rewrite Hrow. done.
Qed.

(** C10, as the code has it: [argmin] is the first token of least
    depth, punctuation included, and its row has the score-0 arc to the
    virtual root.  Among the tokens that are not punctuation no other
    has that arc, so when the token of [argmin] is punctuation none
    has.  Every other non-punctuation token of least depth has no
    candidate head: its whole row, the root column included, is nan.
    When the least depth is attained by one token only and that token
    is not punctuation, every non-punctuation token has a candidate
    head. *)
Theorem directed_root_candidates (mask : list bool) (depths : list Q)
    (sent : list (list Q)) (L argmin : nat) :
  well_shaped mask depths sent L ->
  np_argmin depths = Ok argmin ->
  ((argmin < L)%nat /\
   (forall j, (j < L)%nat ->
      Qle_bool (depth_at depths argmin) (depth_at depths j) = true) /\
   (forall j, (j < argmin)%nat ->
      Qle_bool (depth_at depths j) (depth_at depths argmin) = false) /\
   mget (with_root mask depths (argmin + 1) sent L) (argmin + 1) 0
     = Some (Sc 0)) /\
  (forall t, (t < L)%nat -> punct mask t = false ->
     (mget (with_root mask depths (argmin + 1) sent L) (t + 1) 0 = Some (Sc 0)
      <-> t = argmin)) /\
  (forall t, (t < L)%nat -> t <> argmin -> punct mask t = false ->
     Qle_bool (depth_at depths t) (depth_at depths argmin) = true ->
     forall c, (c <= L)%nat ->
       mget (with_root mask depths (argmin + 1) sent L) (t + 1) c = Some Snan) /\
  (punct mask argmin = false ->
   (forall j, (j < L)%nat -> j <> argmin ->
      Qle_bool (depth_at depths j) (depth_at depths argmin) = false) ->
   forall t, (t < L)%nat -> punct mask t = false ->
     exists c, (c <= L)%nat /\
               candidate (with_root mask depths (argmin + 1) sent L) (t + 1) c).
Proof.
  intros Hshape Hargmin.
  pose proof Hshape as (Hmask & Hdepths & Hlen & Hrows).
  destruct (np_argmin_spec _ _ Hargmin) as (Ha & Hmin & Hfirst).
  rewrite Hdepths in Ha, Hmin.
  assert (Hcell : forall r c, (r <= L)%nat -> (c <= L)%nat ->
            mget (with_root mask depths (argmin + 1) sent L) r c =
            Some (score_cell mask depths (argmin + 1) sent r c)).
  { intros r c Hr Hc. apply with_root_cell; (done || lia). }
  split_and!.
  - done.
  - done.
  - done.
  - rewrite Hcell by lia. rewrite !Nat.add_1_r. unfold score_cell.
    by rewrite Nat.eqb_refl, orb_true_r.
  - intros t Ht Hp. rewrite Hcell by lia. rewrite !Nat.add_1_r.
    unfold score_cell. rewrite Hp. cbn [orb].
    destruct (Nat.eqb_spec (S argmin) (S t)) as [Heq|Hne].
    + split; [intros _; lia|done].
    + split; [done|intros ->; done].
  - intros t Ht Hne Hp Htie c Hc. rewrite Hcell by lia.
    rewrite !Nat.add_1_r. destruct c as [|j]; unfold score_cell.
    + rewrite Hp. destruct (Nat.eqb_spec (S argmin) (S t)); [lia|done].
    + rewrite Hp. destruct (punct mask j); [done|]. cbn [orb].
      assert (Qle_bool (depth_at depths t) (depth_at depths j) = true) as ->; [|done].
      apply Qle_bool_iff. eapply Qle_trans.
      * apply Qle_bool_iff, Htie.
      * apply Qle_bool_iff, Hmin. lia.
  - intros Hpa Huniq t Ht Hp.
    destruct (decide (t = argmin)) as [->|Hne].
    + exists 0%nat. split; [lia|]. exists 0%Q. rewrite Hcell by lia.
      rewrite !Nat.add_1_r. unfold score_cell. by rewrite Nat.eqb_refl, orb_true_r.
    + exists (S argmin). split; [lia|].
      destruct (well_shaped_cell _ _ _ _ t argmin Hshape Ht Ha) as [d Hd].
      exists (- d)%Q. rewrite Hcell by lia. rewrite !Nat.add_1_r. unfold score_cell.
      rewrite Hp, Hpa. cbn [orb]. rewrite (Huniq t Ht Hne). by rewrite Hd.
Qed.

Lemma well_shaped_path3 (depths : list Q) :
  length depths = 3%nat -> well_shaped no_punct3 depths path3 3.
Proof.
  intros H. unfold well_shaped. split_and!; [done | done | done |].
  repeat constructor.
Defined.

(** On the sentence with tied depths the second token, tied with the
    first, has an all-nan row; on the path rooted at its first token
    the least depth is attained once and every token has a candidate
    head. *)
Lemma directed_root_candidates_witness :
  (mget (with_root no_punct3 tied_depths (0 + 1) path3 3) (0 + 1) 0
     = Some (Sc 0) /\
   (forall t, (t < 3)%nat -> punct no_punct3 t = false ->
      (mget (with_root no_punct3 tied_depths (0 + 1) path3 3) (t + 1) 0
         = Some (Sc 0) <-> t = 0%nat)) /\
   (forall c, (c <= 3)%nat ->
      mget (with_root no_punct3 tied_depths (0 + 1) path3 3) (1 + 1) c
        = Some Snan)) /\
  (forall t, (t < 3)%nat -> punct no_punct3 t = false ->
     exists c, (c <= 3)%nat /\
               candidate (with_root no_punct3 path_depths (0 + 1) path3 3) (t + 1) c).
Proof.
  split.
  - destruct (directed_root_candidates no_punct3 tied_depths path3 3 0)
      as ((_ & _ & _ & Hroot) & Honly & Hties & _).
    + apply well_shaped_path3. reflexivity.
    + reflexivity.
    + split_and!; [exact Hroot|exact Honly|].
      apply (Hties 1%nat); [lia|lia|reflexivity|reflexivity].
  - destruct (directed_root_candidates no_punct3 path_depths path3 3 0)
      as (_ & _ & _ & Hall).
    + apply well_shaped_path3. reflexivity.
    + reflexivity.
    + apply Hall; [reflexivity|].
      intros j Hj Hne. destruct j as [|[|[|j]]]; [done|reflexivity|reflexivity|lia].
Defined.

(** C10 as stated fails when a punctuation token has the least depth at
    a lower index.  With all depths equal and the first token
    punctuation, [argmin] is that punctuation token: the second and the
    third token are not punctuation and share the least depth, yet the
    first of them has no arc to the root, and no candidate at all.
    With the depths of the path, the second token alone has the least
    depth among the tokens that are not punctuation, and it has no
    candidate head either. *)
Lemma directed_root_counterexample :
  (np_argmin level_depths = Ok 0%nat /\
   punct punct_first 0 = true /\
   punct punct_first 1 = false /\ punct punct_first 2 = false /\
   forall c, (c <= 3)%nat ->
     mget (with_root punct_first level_depths (0 + 1) path3 3) (1 + 1) c
       = Some Snan) /\
  (np_argmin path_depths = Ok 0%nat /\
   Qle_bool (depth_at path_depths 2) (depth_at path_depths 1) = false /\
   forall c, (c <= 3)%nat ->
     mget (with_root punct_first path_depths (0 + 1) path3 3) (1 + 1) c
       = Some Snan).
Proof.
  split_and!; try reflexivity.
  - intros c Hc. by destruct c as [|[|[|[|c]]]]; [..|lia].
  - intros c Hc. by destruct c as [|[|[|[|c]]]]; [..|lia].
Qed.

(** ** [UASReporter.directed_tree] *)

Lemma fold_left_invariant {A B} (P : A -> Prop) (f : A -> B -> A)
    (l : list B) (a : A) :
  P a -> (forall acc x, P acc -> P (f acc x)) -> P (fold_left f l a).
Proof.
  intros Ha Hf. revert a Ha. induction l as [|x l IH]; intros a Ha; simpl; auto.
Qed.

Lemma with_root_shape (mask : list bool) (depths : list Q) (root : nat)
    (sent : list (list Q)) (L : nat) :
  Forall (fun row => length row = length sent) sent ->
  length (with_root mask depths root sent L) = S (length sent) /\
  Forall (fun row => length row = S (length sent))
         (with_root mask depths root sent L).
Proof.
  intros Hrows. rewrite with_root_rows. unfold mset.
  set (P := fun M : list (list score) =>
              length M = S (length sent) /\
              Forall (fun row => length row = S (length sent)) M).
  assert (Halter : forall f a M,
            (forall row, length (f row) = length row) -> P M -> P (alter f a M)).
  { intros f a M Hf [H1 H2]. split; [by rewrite length_alter|].
    apply Forall_alter; [done|]. intros row _ Hrow. by rewrite Hf. }
  apply Halter; [intros; apply length_insert|].
  apply fold_left_invariant.
  - split.
    + unfold with_root_init. simpl. by rewrite length_map.
    + unfold with_root_init. constructor; [by rewrite length_replicate|].
      apply List.Forall_forall. intros row Hrow.
      apply in_map_iff in Hrow as (r0 & <- & Hin). simpl. rewrite length_map.
      rewrite List.Forall_forall in Hrows. by rewrite (Hrows _ Hin).
  - intros M i HM. apply Halter; [|done]. intros; apply row_update_length.
Qed.

Lemma mget_range {A} (M : list (list A)) (n r c : nat) (x : A) :
  length M = n -> Forall (fun row => length row = n) M ->
  mget M r c = Some x -> (r < n)%nat /\ (c < n)%nat.
Proof.
  intros Hlen Hrows. unfold mget. destruct (M !! r) as [row|] eqn:Hrow; [|done].
  simpl. intros Hc. split.
  - rewrite <- Hlen. by eapply lookup_lt_Some.
  - rewrite Forall_lookup in Hrows. rewrite <- (Hrows _ _ Hrow).
    by eapply lookup_lt_Some.
Qed.

(** The arcs kept after decoding: the heads of the tokens that are not
    punctuation. *)
Lemma elem_of_arcs_of (d n : nat) (heads : list Z) (mask : list bool)
    (dep : nat) (head : Z) :
  (dep, head) ∈ arcs_of d n heads mask <->
  exists t, (t < n)%nat /\ dep = (d + t)%nat /\
            mask !! t = Some false /\ heads !! t = Some head.
Proof.
  revert d heads mask. induction n as [|n IH]; intros d heads mask.
  - simpl. split; [intros H; inversion H | intros (t & ? & _); lia].
  - destruct heads as [|h heads]; [|destruct mask as [|b mask]]; simpl.
    + split; [intros H; inversion H | intros (t & _ & _ & _ & ?); done].
    + split; [intros H; inversion H | intros (t & _ & _ & ? & _); done].
    + assert (Hrest : (dep, head) ∈ arcs_of (S d) n heads mask <->
                exists t, (0 < t < S n)%nat /\ dep = (d + t)%nat /\
                          (b :: mask) !! t = Some false /\
                          (h :: heads) !! t = Some head).
      { rewrite IH. split.
        - intros (t & ? & -> & ? & ?). exists (S t). split_and!; (done || lia).
        - intros (t & ? & -> & Hm & Hh). destruct t as [|t]; [lia|].
          exists t. split_and!; (done || lia). }
      destruct b.
      * rewrite Hrest. split.
        -- intros (t & ? & ?). exists t. split; [lia|done].
        -- intros (t & ? & -> & Hm & Hh). exists t. split; [|done].
           destruct t; [simpl in Hm; congruence|lia].
      * rewrite elem_of_cons, Hrest. split.
        -- intros [[= -> ->]|(t & ? & ?)].
           ++ exists 0%nat. split_and!; (done || lia).
           ++ exists t. split; [lia|done].
        -- intros (t & ? & -> & Hm & Hh). destruct t as [|t].
           ++ left. simpl in Hh. injection Hh as ->. f_equal. lia.
           ++ right. exists (S t). split; [lia|done].
Qed.

Lemma arcs_of_NoDup (d n : nat) (heads : list Z) (mask : list bool) :
  NoDup (arcs_of d n heads mask).
Proof.
  revert d heads mask. induction n as [|n IH]; intros d heads mask; simpl.
  - constructor.
  - destruct heads as [|h heads]; [constructor|].
    destruct mask as [|[] mask]; [constructor|apply IH|].
    constructor; [|apply IH].
    rewrite elem_of_arcs_of. intros (t & _ & ? & _). lia.
Qed.

Lemma arcs_of_length (d n : nat) (heads : list Z) (mask : list bool) :
  length mask = n -> length heads = n ->
  length (arcs_of d n heads mask) = non_punctuation mask.
Proof.
  unfold non_punctuation.
  revert d heads mask. induction n as [|n IH]; intros d heads mask Hm Hh.
  - destruct mask; [done|discriminate].
  - destruct heads as [|h heads]; [discriminate|].
    destruct mask as [|b mask]; [discriminate|]. simpl in *.
    destruct b.
    + rewrite filter_cons_False by done. apply IH; lia.
    + rewrite filter_cons_True by done. simpl. f_equal. apply IH; lia.
Qed.

(** One decoded tree: what a head list of roots and candidates gives
    after the punctuation arcs are dropped. *)
Lemma decoded_arcs_ok (mask : list bool) (depths : list Q)
    (sent : list (list Q)) (L argmin : nat) (heads : list Z) :
  well_shaped mask depths sent L ->
  np_argmin depths = Ok argmin ->
  root_or_candidate (with_root mask depths (argmin + 1) sent L) heads ->
  arcs_ok mask L (list_to_set (arcs_of 1 L (tail heads) mask)) /\
  heads !! (argmin + 1)%nat = Some 0 /\
  (punct mask argmin = false ->
   (S argmin, 0) ∈ (list_to_set (arcs_of 1 L (tail heads) mask) : gset (nat * Z))).
Proof.
  intros Hshape Hargmin [Hlen Hheads].
  pose proof Hshape as (Hmask & Hdepths & Hsent & Hrows).
  destruct (np_argmin_spec _ _ Hargmin) as (Ha & Hmin & _).
  rewrite Hdepths in Ha, Hmin.
  set (scores := with_root mask depths (argmin + 1) sent L) in *.
  assert (Hrows' : Forall (fun row => length row = length sent) sent)
    by (by rewrite Hsent).
  destruct (with_root_shape mask depths (argmin + 1) sent L Hrows')
    as [Hslen Hsrows].
  fold scores in Hslen, Hsrows. rewrite Hsent in Hslen, Hsrows.
  assert (Hcell : forall r c q, mget scores r c = Some (Sc q) ->
            (r <= L)%nat /\ (c <= L)%nat /\
            score_cell mask depths (argmin + 1) sent r c = Sc q).
  { intros r c q Hq.
    destruct (mget_range scores (S L) r c _ Hslen Hsrows Hq) as [Hr Hc].
    split; [lia|]. split; [lia|].
    unfold scores in Hq. rewrite with_root_cell in Hq by (done || lia).
    by injection Hq. }
  (* the head of every token *)
  assert (Hhead : forall t, (t < L)%nat ->
            exists h : nat, tail heads !! t = Some (Z.of_nat h) /\
              (h = 0%nat \/
               exists j, h = S j /\ (j < L)%nat /\
                         punct mask t = false /\ punct mask j = false /\
                         Qle_bool (depth_at depths t) (depth_at depths j) = false)).
  { intros t Ht. destruct (Hheads (S t)) as (h & Hh & Hcase); [lia|].
    exists h. rewrite lookup_tail. split; [done|].
    destruct Hcase as [->|[q Hq]]; [by left|].
    destruct (Hcell _ _ _ Hq) as (_ & Hc & Hsc).
    destruct h as [|j]; [by left|right]. exists j. split; [done|]. split; [lia|].
    unfold score_cell in Hsc.
    destruct (punct mask t); [done|]. destruct (punct mask j); [done|].
    cbn [orb] in Hsc. destruct (Qle_bool _ _); done. }
  assert (Hmask_false : forall t, (t < L)%nat ->
            (mask !! t = Some false <-> punct mask t = false)).
  { intros t Ht. unfold punct.
    destruct (lookup_lt_is_Some_2 mask t) as [b Hb]; [lia|]. rewrite Hb. simpl.
    split; congruence. }
  assert (Hroot : tail heads !! argmin = Some 0).
  { destruct (Hhead argmin Ha) as (h & Hh & [->|(j & -> & Hj & _ & _ & Hq)]);
      [done|]. rewrite Hmin in Hq by done. done. }
  split_and!.
  - (* arcs_ok *)
    unfold arcs_ok. split_and!.
    + rewrite size_list_to_set by apply arcs_of_NoDup.
      apply arcs_of_length; [done|]. destruct heads; simpl in *; lia.
    + intros t Ht Hp. destruct (Hhead t Ht) as (h & Hh & _).
      exists (Z.of_nat h). split.
      * apply elem_of_list_to_set, elem_of_arcs_of. exists t.
        split_and!; [done|done| |done]. by apply Hmask_false.
      * intros h' Hin. apply elem_of_list_to_set, elem_of_arcs_of in Hin
          as (t' & _ & Ht' & _ & Hh').
        assert (t' = t) as -> by lia. congruence.
    + intros dep head Hin.
      apply elem_of_list_to_set, elem_of_arcs_of in Hin
        as (t & Ht & -> & Hm & Hh).
      destruct (Hhead t Ht) as (h & Hh' & Hcase).
      assert (head = Z.of_nat h) as -> by congruence.
      split; [lia|]. replace (1 + t - 1)%nat with t by lia.
      split; [by apply Hmask_false|].
      destruct Hcase as [->|(j & -> & Hj & _ & Hpj & _)]; [by left|right].
      exists j. done.
  - rewrite Nat.add_1_r, <- lookup_tail. done.
  - intros Hp. apply elem_of_list_to_set, elem_of_arcs_of. exists argmin.
    split_and!; [done|done| |done]. by apply Hmask_false.
Qed.

(** C2, as the code has it: on a sentence with at least one token, for
    which the decoder returns for both score matrices a head list that
    gives every node the virtual root or one of its candidates,
    [directed_tree] returns, for the predicted and for the gold tree
    alike, exactly one arc per non-punctuation token and as many arcs as
    there are such tokens; no arc has a punctuation token as dependent
    or head; the token found by argmin has the virtual root as head,
    and that arc is among those returned when the token is not
    punctuation. *)
Theorem directed_tree_arcs
    (chu_liu_edmonds : list (list score) -> result (list Z))
    (mask : list bool) (predicted_depths gold_depths : list Q)
    (sent_predicted sent_gold : list (list Q)) (L : nat)
    (predicted_root gold_root : nat) (predicted_heads gold_heads : list Z) :
  well_shaped mask predicted_depths sent_predicted L ->
  well_shaped mask gold_depths sent_gold L ->
  np_argmin predicted_depths = Ok predicted_root ->
  np_argmin gold_depths = Ok gold_root ->
  chu_liu_edmonds
    (with_root mask predicted_depths (predicted_root + 1) sent_predicted L)
    = Ok predicted_heads ->
  chu_liu_edmonds
    (with_root mask gold_depths (gold_root + 1) sent_gold L)
    = Ok gold_heads ->
  root_or_candidate
    (with_root mask predicted_depths (predicted_root + 1) sent_predicted L)
    predicted_heads ->
  root_or_candidate
    (with_root mask gold_depths (gold_root + 1) sent_gold L) gold_heads ->
  exists predicted gold,
    directed_tree chu_liu_edmonds mask predicted_depths gold_depths
      sent_predicted sent_gold L = Ok (predicted, gold) /\
    arcs_ok mask L predicted /\
    arcs_ok mask L gold /\
    predicted_heads !! (predicted_root + 1)%nat = Some 0 /\
    gold_heads !! (gold_root + 1)%nat = Some 0 /\
    (punct mask predicted_root = false -> (S predicted_root, 0) ∈ predicted) /\
    (punct mask gold_root = false -> (S gold_root, 0) ∈ gold).
Proof.
  intros Hsp Hsg Hpr Hgr Hph Hgh Hpf Hgf.
  destruct (decoded_arcs_ok mask predicted_depths sent_predicted L
              predicted_root predicted_heads Hsp Hpr Hpf) as (P1 & P2 & P3).
  destruct (decoded_arcs_ok mask gold_depths sent_gold L
              gold_root gold_heads Hsg Hgr Hgf) as (G1 & G2 & G3).
  eexists _, _. split.
  - unfold directed_tree. rewrite Hpr, Hgr. simpl. rewrite Hph. simpl.
    rewrite Hgh. simpl. reflexivity.
  - done.
Qed.

(** *** The sample decoder returns roots and candidates *)

Lemma best_from_Some (row : list score) :
  forall i best h q,
    best_from i best row = Some (h, q) ->
    best = Some (h, q) \/ exists k, h = (i + k)%nat /\ row !! k = Some (Sc q).
Proof.
  induction row as [|[x|] row IH]; intros i best h q; simpl.
  - auto.
  - assert (Hnew : best_from (S i) (Some (i, x)) row = Some (h, q) ->
              best = Some (h, q) \/
              exists k, h = (i + k)%nat /\ (Sc x :: row) !! k = Some (Sc q)).
    { intros H. apply IH in H as [[= <- <-]|(k & -> & Hk)]; right.
      - exists 0%nat. split; [lia|done].
      - exists (S k). split; [lia|done]. }
    assert (Hold : best_from (S i) best row = Some (h, q) ->
              best = Some (h, q) \/
              exists k, h = (i + k)%nat /\ (Sc x :: row) !! k = Some (Sc q)).
    { intros H. apply IH in H as [?|(k & -> & Hk)]; [by left|right].
      exists (S k). split; [lia|done]. }
    destruct best as [[bi b]|]; [destruct (Qle_bool x b)|]; auto.
  - intros H. apply IH in H as [?|(k & -> & Hk)]; [by left|right].
    exists (S k). split; [lia|done].
Qed.

Lemma best_heads_Ok (rows : list (list score)) (hs : list Z) :
  best_heads rows = Ok hs ->
  length hs = length rows /\
  forall r row, rows !! r = Some row ->
    exists h : nat, hs !! r = Some (Z.of_nat h) /\
                    (h = 0%nat \/ exists q, row !! h = Some (Sc q)).
Proof.
  revert hs. induction rows as [|row rows IH]; intros hs; simpl.
  - intros [= <-]. split; [done|]. intros r row H. done.
  - intros H. apply rbind_Ok in H as (z & Hz & H).
    apply rbind_Ok in H as (hs' & Hhs' & [= <-]).
    destruct (IH _ Hhs') as [Hlen Hrest]. split; [simpl; lia|].
    intros [|r] row' Hrow; simpl in *.
    + injection Hrow as <-. unfold best_head in Hz.
      destruct (best_from 0 None row) as [[h q]|] eqn:Hb.
      * injection Hz as <-. exists h. split; [done|right].
        apply best_from_Some in Hb as [?|(k & -> & Hk)]; [done|]. eauto.
      * injection Hz as <-. exists 0%nat. split; [done|by left].
    + by apply Hrest.
Qed.

Lemma greedy_heads_fit (scores : list (list score)) (heads : list Z) :
  greedy_heads scores = Ok heads -> root_or_candidate scores heads.
Proof.
  unfold greedy_heads.
  destruct scores as [|row0 rows]; [done|]. intros H.
  apply rbind_Ok in H as (hs & Hhs & [= <-]).
  destruct (best_heads_Ok _ _ Hhs) as [Hlen Hrows]. split; [simpl; lia|].
  intros [|r] Hr; [lia|]. simpl in Hr.
  destruct (lookup_lt_is_Some_2 rows r) as [row Hrow]; [lia|].
  destruct (Hrows _ _ Hrow) as (h & Hh & Hcase).
  exists h. split; [done|]. destruct Hcase as [->|[q Hq]]; [by left|right].
  exists q. unfold mget. simpl. by rewrite Hrow.
Qed.

Lemma directed_tree_arcs_witness :
  exists predicted gold,
    directed_tree greedy_heads no_punct3 tied_depths path_depths
      path3 path3 3 = Ok (predicted, gold) /\
    arcs_ok no_punct3 3 predicted /\
    arcs_ok no_punct3 3 gold /\
    [-1; 0; 0; 2] !! (0 + 1)%nat = Some 0 /\
    [-1; 0; 1; 2] !! (0 + 1)%nat = Some 0 /\
    (punct no_punct3 0 = false -> (1%nat, 0) ∈ predicted) /\
    (punct no_punct3 0 = false -> (1%nat, 0) ∈ gold).
Proof.
  apply (directed_tree_arcs greedy_heads no_punct3
           tied_depths path_depths path3 path3 3 0 0
           [-1; 0; 0; 2] [-1; 0; 1; 2]).
  - apply well_shaped_path3. reflexivity.
  - apply well_shaped_path3. reflexivity.
  - reflexivity.
  - reflexivity.
  - reflexivity.
  - reflexivity.
  - apply greedy_heads_fit. reflexivity.
  - apply greedy_heads_fit. reflexivity.
Defined.

(** *** The sentence on which no tree is returned *)

(** C2 as stated fails on the empty sentence, and there only: it has
    no token, zero arcs are owed, but [np.argmin] of the empty depth
    vector raises before any decoding, whatever the decoder. *)
Lemma directed_tree_counterexample :
  non_punctuation [] = 0%nat /\
  np_argmin [] = Raise ValueError_argmin /\
  (forall cle, directed_tree cle [] [] [] [] [] 0 = Raise ValueError_argmin).
Proof. split_and!; reflexivity. Qed.

(** ** Kruskal's scan *)

Lemma component_seq (n v : nat) : (v < n)%nat -> component (seq 0 n) v = v.
Proof. intros H. unfold component. by rewrite lookup_seq_lt. Qed.

Lemma component_union (cu cv : nat) (comp : list nat) (v : nat) :
  (v < length comp)%nat ->
  component (union cu cv comp) v =
  (if Nat.eqb (component comp v) cv then cu else component comp v).
Proof.
  intros Hv. unfold component, union.
  change (map ?f comp) with (f <$> comp). rewrite list_lookup_fmap.
  by destruct (lookup_lt_is_Some_2 comp v Hv) as [c ->].
Qed.

Lemma union_length (cu cv : nat) (comp : list nat) :
  length (union cu cv comp) = length comp.
Proof. unfold union. apply length_map. Qed.

(** Merging two different labels that both occur removes exactly one
    label. *)
Lemma merge_labels_count (cu cv : nat) (labels : list nat) :
  cu <> cv -> cu ∈ labels -> cv ∈ labels ->
  S (length (remove_dups
               ((fun c => if Nat.eqb c cv then cu else c) <$> labels)))
  = length (remove_dups labels).
Proof.
  intros Hne Hu Hv.
  set (f := fun c => if Nat.eqb c cv then cu else c).
  change (length (cv :: remove_dups (f <$> labels)) = length (remove_dups labels)).
  apply Permutation_length, NoDup_Permutation.
  - apply NoDup_cons. split; [|apply NoDup_remove_dups].
    rewrite elem_of_remove_dups, list_elem_of_fmap. intros (c & Hc & _).
    unfold f in Hc. destruct (Nat.eqb_spec c cv); congruence.
  - apply NoDup_remove_dups.
  - intros x. rewrite elem_of_cons, !elem_of_remove_dups, list_elem_of_fmap.
    split.
    + intros [->|(c & -> & Hc)]; [done|].
      unfold f. by destruct (Nat.eqb_spec c cv).
    + intros Hx. destruct (decide (x = cv)) as [->|Hx']; [by left|right].
      exists x. split; [|done]. unfold f.
      by destruct (Nat.eqb_spec x cv).
Qed.

Section Kruskal.

(** The nodes that may carry an edge, and the size of the graph. *)
Variable nodes : list nat.
Variable n : nat.
Hypothesis nodes_NoDup : NoDup nodes.
Hypothesis nodes_lt : forall v, v ∈ nodes -> (v < n)%nat.

Definition edge_on_nodes (e : edge) : Prop := e.1.1 ∈ nodes /\ e.1.2 ∈ nodes.

(** What the scan keeps true: [seen] are the edges already scanned. *)
Definition kruskal_inv (seen : list edge) (st : list nat * list edge) : Prop :=
  length st.1 = n /\
  (forall e, e ∈ seen ->
     edge_on_nodes e /\ component st.1 (e.1.1) = component st.1 (e.1.2)) /\
  (forall e, e ∈ st.2 -> e ∈ seen /\ e.1.1 <> e.1.2) /\
  NoDup (fst <$> st.2) /\
  (length (remove_dups (component st.1 <$> nodes)) + length st.2
   = length nodes)%nat.

Lemma kruskal_inv_init : kruskal_inv [] (seq 0 n, []).
Proof.
  unfold kruskal_inv. simpl. split_and!.
  - apply length_seq.
  - intros e H. inversion H.
  - intros e H. inversion H.
  - constructor.
  - rewrite Nat.add_0_r. apply Permutation_length.
    assert (component (seq 0 n) <$> nodes = nodes) as ->.
    { clear nodes_NoDup. induction nodes as [|v vs IH]; [done|]. simpl.
      rewrite component_seq by (apply nodes_lt; by left).
      f_equal. apply IH. intros w Hw. apply nodes_lt. by right. }
    apply NoDup_Permutation; [apply NoDup_remove_dups|done|].
    intros x. apply elem_of_remove_dups.
Qed.

Lemma kruskal_inv_step (seen : list edge) (st : list nat * list edge) (e : edge) :
  edge_on_nodes e ->
  kruskal_inv seen st ->
  kruskal_inv (seen ++ [e]) (kruskal_step st e).
Proof.
  intros [Hu Hv] (Hlen & Hseen & Hkept & Hnd & Hcount).
  destruct st as [comp kept]. simpl in *. unfold kruskal_step.
  pose proof (nodes_lt _ Hu) as Hun. pose proof (nodes_lt _ Hv) as Hvn.
  destruct (Nat.eqb_spec (component comp (e.1.1)) (component comp (e.1.2)))
    as [Heq|Hne]; unfold kruskal_inv; simpl.
  - split_and!; [done| | |done|done].
    2:{ intros e' He'. destruct (Hkept e' He'). split; [|done].
        apply elem_of_app. by left. }
    intros e' He'. apply elem_of_app in He' as [He'|He']; [auto|].
    apply list_elem_of_singleton in He' as ->. done.
  - set (cu := component comp (e.1.1)) in *.
    set (cv := component comp (e.1.2)) in *.
    assert (Hlabel : forall v, (v < n)%nat ->
              component (union cu cv comp) v =
              (if Nat.eqb (component comp v) cv then cu else component comp v)).
    { intros v Hvlt. apply component_union. lia. }
    split_and!.
    + by rewrite union_length.
    + intros e' He'. apply elem_of_app in He' as [He'|He'].
      * destruct (Hseen e' He') as [[H1 H2] Hs]. split; [done|].
        rewrite !Hlabel by (by apply nodes_lt). by rewrite Hs.
      * apply list_elem_of_singleton in He' as ->. split; [done|].
        rewrite !Hlabel by done. fold cu cv.
        rewrite Nat.eqb_refl. by destruct (Nat.eqb_spec cu cv).
    + intros e' He'. rewrite elem_of_app.
      apply elem_of_app in He' as [He'|He'].
      * destruct (Hkept e' He'). split; [by left|done].
      * apply list_elem_of_singleton in He' as ->. split; [right; by left|].
        intros Hsame. apply Hne. unfold cu, cv. by rewrite Hsame.
    + rewrite fmap_app. simpl. apply NoDup_app. split_and!; [done| |].
      * intros p Hp Hp'. apply list_elem_of_singleton in Hp' as ->.
        apply list_elem_of_fmap in Hp as (e' & Hfst & He').
        apply Hne. destruct (Hseen e' (proj1 (Hkept e' He'))) as [_ Hs].
        unfold cu, cv. by rewrite Hfst.
      * apply NoDup_singleton.
    + rewrite length_app. simpl.
      assert (Hmap : component (union cu cv comp) <$> nodes =
                (fun c => if Nat.eqb c cv then cu else c) <$> (component comp <$> nodes)).
      { rewrite <- list_fmap_compose. apply list_fmap_ext.
        intros i v Hiv. simpl. apply Hlabel, nodes_lt.
        by eapply list_elem_of_lookup_2. }
      rewrite Hmap.
      pose proof (merge_labels_count cu cv (component comp <$> nodes) Hne
                    ltac:(by apply list_elem_of_fmap_2)
                    ltac:(by apply list_elem_of_fmap_2)) as Hc.
      lia.
Qed.

Lemma kruskal_inv_fold (es : list edge) :
  Forall edge_on_nodes es ->
  forall seen st, kruskal_inv seen st ->
    kruskal_inv (seen ++ es) (fold_left kruskal_step es st).
Proof.
  induction 1 as [|e es He _ IH]; intros seen st Hinv; simpl.
  - by rewrite app_nil_r.
  - replace (seen ++ e :: es) with ((seen ++ [e]) ++ es)
      by (by rewrite <- app_assoc).
    apply IH. by apply kruskal_inv_step.
Qed.

(** The edges of the graph, as a relation. *)
Definition adjacent (es : list edge) (u v : nat) : Prop :=
  exists q, (u, v, q) ∈ es.

(** The scan keeps edges of the graph between different nodes, at most
    one per cell; on a connected graph it keeps one edge less than
    there are nodes. *)
Lemma kruskal_kept (es : list edge) :
  Forall edge_on_nodes es ->
  (forall e, e ∈ kruskal n es -> e ∈ es /\ e.1.1 <> e.1.2) /\
  NoDup (fst <$> kruskal n es) /\
  (nodes <> [] ->
   (forall u v, u ∈ nodes -> v ∈ nodes -> rtsc (adjacent es) u v) ->
   S (length (kruskal n es)) = length nodes).
Proof.
  intros Hes. unfold kruskal.
  pose proof (kruskal_inv_fold es Hes [] _ kruskal_inv_init) as Hinv.
  simpl in Hinv. destruct (fold_left kruskal_step es (seq 0 n, [])) as [comp kept].
  destruct Hinv as (Hlen & Hseen & Hkept & Hnd & Hcount). simpl in *.
  split_and!; [done|done|]. intros Hne Hconn.
  assert (Hsame : forall u v, rtsc (adjacent es) u v ->
            component comp u = component comp v).
  { intros u v Huv. induction Huv as [|x y z [[q Hq]|[q Hq]] _ IH]; [done| |].
    - rewrite <- IH. by destruct (Hseen _ Hq) as [_ ?].
    - rewrite <- IH. by destruct (Hseen _ Hq) as [_ ?]. }
  destruct nodes as [|v0 vs] eqn:Hnodes; [done|].
  assert (Hone : remove_dups (component comp <$> v0 :: vs) ≡ₚ [component comp v0]).
  { apply NoDup_Permutation; [apply NoDup_remove_dups|apply NoDup_singleton|].
    intros c. rewrite elem_of_remove_dups, list_elem_of_fmap, list_elem_of_singleton.
    split.
    - intros (v & -> & Hv). apply Hsame, Hconn; [done|by left].
    - intros ->. exists v0. split; [done|by left]. }
  apply Permutation_length in Hone. simpl in Hone, Hcount |- *. lia.
Qed.

End Kruskal.

(** ** The masked matrix of [undirected_tree] *)

Definition cell_mask (mask : list bool) (i j : nat) (row : list weight)
  : list weight :=
  if punct mask i || punct mask j then <[j := Winf]> row
  else if Nat.ltb j i then <[j := Winf]> row else row.

Definition row_mask (mask : list bool) (L i : nat) (row : list weight)
  : list weight :=
  fold_left (fun r j => cell_mask mask i j r) (seq 0 L) row.

Lemma mask_undirected_rows (mask : list bool) (L : nat) (M : list (list weight)) :
  mask_undirected mask L M =
  fold_left (fun M i => alter (row_mask mask L i) i M) (seq 0 L) M.
Proof.
  unfold mask_undirected. apply fold_left_ext_in. intros M' i.
  unfold row_mask. rewrite <- fold_alter_fuse.
  apply fold_left_ext_in. intros M'' j. unfold cell_mask, mset.
  destruct (punct mask i || punct mask j); [done|].
  destruct (Nat.ltb j i); [done|]. by rewrite list_alter_id.
Qed.

Lemma row_mask_lookup (mask : list bool) (L i : nat) (row : list weight) (j : nat) :
  (j < length row)%nat -> (length row <= L)%nat ->
  row_mask mask L i row !! j =
  if punct mask i || punct mask j then Some Winf
  else if Nat.ltb j i then Some Winf else row !! j.
Proof.
  intros Hj HL. unfold row_mask.
  rewrite (fold_seq_lookup 0 (fun j r => cell_mask mask i j r)
             (fun j o => if punct mask i || punct mask j
                         then (fun _ => Winf) <$> o
                         else if Nat.ltb j i then (fun _ => Winf) <$> o else o)).
  - rewrite decide_True by lia. replace (j - 0)%nat with j by lia.
    destruct (lookup_lt_is_Some_2 row j Hj) as [w ->].
    by repeat case_match.
  - intros k l y Hy. unfold cell_mask.
    repeat case_match; try done; rewrite list_lookup_insert_ne; (done || lia).
  - intros k l. unfold cell_mask. simpl.
    assert (Hins : <[k := Winf]> l !! k = (fun _ => Winf) <$> l !! k).
    { destruct (decide (k < length l)%nat).
      - rewrite list_lookup_insert_eq by done.
        by destruct (lookup_lt_is_Some_2 l k) as [v ->].
      - rewrite list_insert_ge by lia. by rewrite lookup_ge_None_2 by lia. }
    repeat case_match; done.
Qed.

(** Every cell of the masked matrix, in closed form. *)
Lemma mask_undirected_cell (mask : list bool) (sent : list (list Q))
    (L i j : nat) (q : Q) :
  square sent L -> mget sent i j = Some q ->
  mget (mask_undirected mask L (map (map W) sent)) i j =
  Some (if punct mask i || punct mask j then Winf
        else if Nat.ltb j i then Winf else W q).
Proof.
  intros [Hlen Hrows] Hq. unfold mget in Hq.
  destruct (sent !! i) as [row|] eqn:Hrow; [|done]. simpl in Hq.
  pose proof (lookup_lt_Some _ _ _ Hrow) as Hi.
  pose proof (lookup_lt_Some _ _ _ Hq) as Hj.
  rewrite Forall_lookup in Hrows. pose proof (Hrows _ _ Hrow) as Hrl.
  rewrite mask_undirected_rows.
  erewrite mget_row; last first.
  { rewrite (fold_seq_lookup 0 (fun i M => alter (row_mask mask L i) i M)
               (fun i o => row_mask mask L i <$> o)).
    - rewrite decide_True by lia. replace (i - 0)%nat with i by lia.
      change (map ?f sent) with (f <$> sent). rewrite list_lookup_fmap, Hrow.
      done.
    - intros k l y Hy. apply list_lookup_alter_ne. lia.
    - intros k l. apply list_lookup_alter_eq. }
  rewrite row_mask_lookup by (rewrite length_map; lia).
  change (map W row) with (W <$> row). rewrite list_lookup_fmap, Hq.
  by repeat case_match.
Qed.

Lemma mask_undirected_shape (mask : list bool) (sent : list (list Q)) (L : nat) :
  square sent L ->
  length (mask_undirected mask L (map (map W) sent)) = L /\
  Forall (fun row => length row = L) (mask_undirected mask L (map (map W) sent)).
Proof.
  intros [Hlen Hrows]. rewrite mask_undirected_rows.
  apply (fold_left_invariant
           (fun M : list (list weight) =>
              length M = L /\ Forall (fun row => length row = L) M)).
  - split; [by rewrite length_map|].
    apply List.Forall_forall. intros row Hrow.
    apply in_map_iff in Hrow as (r0 & <- & Hin). rewrite length_map.
    rewrite List.Forall_forall in Hrows. by apply Hrows.
  - intros M i [H1 H2]. split; [by rewrite length_alter|].
    apply Forall_alter; [done|]. intros row _ Hr. unfold row_mask.
    apply (fold_left_invariant (fun r : list weight => length r = L)); [done|].
    intros r j Hrl. unfold cell_mask. repeat case_match; by rewrite ?length_insert.
Qed.

(** ** The edges scipy reads from a dense matrix *)

Lemma elem_of_csgraph_from_dense (M : list (list weight)) (i j : nat) (q : Q) :
  (i, j, q) ∈ csgraph_from_dense M <->
  exists w, mget M i j = Some w /\ edge_weight w = Some q.
Proof.
  unfold csgraph_from_dense. rewrite list_elem_of_In, in_concat. split.
  - intros (es & Hes & Hin).
    apply list_elem_of_In, elem_of_lookup_imap in Hes as (i' & row & -> & Hrow).
    apply list_elem_of_In, list_elem_of_omap in Hin as (o & Ho & Hsome).
    simpl in Hsome. subst o.
    apply elem_of_lookup_imap in Ho as (j' & w & Hw & Hj).
    destruct (edge_weight w) as [q'|] eqn:Ew; [|done].
    simpl in Hw. injection Hw as -> -> ->.
    exists w. split; [|done]. unfold mget. by rewrite Hrow.
  - intros (w & Hw & Ew). unfold mget in Hw.
    destruct (M !! i) as [row|] eqn:Hrow; [|done]. simpl in Hw.
    eexists. split.
    + apply list_elem_of_In. by eapply elem_of_lookup_imap_2.
    + apply list_elem_of_In, list_elem_of_omap. exists (Some (i, j, q)).
      split; [|done].
      apply elem_of_lookup_imap. exists j, w. split; [|done]. by rewrite Ew.
Qed.

Lemma elem_of_insert_edge (e e' : edge) (sorted : list edge) :
  e' ∈ insert_edge e sorted <-> e' = e \/ e' ∈ sorted.
Proof.
  induction sorted as [|x sorted IH]; simpl.
  - rewrite list_elem_of_singleton. split; [auto|]. intros [?|H]; [done|inversion H].
  - destruct (Qle_bool _ _).
    + by rewrite elem_of_cons.
    + rewrite !elem_of_cons, IH. tauto.
Qed.

Lemma elem_of_argsort_edges (e : edge) (es : list edge) :
  e ∈ argsort_edges es <-> e ∈ es.
Proof.
  unfold argsort_edges. induction es as [|x es IH]; simpl; [done|].
  by rewrite elem_of_insert_edge, elem_of_cons, IH.
Qed.

(** ** Tokens that are not punctuation *)

Lemma elem_of_content_tokens_from (mask : list bool) (i t : nat) :
  t ∈ content_tokens_from i mask <->
  exists r, t = (i + r)%nat /\ mask !! r = Some false.
Proof.
  revert i. induction mask as [|b mask IH]; intros i; simpl.
  - split; [intros H; inversion H | intros (r & _ & H); done].
  - destruct b.
    + rewrite IH. split.
      * intros (r & -> & Hr). exists (S r). split; [lia|done].
      * intros (r & -> & Hr). destruct r as [|r]; [done|].
        exists r. split; [lia|done].
    + rewrite elem_of_cons, IH. split.
      * intros [->|(r & -> & Hr)].
        -- exists 0%nat. split; [lia|done].
        -- exists (S r). split; [lia|done].
      * intros (r & -> & Hr). destruct r as [|r].
        -- left; lia.
        -- right. exists r. split; [lia|done].
Qed.

Lemma content_tokens_from_NoDup (mask : list bool) (i : nat) :
  NoDup (content_tokens_from i mask).
Proof.
  revert i. induction mask as [|b mask IH]; intros i; simpl; [constructor|].
  destruct b; [apply IH|]. constructor; [|apply IH].
  rewrite elem_of_content_tokens_from. intros (r & ? & _). lia.
Qed.

Lemma content_tokens_from_length (mask : list bool) (i : nat) :
  length (content_tokens_from i mask) = non_punctuation mask.
Proof.
  unfold non_punctuation. revert i.
  induction mask as [|b mask IH]; intros i; simpl; [done|]. destruct b.
  - rewrite filter_cons_False by done. apply IH.
  - rewrite filter_cons_True by done. simpl. f_equal. apply IH.
Qed.

Lemma elem_of_content_tokens (mask : list bool) (t : nat) :
  t ∈ content_tokens mask <-> (t < length mask)%nat /\ punct mask t = false.
Proof.
  unfold content_tokens. rewrite elem_of_content_tokens_from. unfold punct.
  split.
  - intros (r & -> & Hr). simpl. rewrite Hr. split; [|done].
    by eapply lookup_lt_Some.
  - intros [Hlt Hp]. exists t. split; [done|].
    destruct (lookup_lt_is_Some_2 mask t Hlt) as [b Hb].
    rewrite Hb in Hp |- *. simpl in Hp. by subst b.
Qed.

(** ** [UASReporter.undirected_tree] *)

Lemma square_cell (sent : list (list Q)) (L i j : nat) :
  square sent L -> (i < L)%nat -> (j < L)%nat -> exists q, mget sent i j = Some q.
Proof.
  intros [Hlen Hrows] Hi Hj.
  destruct (lookup_lt_is_Some_2 sent i) as [row Hrow]; [lia|].
  rewrite Forall_lookup in Hrows. pose proof (Hrows _ _ Hrow) as Hr.
  destruct (lookup_lt_is_Some_2 row j) as [d Hd]; [lia|].
  exists d. unfold mget. rewrite Hrow. done.
Qed.

(** The edges read from the masked matrix: the non-zero entries of the
    upper half (diagonal included) between non-punctuation tokens. *)
Lemma masked_edge (mask : list bool) (sent : list (list Q)) (L i j : nat) (q : Q) :
  square sent L ->
  (i, j, q) ∈ csgraph_from_dense (mask_undirected mask L (map (map W) sent)) <->
  (i < L)%nat /\ (j < L)%nat /\ punct mask i = false /\ punct mask j = false /\
  (i <= j)%nat /\ mget sent i j = Some q /\ Qeq_bool q 0 = false.
Proof.
  intros Hsq. rewrite elem_of_csgraph_from_dense.
  destruct (mask_undirected_shape mask sent L Hsq) as [Hlen Hrows].
  split.
  - intros (w & Hw & Ew).
    destruct (mget_range _ L i j w Hlen Hrows Hw) as [Hi Hj].
    destruct (square_cell sent L i j Hsq Hi Hj) as [q0 Hq0].
    rewrite (mask_undirected_cell mask sent L i j q0 Hsq Hq0) in Hw.
    injection Hw as <-.
    destruct (punct mask i); [done|]. destruct (punct mask j); [done|].
    cbn [orb] in Ew. destruct (Nat.ltb_spec j i); [done|].
    simpl in Ew. destruct (Qeq_bool q0 0) eqn:Ez; [done|].
    injection Ew as <-. split_and!; (done || lia).
  - intros (Hi & Hj & Hpi & Hpj & Hij & Hq & Hz).
    eexists. split; [by apply mask_undirected_cell|].
    rewrite Hpi, Hpj. cbn [orb].
    destruct (Nat.ltb_spec j i); [lia|]. simpl. by rewrite Hz.
Qed.

Lemma rtsc_adjacent (R : nat -> nat -> Prop) (es : list edge) (u v : nat) :
  (forall x y, R x y -> adjacent es x y) ->
  rtsc R u v -> rtsc (adjacent es) u v.
Proof.
  intros Hsub Huv. induction Huv as [|x y z Hxy _ IH]; [done|].
  eapply rtc_l; [|exact IH]. destruct Hxy as [H|H]; [left|right]; auto.
Qed.

Lemma edge_pair_inj : Inj (=) (=) (fun rc : nat * nat => (S rc.2, S rc.1)).
Proof. intros [a b] [c d] [= -> ->]. done. Qed.

(** One decoded edge set: what the scan returns on the masked matrix. *)
Lemma undirected_edges_spec (mask : list bool) (sent : list (list Q)) (L : nat) :
  length mask = L -> square sent L ->
  one_based_pairs mask L (undirected_edges mask L sent) /\
  (forall i j q, mget sent i j = Some q -> Qeq_bool q 0 = true ->
                 (S j, S i) ∉ undirected_edges mask L sent) /\
  ((1 <= non_punctuation mask)%nat ->
   connected_tokens (nonzero_entry mask sent) mask L ->
   size (undirected_edges mask L sent) = (non_punctuation mask - 1)%nat).
Proof.
  intros Hmask Hsq.
  destruct (mask_undirected_shape mask sent L Hsq) as [Hlen _].
  unfold undirected_edges, minimum_spanning_tree. rewrite Hlen.
  set (es := argsort_edges
               (csgraph_from_dense (mask_undirected mask L (map (map W) sent)))).
  assert (Hes : forall i j q, (i, j, q) ∈ es <->
            (i < L)%nat /\ (j < L)%nat /\ punct mask i = false /\
            punct mask j = false /\ (i <= j)%nat /\
            mget sent i j = Some q /\ Qeq_bool q 0 = false).
  { intros i j q. unfold es. rewrite elem_of_argsort_edges. by apply masked_edge. }
  assert (Hnodes : Forall (edge_on_nodes (content_tokens mask)) es).
  { apply Forall_forall. intros [[i j] q] He. apply Hes in He
      as (Hi & Hj & Hpi & Hpj & _).
    split; apply elem_of_content_tokens; simpl; split; (done || lia). }
  destruct (kruskal_kept (content_tokens mask) L
              (content_tokens_from_NoDup mask 0)
              ltac:(intros v Hv; apply elem_of_content_tokens in Hv; lia)
              es Hnodes) as (Hkept & Hnd & Hcount).
  assert (Hpair : forall a b,
            (a, b) ∈ edge_pairs (map fst (kruskal L es)) <->
            exists i j q, a = S j /\ b = S i /\ (i, j, q) ∈ kruskal L es).
  { intros a b. unfold edge_pairs. rewrite elem_of_list_to_set.
    change (map ?f ?l) with (f <$> l). rewrite list_elem_of_fmap. split.
    - intros ([i j] & [= -> ->] & Hrc).
      apply list_elem_of_fmap in Hrc as ([[i' j'] q] & [= <- <-] & He).
      exists i, j, q. done.
    - intros (i & j & q & -> & -> & He). exists (i, j). split; [done|].
      apply list_elem_of_fmap. exists (i, j, q). done. }
  split_and!.
  - intros a b Hab. apply Hpair in Hab as (i & j & q & -> & -> & He).
    destruct (Hkept _ He) as [Hin Hne]. simpl in Hne.
    apply Hes in Hin as (Hi & Hj & Hpi & Hpj & Hij & _).
    exists i, j. split_and!; (done || lia).
  - intros i j q Hq Hz Hin. apply Hpair in Hin as (i' & j' & q' & [= <-] & [= <-] & He).
    destruct (Hkept _ He) as [Hin _].
    apply Hes in Hin as (_ & _ & _ & _ & _ & Hq' & Hz'). congruence.
  - intros HN Hconn. unfold edge_pairs.
    rewrite size_list_to_set; last first.
    { change (map ?f ?l) with (f <$> l).
      apply (NoDup_fmap_2 (fun rc : nat * nat => (S rc.2, S rc.1))
               (Inj0 := edge_pair_inj)).
      exact Hnd. }
    rewrite !length_map.
    assert (Hlenn : length (content_tokens mask) = non_punctuation mask)
      by apply content_tokens_from_length.
    assert (S (length (kruskal L es)) = length (content_tokens mask)); [|rewrite <- Hlenn, <- H; simpl; by rewrite Nat.sub_0_r].
    apply Hcount.
    + intros Hnil. rewrite Hnil in Hlenn. simpl in Hlenn. lia.
    + intros u v Hu Hv. apply elem_of_content_tokens in Hu as [Hu Hpu].
      apply elem_of_content_tokens in Hv as [Hv Hpv].
      apply (rtsc_adjacent (nonzero_entry mask sent)).
      * intros x y (Hxy & Hpx & Hpy & q & Hq & Hz). exists q. apply Hes.
        destruct Hsq as [Hl Hr].
        destruct (mget_range sent L x y q Hl Hr Hq) as [Hx Hy].
        split_and!; (done || lia).
      * apply Hconn; (done || lia).
Qed.

(** C3, as the code has it: when the non-punctuation tokens (at least
    one) are connected by the finite, non-zero entries of the kept
    upper half of a matrix, the edge set decoded from that matrix has
    exactly N-1 edges; this holds for the predicted and for the gold
    matrix separately, and every decoded edge is a 1-based pair of two
    different non-punctuation tokens. *)
Theorem undirected_tree_edges (mask : list bool)
    (sent_predicted sent_gold : list (list Q)) (L : nat) :
  length mask = L ->
  square sent_predicted L ->
  square sent_gold L ->
  (1 <= non_punctuation mask)%nat ->
  (connected_tokens (nonzero_entry mask sent_predicted) mask L ->
   size (undirected_tree mask sent_predicted sent_gold L).1
   = (non_punctuation mask - 1)%nat) /\
  (connected_tokens (nonzero_entry mask sent_gold) mask L ->
   size (undirected_tree mask sent_predicted sent_gold L).2
   = (non_punctuation mask - 1)%nat) /\
  one_based_pairs mask L (undirected_tree mask sent_predicted sent_gold L).1 /\
  one_based_pairs mask L (undirected_tree mask sent_predicted sent_gold L).2.
Proof.
  intros Hmask Hsp Hsg HN. unfold undirected_tree. simpl.
  destruct (undirected_edges_spec mask sent_predicted L Hmask Hsp) as (P1 & _ & P3).
  destruct (undirected_edges_spec mask sent_gold L Hmask Hsg) as (G1 & _ & G3).
  split_and!; auto.
Qed.

Lemma square_path3 : square path3 3.
Proof. split; [done|]. repeat constructor. Defined.

Lemma undirected_tree_edges_witness :
  (connected_tokens (nonzero_entry no_punct3 path3) no_punct3 3 ->
   size (undirected_tree no_punct3 path3 path3 3).1
   = (non_punctuation no_punct3 - 1)%nat) /\
  (connected_tokens (nonzero_entry no_punct3 path3) no_punct3 3 ->
   size (undirected_tree no_punct3 path3 path3 3).2
   = (non_punctuation no_punct3 - 1)%nat) /\
  one_based_pairs no_punct3 3 (undirected_tree no_punct3 path3 path3 3).1 /\
  one_based_pairs no_punct3 3 (undirected_tree no_punct3 path3 path3 3).2.
Proof.
  apply (undirected_tree_edges no_punct3 path3 path3 3).
  - reflexivity.
  - exact square_path3.
  - exact square_path3.
  - vm_compute. lia.
Defined.

(** C3 as stated fails: two tokens at distance exactly zero are
    connected over the finite entries, yet no edge is decoded. *)
Lemma undirected_tree_counterexample :
  connected_tokens (finite_entry [false; false] zero2) [false; false] 2 /\
  non_punctuation [false; false] = 2%nat /\
  size (undirected_tree [false; false] zero2 zero2 2).1 = 0%nat /\
  size (undirected_tree [false; false] zero2 zero2 2).2 = 0%nat.
Proof.
  split_and!; [|reflexivity|reflexivity|reflexivity].
  assert (H01 : finite_entry [false; false] zero2 0 1).
  { split_and!; [lia|done|done|]. by exists 0%Q. }
  intros u v Hu Hv _ _.
  destruct u as [|[|u]], v as [|[|v]]; try lia.
  - done.
  - by apply rtsc_lr.
  - by apply rtsc_rl.
  - done.
Qed.

(** C9: an entry that is exactly zero is never an edge of the decoded
    tree, for the predicted and for the gold matrix alike; and there is
    a sentence without punctuation whose distances are all finite, with
    zero off the diagonal, for which fewer than N-1 edges are decoded. *)
Theorem zero_distance_is_no_edge :
  (forall (mask : list bool) (sent_predicted sent_gold : list (list Q))
          (L i j : nat) (q : Q),
     length mask = L -> square sent_predicted L -> square sent_gold L ->
     (mget sent_predicted i j = Some q -> (q == 0)%Q ->
      (S j, S i) ∉ (undirected_tree mask sent_predicted sent_gold L).1) /\
     (mget sent_gold i j = Some q -> (q == 0)%Q ->
      (S j, S i) ∉ (undirected_tree mask sent_predicted sent_gold L).2)) /\
  (exists (mask : list bool) (sent : list (list Q)) (L : nat),
     length mask = L /\ square sent L /\ non_punctuation mask = L /\
     (exists i j, (i < j < L)%nat /\ mget sent i j = Some 0%Q) /\
     (size (undirected_tree mask sent sent L).1 < non_punctuation mask - 1)%nat).
Proof.
  split.
  - intros mask sp sg L i j q Hmask Hsp Hsg.
    destruct (undirected_edges_spec mask sp L Hmask Hsp) as (_ & P2 & _).
    destruct (undirected_edges_spec mask sg L Hmask Hsg) as (_ & G2 & _).
    split; intros Hq Hz; [apply (P2 i j q Hq)|apply (G2 i j q Hq)];
      by apply Qeq_bool_iff.
  - exists no_punct3, zero3, 3%nat. split_and!.
    + reflexivity.
    + split; [done|]. repeat constructor.
    + reflexivity.
    + exists 0%nat, 1%nat. split; [lia|reflexivity].
    + vm_compute. lia.
Qed.

Lemma zero_distance_is_no_edge_witness :
  (mget zero3 0 1 = Some 0%Q -> (0 == 0)%Q ->
   (2%nat, 1%nat) ∉ (undirected_tree no_punct3 zero3 path3 3).1) /\
  (mget path3 0 1 = Some 0%Q -> (0 == 0)%Q ->
   (2%nat, 1%nat) ∉ (undirected_tree no_punct3 zero3 path3 3).2).
Proof.
  apply (proj1 zero_distance_is_no_edge no_punct3 zero3 path3 3%nat 0%nat 1%nat 0%Q).
  - reflexivity.
  - split; [done|]. repeat constructor.
  - exact square_path3.
Defined.

(** ** [SelectedDimensionalityReporter.compute] *)

Lemma runs_ok_bind {S A B} (m : action S A) (k : A -> action S B) (s : S)
    (mid : A -> S -> Prop) (post : B -> S -> Prop) :
  runs_ok m s mid ->
  (forall a s', mid a s' -> runs_ok (k a) s' post) ->
  runs_ok (bind m k) s post.
Proof.
  intros (a & s' & Hm & Hmid) Hk. destruct (Hk a s' Hmid) as (b & s'' & Hb & Hpost).
  exists b, s''. split; [|done]. unfold bind. by rewrite Hm.
Qed.

Lemma runs_ok_step {S A B} (m : action S A) (k : A -> action S B) (s s1 : S)
    (a : A) (post : B -> S -> Prop) :
  m s = (Ok a, s1) -> runs_ok (k a) s1 post -> runs_ok (bind m k) s post.
Proof.
  intros Hm (b & s2 & Hk & Hpost). exists b, s2. split; [|done].
  unfold bind. by rewrite Hm.
Qed.

Lemma runs_ok_weaken {S A} (m : action S A) (s : S) (P Q : A -> S -> Prop) :
  runs_ok m s P -> (forall a s', P a s' -> Q a s') -> runs_ok m s Q.
Proof. intros (a & s' & Hm & HP) H. exists a, s'. auto. Qed.

(** A loop whose iterations all run to their end and carry the
    invariant from the elements done so far to one more. *)
Lemma for_each_runs_ok {S A} (I : list A -> S -> Prop) (xs : list A)
    (body : A -> action S unit) :
  (forall pre x post s, xs = pre ++ x :: post -> I pre s ->
     runs_ok (body x) s (fun _ s' => I (pre ++ [x]) s')) ->
  forall s, I [] s -> runs_ok (for_each xs body) s (fun _ s' => I xs s').
Proof.
  intros Hbody.
  assert (H : forall post pre s, xs = pre ++ post -> I pre s ->
            runs_ok (for_each post body) s (fun _ s' => I xs s')).
  { induction post as [|x post IH]; intros pre s Hxs Hpre; simpl.
    - exists tt, s. rewrite app_nil_r in Hxs. by subst.
    - eapply runs_ok_bind; [by eapply Hbody|].
      intros [] s' Hs'. apply (IH (pre ++ [x])); [|done].
      by rewrite <- app_assoc. }
  intros s Hs. by apply (H xs []).
Qed.

Lemma mset_shape {A} (T i j : nat) (v : A) (M : list (list A)) :
  length M = T /\ Forall (fun row => length row = T) M ->
  length (mset i j v M) = T /\ Forall (fun row => length row = T) (mset i j v M).
Proof.
  intros [H1 H2]. unfold mset. split; [by rewrite length_alter|].
  apply Forall_alter; [done|]. intros row _ Hr. by rewrite length_insert.
Qed.

Lemma mget_mset {A} (T i j x y : nat) (v : A) (M : list (list A)) :
  length M = T /\ Forall (fun row => length row = T) M ->
  (i < T)%nat -> (j < T)%nat ->
  mget (mset i j v M) x y =
  if decide (i = x /\ j = y) then Some v else mget M x y.
Proof.
  intros [H1 H2] Hi Hj. unfold mset. rewrite mget_alter_row.
  destruct (decide (i = x)) as [->|Hne].
  - destruct (lookup_lt_is_Some_2 M x) as [row Hrow]; [lia|].
    rewrite Forall_lookup in H2. pose proof (H2 _ _ Hrow) as Hr.
    rewrite Hrow. simpl. destruct (decide (j = y)) as [->|Hne].
    + rewrite decide_True by done. apply list_lookup_insert_eq. lia.
    + rewrite decide_False by (intros [_ ?]; done).
      rewrite list_lookup_insert_ne by done. unfold mget. by rewrite Hrow.
  - rewrite decide_False by (intros [? _]; done). done.
Qed.

Lemma np_zeros_shape (T : nat) :
  length (np_zeros T) = T /\ Forall (fun row => length row = T) (np_zeros T).
Proof.
  unfold np_zeros. split; [apply length_replicate|].
  apply Forall_replicate. apply length_replicate.
Qed.

(** The sum of the elementwise product of two 0/1 vectors counts the
    dimensions where both are 1. *)
Lemma np_sum_product (gi gj : list Z) :
  Forall zero_one gi -> Forall zero_one gj ->
  np_sum (zip_with Z.mul gi gj) = both_true gi gj.
Proof.
  unfold both_true. intros Hi. revert gj.
  induction Hi as [|x gi Hx _ IH]; intros gj Hj; [done|].
  destruct Hj as [|y gj Hy Hj]; [done|]. simpl.
  rewrite (IH gj Hj).
  destruct Hx as [-> | ->], Hy as [-> | ->].
  - rewrite filter_cons_False by (simpl; intros [? _]; done). simpl. lia.
  - rewrite filter_cons_False by (simpl; intros [? _]; done). simpl. lia.
  - rewrite filter_cons_False by (simpl; intros [_ ?]; done). simpl. lia.
  - rewrite filter_cons_True by done. simpl. lia.
Qed.

Lemma both_true_comm (gi gj : list Z) : both_true gi gj = both_true gj gi.
Proof.
  unfold both_true. f_equal. revert gj.
  induction gi as [|x gi IH]; intros [|y gj]; simpl; try done.
  destruct (decide (x = 1 /\ y = 1)) as [H|H].
  - rewrite !filter_cons_True by (simpl; tauto). simpl. by rewrite IH.
  - rewrite !filter_cons_False by (simpl; tauto). apply IH.
Qed.

Lemma both_true_self (g : list Z) : both_true g g = true_count g.
Proof.
  unfold both_true, true_count. f_equal.
  induction g as [|x g IH]; simpl; [done|].
  destruct (decide (x = 1)) as [H|H].
  - rewrite !filter_cons_True by (simpl; tauto). simpl. by rewrite IH.
  - rewrite !filter_cons_False by (simpl; tauto). apply IH.
Qed.

Lemma get_embedding_gate_zero_one (net : probe_weights) (self : reporter_args)
    (task : string) (p : Z) (g : list Z) :
  get_embedding_gate net self task p = Ok g -> Forall zero_one g.
Proof.
  unfold get_embedding_gate. intros H.
  apply rbind_Ok in H as (w & _ & H). apply rbind_Ok in H as (thr & _ & [= <-]).
  destruct (truthyZ _).
  - unfold drop_part. apply zero_dims_zero_one, threshold_gate_zero_one.
  - apply threshold_gate_zero_one.
Qed.

Lemma tf_multiply_same_length (a b : list Z) :
  length a = length b -> tf_multiply a b = Ok (zip_with Z.mul a b).
Proof. intros H. unfold tf_multiply. by rewrite H, Nat.eqb_refl. Qed.

Lemma enumerate_split {A} (l : list A) (pre post : list (nat * A)) (x : nat * A) :
  enumerate l = pre ++ x :: post ->
  x.1 = length pre /\ l !! length pre = Some x.2.
Proof.
  intros H. assert (Hx : enumerate l !! length pre = Some x).
  { rewrite H. by rewrite list_lookup_middle. }
  unfold enumerate in Hx. rewrite list_lookup_imap in Hx.
  destruct (l !! length pre) as [y|]; [|done]. simpl in Hx.
  injection Hx as <-. done.
Qed.

Lemma seq_split (n : nat) (pre post : list nat) (x : nat) :
  seq 0 n = pre ++ x :: post -> x = length pre /\ (x < n)%nat.
Proof.
  intros H. assert (Hx : seq 0 n !! length pre = Some x).
  { rewrite H. by rewrite list_lookup_middle. }
  apply lookup_seq in Hx. lia.
Qed.

Section SelectedDims.

Variable net : probe_weights.
Variable self : reporter_args.
Variable tasks : list string.
Variable gates : list (list Z).
Variable D : nat.
Hypothesis gates_of_tasks :
  Forall2 (fun task g => get_embedding_gate net self task 0 = Ok g) tasks gates.
Hypothesis gates_length : Forall (fun g => length g = D) gates.

Lemma gate_at_lookup (i : nat) :
  (i < length tasks)%nat ->
  exists task, tasks !! i = Some task /\
    get_embedding_gate net self task 0 = Ok (gate_at gates i) /\
    length (gate_at gates i) = D /\ Forall zero_one (gate_at gates i).
Proof.
  intros Hi. destruct (lookup_lt_is_Some_2 tasks i Hi) as [task Htask].
  destruct (Forall2_lookup_l _ _ _ _ _ gates_of_tasks Htask) as (g & Hg & Hgate).
  unfold gate_at. rewrite Hg. simpl. exists task. split_and!; [done|done| |].
  - rewrite Forall_lookup in gates_length. by apply (gates_length i).
  - by eapply get_embedding_gate_zero_one.
Qed.

Lemma overlap_step_ok (language : string) (dm0 : gmap string (list (list Z)))
    (idx b : nat) (st : sd_state) :
  (b <= idx)%nat -> (idx < length tasks)%nat ->
  selected_ok gates (idx + 1) st ->
  filling gates (length tasks) language dm0 idx b st ->
  runs_ok (overlap_step language idx b) st
    (fun _ st' => selected_ok gates (idx + 1) st' /\
                  filling gates (length tasks) language dm0 idx (b + 1) st').
Proof.
  intros Hb Hidx Hsel (Hframe & M & HM & Hshape & Hdone & Hrow).
  destruct (gate_at_lookup idx Hidx) as (_ & _ & _ & Hli & Hzi).
  destruct (gate_at_lookup b ltac:(lia)) as (_ & _ & _ & Hlb & Hzb).
  set (d := both_true (gate_at gates idx) (gate_at gates b)).
  set (M2 := mset b idx d (mset idx b d M)).
  exists tt, {| dimension_matrices := <[language := M2]> (dimension_matrices st);
               selected_dims := selected_dims st |}.
  split.
  - unfold overlap_step, bind, get_selected, get_matrix, set_matrix, lift.
    rewrite (Hsel idx) by lia. simpl. rewrite (Hsel b) by lia. simpl.
    rewrite tf_multiply_same_length by congruence. simpl.
    rewrite np_sum_product by done. fold d.
    rewrite HM. simpl. rewrite lookup_insert_eq. simpl.
    rewrite insert_insert_eq. done.
  - split; [done|]. split; simpl.
    + intros l Hl. rewrite lookup_insert_ne by done. by apply Hframe.
    + exists M2. rewrite lookup_insert_eq. split; [done|].
      pose proof (mset_shape (length tasks) idx b d M Hshape) as Hshape1.
      split; [by apply mset_shape|].
      assert (Hcell : forall x y, mget M2 x y =
                if decide (b = x /\ idx = y) then Some d
                else if decide (idx = x /\ b = y) then Some d else mget M x y).
      { intros x y. unfold M2.
        rewrite (mget_mset (length tasks)) by (done || lia).
        case_decide; [done|].
        by rewrite (mget_mset (length tasks)) by (done || lia). }
      assert (Hd' : d = both_true (gate_at gates b) (gate_at gates idx))
        by apply both_true_comm.
      split.
      * intros i j Hi Hj. unfold cell_ok. rewrite Hcell.
        rewrite decide_False by lia. rewrite decide_False by lia.
        by apply Hdone.
      * intros j Hj. unfold cell_ok. rewrite !Hcell.
        destruct (decide (j = b)) as [->|Hne].
        -- split.
           ++ case_decide; [done|]. by rewrite decide_True by done.
           ++ rewrite decide_True by done. by rewrite Hd'.
        -- destruct (Hrow j ltac:(lia)) as [H1 H2].
           split; repeat (rewrite decide_False by lia); done.
Qed.

Lemma task_step_ok (language : string) (dm0 : gmap string (list (list Z)))
    (idx : nat) (task : string) (st : sd_state) :
  tasks !! idx = Some task ->
  selected_ok gates idx st ->
  filling gates (length tasks) language dm0 idx 0 st ->
  runs_ok (task_step net self language (idx, task)) st
    (fun _ st' => selected_ok gates (idx + 1) st' /\
                  filling gates (length tasks) language dm0 (idx + 1) 0 st').
Proof.
  intros Htask Hsel Hfill.
  pose proof (lookup_lt_Some _ _ _ Htask) as Hidx.
  destruct (gate_at_lookup idx Hidx) as (task' & Htask' & Hgate & _).
  assert (task' = task) as -> by congruence.
  unfold task_step. simpl.
  eapply runs_ok_step; [unfold lift; by rewrite Hgate|].
  eapply runs_ok_step; [reflexivity|].
  set (st1 := {| dimension_matrices := dimension_matrices st;
                 selected_dims := <[idx := gate_at gates idx]> (selected_dims st) |}).
  assert (Hsel1 : selected_ok gates (idx + 1) st1).
  { intros i Hi. simpl. destruct (decide (i = idx)) as [->|Hne].
    - by rewrite lookup_insert_eq.
    - rewrite lookup_insert_ne by done. apply Hsel. lia. }
  eapply runs_ok_weaken.
  - apply (for_each_runs_ok
             (fun pre s => selected_ok gates (idx + 1) s /\
                           filling gates (length tasks) language dm0 idx
                                   (length pre) s)).
    + intros pre x post s Hsplit [Hs Hf].
      apply seq_split in Hsplit as [-> Hlt].
      rewrite length_app. simpl.
      apply overlap_step_ok; (done || lia).
    + split; [done|]. exact Hfill.
  - intros [] s' [Hs' (Hframe & M & HM & Hshape & Hdone & Hrow)].
    rewrite length_seq in Hrow. split; [done|].
    split; [done|]. exists M. split_and!; [done|done| |intros j Hj; lia].
    intros i j Hi Hj.
    destruct (decide (i = idx)) as [->|Hni].
    + by apply Hrow.
    + destruct (decide (j = idx)) as [->|Hnj].
      * by apply Hrow.
      * apply Hdone; lia.
Qed.

Lemma language_step_ok (language : string) (st : sd_state) :
  runs_ok (set_matrix language (np_zeros (length tasks)) ;;;
           reset_selected_dims ;;;
           for_each (enumerate tasks) (task_step net self language)) st
    (fun _ st' =>
       filling gates (length tasks) language (dimension_matrices st)
               (length tasks) 0 st').
Proof.
  eapply runs_ok_step; [reflexivity|].
  eapply runs_ok_step; [reflexivity|]. simpl.
  eapply runs_ok_weaken.
  - apply (for_each_runs_ok
             (fun pre s => selected_ok gates (length pre) s /\
                           filling gates (length tasks) language
                                   (dimension_matrices st) (length pre) 0 s)).
    + intros pre [idx task] post s Hsplit [Hs Hf].
      apply enumerate_split in Hsplit as [Hidx Htask]. simpl in Hidx, Htask.
      rewrite length_app. simpl. rewrite <- Hidx in *.
      by apply task_step_ok.
    + split; [intros i Hi; simpl in Hi; lia|]. split; simpl.
      * intros l Hl. by rewrite lookup_insert_ne.
      * exists (np_zeros (length tasks)). rewrite lookup_insert_eq.
        split_and!; [done|apply np_zeros_shape|intros; lia|intros; lia].
  - intros [] s' [_ Hf]. unfold enumerate in Hf. by rewrite length_imap in Hf.
Qed.

(** C5: with the gate of every task defined and all gates of one
    length, [compute] runs to its end, and for every requested language
    the stored matrix holds in cell (i, j) the number of dimensions
    where the gates of tasks i and j are both 1; the matrix is
    symmetric, and its diagonal holds each gate's number of true
    entries. *)
Theorem selected_dimensionality_matrix (languages : list string) (st : sd_state) :
  exists st',
    SelectedDimensionalityReporter_compute net self languages tasks st
      = (Ok tt, st') /\
    forall language, language ∈ languages ->
      exists M, dimension_matrices st' !! language = Some M /\
        forall i j gi gj,
          gates !! i = Some gi -> gates !! j = Some gj ->
          mget M i j = Some (both_true gi gj) /\
          mget M i j = mget M j i /\
          mget M i i = Some (true_count gi).
Proof.
  set (complete := fun M : list (list Z) =>
         forall i j, (i < length tasks)%nat -> (j < length tasks)%nat ->
                     cell_ok gates M i j).
  assert (Hrun : runs_ok
            (SelectedDimensionalityReporter_compute net self languages tasks) st
            (fun _ st' => forall l, l ∈ languages ->
               exists M, dimension_matrices st' !! l = Some M /\ complete M)).
  { unfold SelectedDimensionalityReporter_compute.
    apply (for_each_runs_ok
             (fun pre s => forall l, l ∈ pre ->
                exists M, dimension_matrices s !! l = Some M /\ complete M)).
    - intros pre language post s _ Hpre.
      eapply runs_ok_weaken; [apply language_step_ok|].
      intros [] s' (Hframe & M & HM & _ & Hdone & _) l Hl.
      destruct (decide (l = language)) as [->|Hne].
      + exists M. done.
      + rewrite (Hframe l Hne). apply Hpre.
        apply elem_of_app in Hl as [Hl|Hl]; [done|].
        by apply list_elem_of_singleton in Hl.
    - intros l Hl. inversion Hl. }
  destruct Hrun as ([] & st' & Hrun & Hpost). exists st'. split; [done|].
  intros language Hlang. destruct (Hpost language Hlang) as (M & HM & Hcomplete).
  exists M. split; [done|]. intros i j gi gj Hgi Hgj.
  pose proof (Forall2_length _ _ _ gates_of_tasks) as Hlen.
  pose proof (lookup_lt_Some _ _ _ Hgi) as Hi.
  pose proof (lookup_lt_Some _ _ _ Hgj) as Hj.
  pose proof (Hcomplete i j ltac:(lia) ltac:(lia)) as Hij.
  pose proof (Hcomplete j i ltac:(lia) ltac:(lia)) as Hji.
  pose proof (Hcomplete i i ltac:(lia) ltac:(lia)) as Hii.
  unfold cell_ok, gate_at in Hij, Hji, Hii. rewrite Hgi, Hgj in *. simpl in *.
  split_and!.
  - done.
  - rewrite Hij, Hji. by rewrite both_true_comm.
  - rewrite Hii. by rewrite both_true_self.
Qed.

End SelectedDims.

Lemma selected_dimensionality_matrix_witness :
  exists st',
    SelectedDimensionalityReporter_compute overlap_probes overlap_reporter
      ["en"] ["a_distance"; "b_depth"] empty_sd_state = (Ok tt, st') /\
    forall language, language ∈ ["en"] ->
      exists M, dimension_matrices st' !! language = Some M /\
        forall i j gi gj,
          [[1; 1; 0; 0]; [1; 0; 0; 1]] !! i = Some gi ->
          [[1; 1; 0; 0]; [1; 0; 0; 1]] !! j = Some gj ->
          mget M i j = Some (both_true gi gj) /\
          mget M i j = mget M j i /\
          mget M i i = Some (true_count gi).
Proof.
  apply (selected_dimensionality_matrix overlap_probes overlap_reporter
           ["a_distance"; "b_depth"] [[1; 1; 0; 0]; [1; 0; 0; 1]] 4).
  - repeat constructor.
  - repeat constructor.
Defined.

(** The example of the specification: gates [1,1,0,0] and [1,0,0,1]
    overlap in one dimension and select two dimensions each. *)
Example selected_dimensionality_example :
  dimension_matrices
    (SelectedDimensionalityReporter_compute overlap_probes overlap_reporter
       ["en"] ["a_distance"; "b_depth"] empty_sd_state).2 !! "en"
  = Some [[2; 1]; [1; 2]].
Proof. vm_compute. reflexivity. Qed.

(** * Further properties *)

(** ** [Reporter.get_embedding_gate]: what it can return *)

(** X1: Whatever [drop_parts] and the part are, a gate that is returned has
    the length of the task's probe, holds only 0 and 1, and is 1 only
    at dimensions whose weight exceeds the threshold in absolute value:
    dropping a part switches dimensions off, never on. *)
Theorem get_embedding_gate_never_adds (net : probe_weights)
    (self : reporter_args) (task : string) (p : Z) (gp : list Z) :
  get_embedding_gate net self task p = Ok gp ->
  exists w thr,
    diagonal_probe_of net task = Ok w /\
    _probe_threshold self = Some thr /\
    length gp = length w /\
    Forall zero_one gp /\
    forall i, gp !! i = Some 1 ->
      exists wi, w !! i = Some wi /\ (thr < Qabs wi)%Q.
Proof.
  intros H. pose proof (get_embedding_gate_zero_one _ _ _ _ _ H) as Hzo.
  unfold get_embedding_gate in H.
  apply rbind_Ok in H as (w & Hw & H). apply rbind_Ok in H as (thr & Hthr & [= <-]).
  exists w, thr. split; [done|].
  split; [by destruct (_probe_threshold self) as [t|]; simpl in Hthr; [injection Hthr as ->|]|].
  assert (Hlen : length (threshold_gate thr w) = length w)
    by (unfold threshold_gate; apply length_map).
  assert (Hon : forall i, threshold_gate thr w !! i = Some 1 ->
            exists wi, w !! i = Some wi /\ (thr < Qabs wi)%Q).
  { intros i Hi. unfold threshold_gate in Hi.
    change (map ?f w) with (f <$> w) in Hi. rewrite list_lookup_fmap in Hi.
    destruct (w !! i) as [wi|]; [|done]. simpl in Hi. exists wi. split; [done|].
    destruct (Qle_bool (Qabs wi) thr) eqn:E; [done|].
    apply Qnot_le_lt. intros Hle. apply Qle_bool_iff in Hle. congruence. }
  destruct (truthyZ (_drop_parts self)).
  - unfold drop_part in *. split; [by rewrite zero_dims_length|]. split; [done|].
    intros i Hi. rewrite zero_dims_lookup in Hi. case_decide.
    + by destruct (threshold_gate thr w !! i).
    + by apply Hon.
  - done.
Qed.

Lemma get_embedding_gate_never_adds_witness :
  exists w thr,
    diagonal_probe_of sample_probes "dep_distance" = Ok w /\
    _probe_threshold {| _probe_threshold := Some (1 # 10)%Q;
                        _drop_parts := Some (-3) |} = Some thr /\
    length [0; 0; 0; 0; 1] = length w /\
    Forall zero_one [0; 0; 0; 0; 1] /\
    forall i, [0; 0; 0; 0; 1] !! i = Some 1 ->
      exists wi, w !! i = Some wi /\ (thr < Qabs wi)%Q.
Proof.
  apply (get_embedding_gate_never_adds sample_probes
           {| _probe_threshold := Some (1 # 10)%Q; _drop_parts := Some (-3) |}
           "dep_distance" 0 [0; 0; 0; 0; 1]).
  reflexivity.
Defined.

(** X2: The ways [get_embedding_gate] fails on a probe with at least
    one dimension, and no other: a task of neither type leaves the
    probe unbound, a task missing from its probe's dictionary is a key
    error, and a threshold of [None] cannot be compared with the
    probe's weights.  (A probe without any dimension has no weight to
    compare, and is left out.) *)
Theorem get_embedding_gate_failures (net : probe_weights)
    (self : reporter_args) (task : string) (p : Z) (e : exn) :
  (forall w, diagonal_probe_of net task = Ok w -> w <> []) ->
  get_embedding_gate net self task p = Raise e <->
  (contains "distance" task = false /\ contains "depth" task = false /\
   e = UnboundLocalError) \/
  (contains "distance" task = true /\ DistanceProbe net !! task = None /\
   e = KeyError) \/
  (contains "distance" task = false /\ contains "depth" task = true /\
   DepthProbe net !! task = None /\ e = KeyError) \/
  ((exists w, diagonal_probe_of net task = Ok w /\ w <> []) /\
   _probe_threshold self = None /\ e = TypeError).
Proof.
  intros Hdims. revert Hdims. unfold get_embedding_gate, diagonal_probe_of.
  destruct (contains "distance" task) eqn:Hd;
    [|destruct (contains "depth" task) eqn:Hp]; intros Hdims.
  - destruct (DistanceProbe net !! task) as [w|] eqn:Hw; simpl.
    + destruct (_probe_threshold self) as [thr|]; simpl.
      * split; [done|]. intros [(? & _)|[(_ & ? & _)|[(? & _)|(_ & ? & _)]]]; done.
      * split.
        -- intros [= <-]. right; right; right. split; [|done].
           exists w. split; [done|]. by apply Hdims.
        -- intros [(? & _)|[(_ & ? & _)|[(? & _)|(_ & _ & ->)]]]; done.
    + split.
      * intros [= <-]. right; left. done.
      * intros [(? & _)|[(_ & _ & ->)|[(? & _)|([w' [? _]] & _)]]]; done.
  - destruct (DepthProbe net !! task) as [w|] eqn:Hw; simpl.
    + destruct (_probe_threshold self) as [thr|]; simpl.
      * split; [done|]. intros [(_ & ? & _)|[(? & _)|[(_ & _ & ? & _)|(_ & ? & _)]]]; done.
      * split.
        -- intros [= <-]. right; right; right. split; [|done].
           exists w. split; [done|]. by apply Hdims.
        -- intros [(_ & ? & _)|[(? & _)|[(_ & _ & ? & _)|(_ & _ & ->)]]]; done.
    + split.
      * intros [= <-]. right; right; left. done.
      * intros [(_ & ? & _)|[(? & _)|[(_ & _ & _ & ->)|([w' [? _]] & _)]]]; done.
  - simpl. split.
    + intros [= <-]. left. done.
    + intros [(_ & _ & ->)|[(? & _)|[(_ & ? & _)|([w' [? _]] & _)]]]; done.
Qed.

Lemma get_embedding_gate_failures_witness :
  get_embedding_gate sample_probes plain_reporter "dep_depth" 0
    = Raise TypeError <->
  (contains "distance" "dep_depth" = false /\
   contains "depth" "dep_depth" = false /\ TypeError = UnboundLocalError) \/
  (contains "distance" "dep_depth" = true /\
   DistanceProbe sample_probes !! "dep_depth" = None /\ TypeError = KeyError) \/
  (contains "distance" "dep_depth" = false /\
   contains "depth" "dep_depth" = true /\
   DepthProbe sample_probes !! "dep_depth" = None /\ TypeError = KeyError) \/
  ((exists w, diagonal_probe_of sample_probes "dep_depth" = Ok w /\ w <> []) /\
   _probe_threshold plain_reporter = None /\ TypeError = TypeError).
Proof.
  apply (get_embedding_gate_failures sample_probes plain_reporter "dep_depth" 0
           TypeError).
  intros w Hw. vm_compute in Hw. injection Hw as <-. discriminate.
Defined.

(** ** [Reporter.predict] on a recognized task *)

Lemma run_generator_all_ok {A B} (P : B -> Prop) (step : A -> result B)
    (xs : list A) :
  (forall x, x ∈ xs -> exists y, step x = Ok y /\ P y) ->
  exists ys, run_generator step xs = (ys, Finished) /\
             length ys = length xs /\ Forall P ys.
Proof.
  induction xs as [|x xs IH]; intros H; simpl.
  - exists []. done.
  - destruct (H x) as (y & Hy & HP); [by left|]. rewrite Hy.
    destruct IH as (ys & Hys & Hlen & HPs); [intros z Hz; apply H; by right|].
    rewrite Hys. exists (y :: ys). split_and!; [done|simpl; lia|by constructor].
Qed.

Lemma flat_map_pairs_length {A B} (ps : list A) (bs : list B) :
  length (flat_map (fun p => map (fun b => (p, b)) bs) ps)
  = (length ps * length bs)%nat.
Proof.
  induction ps as [|p ps IH]; simpl; [done|].
  rewrite length_app, length_map. lia.
Qed.

Lemma predict_iterations_length (net : network) (self : reporter_args)
    (lang task : string) :
  length (predict_iterations net self lang task) =
  (Z.to_nat (validation_steps self) * length (data_pipeline net lang task))%nat.
Proof.
  unfold predict_iterations. rewrite flat_map_pairs_length.
  unfold py_range. by rewrite length_map, length_seq.
Qed.

Lemma elem_of_predict_iterations (net : network) (self : reporter_args)
    (lang task : string) (it : Z * batch) :
  it ∈ predict_iterations net self lang task ->
  it.2 ∈ data_pipeline net lang task.
Proof.
  unfold predict_iterations. intros H.
  apply list_elem_of_In, in_flat_map in H as (p & _ & H).
  apply in_map_iff in H as (b & <- & Hb). by apply list_elem_of_In.
Qed.

Lemma zip_slices_rows {A} (arrays : list (ndarray A)) (lens : list nat) :
  exists out, zip_slices slice_rows_ok arrays lens = Ok out /\
              cut_to_length out lens.
Proof.
  revert lens. induction arrays as [|a arrays IH]; intros [|n lens]; simpl;
    try (exists []; split; [done|]; split; [done|]; intros i ? ? H; done).
  destruct (IH lens) as (out & -> & Hlen & Hcut). simpl.
  exists (slice_rows n a :: out). split; [done|]. split; [simpl; lia|].
  intros [|i] a' n' Ha Hn; simpl in *.
  - injection Ha as <-. injection Hn as <-.
    destruct a; simpl; rewrite length_take; lia.
  - by eapply Hcut.
Qed.

Lemma zip_slices_rows_cols {A} (arrays : list (ndarray A)) (lens : list nat) :
  Forall is_matrix arrays ->
  exists out, zip_slices slice_rows_cols arrays lens = Ok out /\
              cut_to_length out lens /\ Forall is_matrix out.
Proof.
  intros Hm. revert lens. induction Hm as [|a arrays Ha _ IH]; intros [|n lens];
    simpl;
    try (exists []; split; [done|]; split; [|done]; split; [done|];
         intros i ? ? H; done).
  destruct a as [v|m]; [done|]. simpl.
  destruct (IH lens) as (out & -> & [Hlen Hcut] & Hmat). simpl.
  eexists. split; [done|]. split; [|by constructor]. split; [simpl; lia|].
  intros [|i] a' n' Ha' Hn; simpl in *.
  - injection Ha' as <-. injection Hn as <-. simpl. rewrite length_take. lia.
  - by eapply Hcut.
Qed.

(** X3: With gating off, or with the task's depth probe present, [predict]
    on a depth-typed task never fails: it yields one tuple per batch and
    pass, [drop_parts] (or 1) passes over the whole pipeline, and every
    yielded array is cut to its sentence's length. *)
Theorem predict_depth_task (net : network) (self : reporter_args)
    (language lang task : string) :
  contains "distance" task = false ->
  contains "depth" task = true ->
  (truthyQ (_probe_threshold self) = true ->
   is_Some (DepthProbe (probes net) !! task)) ->
  exists ys,
    predict net self language lang task = (ys, Finished) /\
    length ys = (Z.to_nat (validation_steps self)
                 * length (data_pipeline net lang task))%nat /\
    Forall prediction_cut ys.
Proof.
  intros Hd Hp Hgate. unfold predict.
  destruct (run_generator_all_ok prediction_cut
              (fun it => predict_batch net self language lang task it.1 it.2)
              (predict_iterations net self lang task)) as (ys & Hys & Hlen & Hcut).
  - intros [part b] _. unfold predict_batch. simpl.
    assert (Hg : exists g,
              (if truthyQ (_probe_threshold self)
               then g <-! get_embedding_gate (probes net) self task part; Ok (Some g)
               else Ok None) = Ok g).
    { destruct (truthyQ (_probe_threshold self)) eqn:Ht; [|eauto].
      destruct (Hgate eq_refl) as [w Hw].
      unfold get_embedding_gate, diagonal_probe_of. rewrite Hd, Hp, Hw. simpl.
      unfold truthyQ in Ht. destruct (_probe_threshold self); [|done].
      simpl. eauto. }
    destruct Hg as [g ->]. simpl. rewrite Hd, Hp.
    destruct (zip_slices_rows
                (depth_predict_on_batch net (batch_num_tokens b)
                   (batch_embeddings b) language task g) (batch_num_tokens b))
      as (pv & -> & Hpv).
    destruct (zip_slices_rows (batch_target b) (batch_num_tokens b))
      as (gv & -> & Hgv).
    destruct (zip_slices_rows (map astype_bool (batch_mask b)) (batch_num_tokens b))
      as (mk & -> & Hmk).
    simpl. eexists. split; [done|]. done.
  - exists ys. split; [done|]. split; [|done].
    by rewrite Hlen, predict_iterations_length.
Qed.

Lemma predict_depth_task_witness :
  exists ys,
    predict sample_net plain_reporter "en" "en" "dep_depth" = (ys, Finished) /\
    length ys = (Z.to_nat (validation_steps plain_reporter)
                 * length (data_pipeline sample_net "en" "dep_depth"))%nat /\
    Forall prediction_cut ys.
Proof.
  apply (predict_depth_task sample_net plain_reporter "en" "en" "dep_depth").
  - reflexivity.
  - reflexivity.
  - intros H. discriminate H.
Defined.

Lemma slice_rows_cols_square {A} (n : nat) (a x : ndarray A) :
  slice_rows_cols n a = Ok x -> within_square n x.
Proof.
  destruct a as [v|m]; simpl; [done|]. intros [= <-]. simpl. split.
  - rewrite length_take. lia.
  - apply Forall_take. change (map ?f ?l) with (f <$> l).
    apply Forall_fmap, Forall_forall. intros row _. simpl.
    rewrite length_take. lia.
Qed.

Lemma zip_slices_square {A} (arrays : list (ndarray A)) (lens : list nat)
    (out : list (ndarray A)) :
  zip_slices slice_rows_cols arrays lens = Ok out -> cut_to_square out lens.
Proof.
  revert lens out. induction arrays as [|a arrays IH]; intros [|n lens] out H;
    simpl in H; try (injection H as <-; intros i ? ? Hi; done).
  apply rbind_Ok in H as (x & Hx & H).
  apply rbind_Ok in H as (xs & Hxs & [= <-]).
  intros [|i] a' n' Ha Hn; simpl in *.
  - injection Ha as <-. injection Hn as <-. by eapply slice_rows_cols_square.
  - by eapply (IH lens xs).
Qed.

(** X4: On a distance-typed task whose probe and pipeline deliver matrices,
    [predict] likewise never fails and yields one tuple per batch and
    pass, with every matrix cut to the sentence's length along both
    axes: at most [sent_len] rows, and at most [sent_len] entries in
    every row. *)
Theorem predict_distance_task (net : network) (self : reporter_args)
    (language lang task : string) :
  contains "distance" task = true ->
  (truthyQ (_probe_threshold self) = true ->
   is_Some (DistanceProbe (probes net) !! task)) ->
  (forall b, b ∈ data_pipeline net lang task ->
     Forall is_matrix (batch_target b) /\ Forall is_matrix (batch_mask b) /\
     forall g, Forall is_matrix
                 (distance_predict_on_batch net (batch_num_tokens b)
                    (batch_embeddings b) language task g)) ->
  exists ys,
    predict net self language lang task = (ys, Finished) /\
    length ys = (Z.to_nat (validation_steps self)
                 * length (data_pipeline net lang task))%nat /\
    Forall prediction_cut ys /\
    Forall prediction_square ys.
Proof.
  intros Hd Hgate Hmat. unfold predict.
  destruct (run_generator_all_ok
              (fun p => prediction_cut p /\ prediction_square p)
              (fun it => predict_batch net self language lang task it.1 it.2)
              (predict_iterations net self lang task)) as (ys & Hys & Hlen & Hcut).
  - intros [part b] Hit. apply elem_of_predict_iterations in Hit. simpl in Hit.
    destruct (Hmat b Hit) as (Ht & Hm & Hpred).
    unfold predict_batch. simpl.
    assert (Hg : exists g,
              (if truthyQ (_probe_threshold self)
               then g <-! get_embedding_gate (probes net) self task part; Ok (Some g)
               else Ok None) = Ok g).
    { destruct (truthyQ (_probe_threshold self)) eqn:Hth; [|eauto].
      destruct (Hgate eq_refl) as [w Hw].
      unfold get_embedding_gate, diagonal_probe_of. rewrite Hd, Hw. simpl.
      unfold truthyQ in Hth. destruct (_probe_threshold self); [|done].
      simpl. eauto. }
    destruct Hg as [g ->]. simpl. rewrite Hd.
    destruct (zip_slices_rows_cols _ (batch_num_tokens b) (Hpred g))
      as (pv & Hpv' & Hpv & _).
    pose proof (zip_slices_square _ _ _ Hpv') as Hpvs. rewrite Hpv'.
    destruct (zip_slices_rows_cols _ (batch_num_tokens b) Ht)
      as (gv & Hgv' & Hgv & _).
    pose proof (zip_slices_square _ _ _ Hgv') as Hgvs. rewrite Hgv'.
    assert (Hm' : Forall is_matrix (map astype_bool (batch_mask b))).
    { apply List.Forall_forall. intros a Ha. apply in_map_iff in Ha as (a0 & <- & Hin).
      rewrite List.Forall_forall in Hm. specialize (Hm a0 Hin). by destruct a0. }
    destruct (zip_slices_rows_cols _ (batch_num_tokens b) Hm')
      as (mk & Hmk' & Hmk & _).
    pose proof (zip_slices_square _ _ _ Hmk') as Hmks. rewrite Hmk'.
    simpl. eexists. split; [done|]. done.
  - exists ys. split; [done|]. split; [by rewrite Hlen, predict_iterations_length|].
    split; eapply Forall_impl; try exact Hcut; by intros p [? ?].
Qed.

Lemma predict_distance_task_witness :
  exists ys,
    predict sample_net gated_reporter "en" "en" "dep_distance" = (ys, Finished) /\
    length ys = (Z.to_nat (validation_steps gated_reporter)
                 * length (data_pipeline sample_net "en" "dep_distance"))%nat /\
    Forall prediction_cut ys /\
    Forall prediction_square ys.
Proof.
  apply (predict_distance_task sample_net gated_reporter "en" "en" "dep_distance").
  - reflexivity.
  - intros _. by eexists.
  - intros b Hb. apply list_elem_of_singleton in Hb as ->.
    split_and!; repeat constructor.
Defined.

(** ** [Reporter.predict]: passes without gating *)

Lemma run_generator_app {A B} (step : A -> result B) (xs1 xs2 : list A)
    (ys1 : list B) :
  run_generator step xs1 = (ys1, Finished) ->
  run_generator step (xs1 ++ xs2)
  = (ys1 ++ (run_generator step xs2).1, (run_generator step xs2).2).
Proof.
  revert ys1. induction xs1 as [|x xs1 IH]; intros ys1 H; simpl in *.
  - injection H as <-. simpl. by destruct (run_generator step xs2).
  - destruct (step x) as [y|e]; [|done].
    destruct (run_generator step xs1) as [ys o] eqn:Hrun.
    injection H as <- ->. rewrite (IH ys eq_refl).
    by destruct (run_generator step xs2).
Qed.

Lemma run_generator_map {A B C} (f : A -> B) (step : B -> result C)
    (xs : list A) :
  run_generator step (map f xs) = run_generator (fun x => step (f x)) xs.
Proof.
  induction xs as [|x xs IH]; simpl; [done|].
  destruct (step (f x)); [|done]. by rewrite IH.
Qed.

Lemma run_generator_ext {A B} (step step' : A -> result B) (xs : list A) :
  (forall x, step x = step' x) ->
  run_generator step xs = run_generator step' xs.
Proof.
  intros H. induction xs as [|x xs IH]; simpl; [done|].
  rewrite (H x). destruct (step' x); [|done]. by rewrite IH.
Qed.

(** Without a threshold the part to drop is not looked at. *)
Lemma predict_batch_ungated (net : network) (self : reporter_args)
    (language lang task : string) (part : Z) (b : batch) :
  truthyQ (_probe_threshold self) = false ->
  predict_batch net self language lang task part b
  = predict_batch net self language lang task 0 b.
Proof. intros H. unfold predict_batch. by rewrite H. Qed.

(** X12: With [drop_parts] set but no threshold, [predict] only repeats
    itself: when one pass over the pipeline ends without an exception,
    the generator yields that pass's tuples [drop_parts] times over. *)
Theorem predict_ungated_repeats (net : network) (self : reporter_args)
    (language lang task : string) (ys1 : list prediction) :
  truthyQ (_probe_threshold self) = false ->
  run_generator (fun b => predict_batch net self language lang task 0 b)
                (data_pipeline net lang task) = (ys1, Finished) ->
  predict net self language lang task
  = (concat (replicate (Z.to_nat (validation_steps self)) ys1), Finished).
Proof.
  intros Hthr Hpass. unfold predict, predict_iterations, py_range.
  generalize 0%nat.
  induction (Z.to_nat (validation_steps self)) as [|n IH]; intros start;
    [done|].
  cbn [seq map flat_map replicate concat].
  rewrite (run_generator_app _ _ _ ys1).
  - by rewrite (IH (S start)).
  - rewrite run_generator_map. cbn [fst snd]. rewrite <- Hpass.
    apply run_generator_ext. intros b. by apply predict_batch_ungated.
Qed.

Lemma predict_ungated_repeats_witness :
  predict sample_net {| _probe_threshold := None; _drop_parts := Some 3 |}
          "en" "en" "dep_depth"
  = (concat (replicate
               (Z.to_nat (validation_steps
                            {| _probe_threshold := None; _drop_parts := Some 3 |}))
               [{| p_conll_indicies := [0%nat]; p_num_tokens := [2%nat];
                   pred_values := [Arr1 [0; 1]%Q];
                   gold_values := [Arr2 [[0; 1]; [1; 0]]%Q];
                   mask := [Arr2 [[false; true]; [true; false]]] |}]),
     Finished).
Proof.
  apply (predict_ungated_repeats sample_net
           {| _probe_threshold := None; _drop_parts := Some 3 |}
           "en" "en" "dep_depth").
  - reflexivity.
  - vm_compute. reflexivity.
Defined.

(** ** [CorrelationReporter.compute]: the slots it fills *)

Section ComputeSlots.

Variable construct : metric_class -> observation -> result accumulator.

(** The body of the innermost loop of [compute]. *)
Definition compute_task_body (net : network) (self : CorrelationReporter)
    (language lang task : string) : action cr_state unit :=
  (fun st => (Ok tt, set_slot lang task (correlation_metric self) st)) ;;;
  for_stream (predict net (cr_base self) language lang task) (fun p =>
    f <- (fun st => (of_option KeyError (get_slot lang task st), st)) ;;
    call_metric construct f (observation_of p)).

Lemma compute_as_loops (net : network) (self : CorrelationReporter) :
  CorrelationReporter_compute construct net self =
  for_each (cr_languages self) (fun language =>
    for_each (split_on plus_sign language) (fun lang =>
      for_each (cr_tasks self) (compute_task_body net self language lang))).
Proof. reflexivity. Qed.

Lemma compute_task_body_slots (net : network) (self : CorrelationReporter)
    (language lang task : string) (st : cr_state) :
  correlation_d (compute_task_body net self language lang task st).2
  = correlation_d (set_slot lang task (correlation_metric self) st).
Proof.
  remember (set_slot lang task (correlation_metric self) st) as s eqn:Hs.
  unfold compute_task_body, bind at 1. simpl. rewrite <- Hs. clear Hs.
  unfold for_stream, bind at 1.
  assert (H : correlation_d
                (for_each (predict net (cr_base self) language lang task).1
                   (fun p => f <- (fun st0 => (of_option KeyError (get_slot lang task st0), st0)) ;;
                             call_metric construct f (observation_of p)) s).2
              = correlation_d s).
  { apply (for_each_preserves (fun s' => correlation_d s' = correlation_d s));
      [|done].
    intros p s' _ Hs'. unfold bind.
    destruct (get_slot lang task s') as [f|]; simpl; [|done].
    by rewrite call_metric_slots. }
  destruct (for_each _ _ s) as [[[]|e] s']; simpl in *; [|done].
  by destruct (predict net (cr_base self) language lang task).2.
Qed.

(** Slots once filled stay filled. *)
Definition slots_kept (s s' : cr_state) : Prop :=
  forall lang task, is_Some (get_slot lang task s) ->
                    is_Some (get_slot lang task s').

Lemma slots_kept_preorder : PreOrder slots_kept.
Proof.
  split.
  - intros s lang task H. done.
  - intros s1 s2 s3 H12 H23 lang task H. by apply H23, H12.
Qed.

Lemma compute_task_body_kept (net : network) (self : CorrelationReporter)
    (language lang task : string) (st : cr_state) :
  slots_kept st (compute_task_body net self language lang task st).2 /\
  is_Some (get_slot lang task
             (compute_task_body net self language lang task st).2).
Proof.
  pose proof (compute_task_body_slots net self language lang task st) as H.
  assert (Hget : forall l t,
            get_slot l t (compute_task_body net self language lang task st).2
            = get_slot l t (set_slot lang task (correlation_metric self) st)).
  { intros l t. unfold get_slot. by rewrite H. }
  split.
  - intros l t Hs. rewrite Hget, get_slot_set_slot. by case_decide.
  - rewrite Hget, get_slot_set_slot. rewrite decide_True by done. eauto.
Qed.

Lemma for_each_kept {A} (xs : list A) (body : A -> action cr_state unit) :
  (forall x s, slots_kept s (body x s).2) ->
  forall s, slots_kept s (for_each xs body s).2.
Proof.
  intros Hb s. apply (for_each_preserves (slots_kept s)).
  - intros x s' _ Hs'. pose proof slots_kept_preorder. etrans; [exact Hs'|apply Hb].
  - by apply slots_kept_preorder.
Qed.

(** X5: When [compute] runs to its end from an empty dictionary, the slots
    that are filled are exactly the pairs of a member of a requested
    language group and a task: groups joined by [+] are entered under
    their members, never under the group's own name. *)
Theorem compute_fills_member_slots (net : network)
    (self : CorrelationReporter) (st' : cr_state) (lang task : string) :
  CorrelationReporter_compute construct net self empty_state = (Ok tt, st') ->
  is_Some (get_slot lang task st') <->
  exists language, language ∈ cr_languages self /\
                   lang ∈ split_on plus_sign language /\
                   task ∈ cr_tasks self.
Proof.
  intros Hrun. rewrite compute_as_loops in Hrun. split.
  - set (P := fun s : cr_state => forall l t, is_Some (get_slot l t s) ->
               exists language, language ∈ cr_languages self /\
                                l ∈ split_on plus_sign language /\
                                t ∈ cr_tasks self).
    assert (HP : P st').
    { change st' with ((Ok tt : result unit, st').2). rewrite <- Hrun.
      apply for_each_preserves.
      - intros language s1 Hlanguage H1.
        apply for_each_preserves; [|exact H1]. intros lg s2 Hlg H2.
        apply for_each_preserves; [|exact H2]. intros tk s3 Htk H3.
        intros l t. unfold get_slot.
        rewrite compute_task_body_slots. fold (get_slot l t (set_slot lg tk (correlation_metric self) s3)).
        rewrite get_slot_set_slot. case_decide as Hdec.
        + destruct Hdec as [<- <-]. intros _. eauto.
        + apply H3.
      - intros l t. unfold get_slot. simpl. rewrite lookup_empty. simpl.
        rewrite lookup_empty. by intros [? ?]. }
    apply HP.
  - intros (language & Hlanguage & Hlang & Htask).
    pose proof slots_kept_preorder as Hpre.
    assert (Htk : forall language0 lg tk s,
              slots_kept s (compute_task_body net self language0 lg tk s).2).
    { intros. apply compute_task_body_kept. }
    assert (Hlg : forall language0 lg s,
              slots_kept s (for_each (cr_tasks self)
                              (compute_task_body net self language0 lg) s).2).
    { intros. apply for_each_kept. intros; apply Htk. }
    assert (Hla : forall language0 s,
              slots_kept s (for_each (split_on plus_sign language0)
                              (fun lg => for_each (cr_tasks self)
                                 (compute_task_body net self language0 lg)) s).2).
    { intros. apply for_each_kept. intros; apply Hlg. }
    destruct (for_each_ok_elem slots_kept _ _ Hla _ _ Hrun) as [_ H1].
    destruct (H1 _ Hlanguage) as (a1 & a2 & _ & Hrun1 & Hout1).
    destruct (for_each_ok_elem slots_kept _ _ (Hlg language) _ _ Hrun1) as [_ H2].
    destruct (H2 _ Hlang) as (b1 & b2 & _ & Hrun2 & Hout2).
    destruct (for_each_ok_elem slots_kept _ _ (Htk language lang) _ _ Hrun2)
      as [_ H3].
    destruct (H3 _ Htask) as (c1 & c2 & _ & Hrun3 & Hout3).
    apply Hout1, Hout2, Hout3.
    destruct (compute_task_body_kept net self language lang task c1) as [_ Hs].
    by rewrite Hrun3 in Hs.
Qed.

End ComputeSlots.

Lemma compute_fills_member_slots_witness :
  is_Some (get_slot "de" "dep_depth"
             (CorrelationReporter_compute sample_construct sample_net
                {| cr_base := plain_reporter; cr_dataset_name := "test";
                   cr_languages := ["en+de"]; cr_tasks := ["dep_depth"];
                   correlation_metric := ClassObj Spearman |} empty_state).2) <->
  exists language, language ∈ ["en+de"] /\
                   "de" ∈ split_on plus_sign language /\
                   "dep_depth" ∈ ["dep_depth"].
Proof.
  apply (compute_fills_member_slots sample_construct sample_net
           {| cr_base := plain_reporter; cr_dataset_name := "test";
              cr_languages := ["en+de"]; cr_tasks := ["dep_depth"];
              correlation_metric := ClassObj Spearman |}).
  vm_compute. reflexivity.
Defined.

(** ** [CorrelationReporter.write] before [compute] *)

Lemma split_on_nonempty (sep : ascii) (s : string) : split_on sep s <> [].
Proof.
  destruct s as [|c s]; simpl; [done|].
  destruct (Ascii.eqb c sep); [done|]. by destruct (split_on sep s).
Qed.

(** X6: On a reporter whose dictionary is still empty, [write] with at
    least one language and one task raises a key error at the first
    pair, and leaves behind exactly one file: the first pair's bucket
    file, opened and empty. *)
Theorem write_before_compute
    (result_method : cr_state -> pyval -> result (list (nat * option Q)))
    (str_float : option Q -> string)
    (args : args_t) (self : CorrelationReporter) (st : cr_state)
    (language task : string) (languages' tasks' : list string) :
  correlation_d st = ∅ ->
  cr_languages self = language :: languages' ->
  cr_tasks self = task :: tasks' ->
  exists lang,
    head (split_on plus_sign language) = Some lang /\
    CorrelationReporter_write result_method str_float args self st []
    = (Raise KeyError,
       [(path_join (out_dir args) (cr_prefix self lang task +:+ "spearman"), "")]).
Proof.
  intros Hd Hl Ht.
  destruct (split_on plus_sign language) as [|lang rest] eqn:Hs.
  { by apply split_on_nonempty in Hs. }
  exists lang. split; [done|].
  assert (Hslot : slot_result result_method st lang task = Raise KeyError).
  { unfold slot_result, get_slot. rewrite Hd, lookup_empty. simpl.
    by rewrite lookup_empty. }
  unfold CorrelationReporter_write. rewrite Hl, Ht.
  cbn [for_each]. unfold bind at 1. rewrite Hs.
  cbn [for_each]. unfold bind at 1 2. unfold write_one. rewrite Hslot. done.
Qed.

Lemma write_before_compute_witness :
  exists lang,
    head (split_on plus_sign "en") = Some lang /\
    CorrelationReporter_write sample_result_method sample_str_float
      sample_args sample_reporter empty_state []
    = (Raise KeyError,
       [(path_join (out_dir sample_args)
           (cr_prefix sample_reporter lang "dep_distance" +:+ "spearman"), "")]).
Proof.
  apply (write_before_compute sample_result_method sample_str_float
           sample_args sample_reporter empty_state "en" "dep_distance"
           [] ["dep_depth"]); reflexivity.
Defined.

(** ** [UASReporter.undirected_tree]: what the decoded edges are *)

Lemma kruskal_at_most (nodes : list nat) (n : nat) (es : list edge) :
  NoDup nodes -> (forall v, v ∈ nodes -> (v < n)%nat) ->
  Forall (edge_on_nodes nodes) es ->
  (length (kruskal n es) <= length nodes - 1)%nat.
Proof.
  intros Hnd Hlt Hes. unfold kruskal.
  pose proof (kruskal_inv_fold nodes n Hlt es Hes [] _
                (kruskal_inv_init nodes n Hnd Hlt)) as Hinv.
  destruct (fold_left kruskal_step es (seq 0 n, [])) as [comp kept].
  destruct Hinv as (_ & _ & _ & _ & Hcount). simpl in *.
  destruct nodes as [|v0 vs]; [simpl in *; lia|].
  assert (component comp v0 ∈ remove_dups (component comp <$> v0 :: vs)).
  { apply elem_of_remove_dups. simpl. by left. }
  destruct (remove_dups (component comp <$> v0 :: vs)) as [|c cs];
    [by apply not_elem_of_nil in H|].
  simpl in *. lia.
Qed.

Lemma undirected_edges_entries (mask : list bool) (sent : list (list Q)) (L : nat) :
  length mask = L -> square sent L ->
  (size (undirected_edges mask L sent) <= non_punctuation mask - 1)%nat /\
  forall a b, (a, b) ∈ undirected_edges mask L sent ->
    exists i j, a = S j /\ b = S i /\ nonzero_entry mask sent i j.
Proof.
  intros Hmask Hsq.
  destruct (mask_undirected_shape mask sent L Hsq) as [Hlen _].
  unfold undirected_edges, minimum_spanning_tree. rewrite Hlen.
  set (es := argsort_edges
               (csgraph_from_dense (mask_undirected mask L (map (map W) sent)))).
  assert (Hes : forall i j q, (i, j, q) ∈ es <->
            (i < L)%nat /\ (j < L)%nat /\ punct mask i = false /\
            punct mask j = false /\ (i <= j)%nat /\
            mget sent i j = Some q /\ Qeq_bool q 0 = false).
  { intros i j q. unfold es. rewrite elem_of_argsort_edges. by apply masked_edge. }
  assert (Hnodes : Forall (edge_on_nodes (content_tokens mask)) es).
  { apply Forall_forall. intros [[i j] q] He. apply Hes in He
      as (Hi & Hj & Hpi & Hpj & _).
    split; apply elem_of_content_tokens; simpl; split; (done || lia). }
  assert (Hlt : forall v, v ∈ content_tokens mask -> (v < L)%nat).
  { intros v Hv. apply elem_of_content_tokens in Hv. lia. }
  destruct (kruskal_kept (content_tokens mask) L
              (content_tokens_from_NoDup mask 0) Hlt es Hnodes)
    as (Hkept & Hnd & _).
  pose proof (kruskal_at_most (content_tokens mask) L es
                (content_tokens_from_NoDup mask 0) Hlt Hnodes) as Hmost.
  split.
  - unfold edge_pairs. rewrite size_list_to_set; last first.
    { change (map ?f ?l) with (f <$> l).
      apply (NoDup_fmap_2 (fun rc : nat * nat => (S rc.2, S rc.1))
               (Inj0 := edge_pair_inj)).
      exact Hnd. }
    rewrite !length_map.
    pose proof (content_tokens_from_length mask 0) as Hn.
    fold (content_tokens mask) in Hn. rewrite <- Hn.
    etrans; [|exact Hmost]. done.
  - intros a b Hab. unfold edge_pairs in Hab.
    apply elem_of_list_to_set in Hab.
    change (map ?f ?l) with (f <$> l) in Hab.
    apply list_elem_of_fmap in Hab as ([i j] & [= -> ->] & Hrc).
    apply list_elem_of_fmap in Hrc as ([[i' j'] q] & [= <- <-] & He).
    destruct (Hkept _ He) as [Hin Hne]. simpl in Hne.
    apply Hes in Hin as (Hi & Hj & Hpi & Hpj & Hij & Hq & Hz).
    exists i, j. split_and!; [done|done|].
    unfold nonzero_entry. split_and!; [lia|done|done|eauto].
Qed.

(** X7: Connected or not, the edge set decoded from either matrix has at
    most N-1 edges, N the number of non-punctuation tokens; none for
    a sentence with at most one such token. *)
Theorem undirected_tree_at_most (mask : list bool)
    (sent_predicted sent_gold : list (list Q)) (L : nat) :
  length mask = L -> square sent_predicted L -> square sent_gold L ->
  (size (undirected_tree mask sent_predicted sent_gold L).1
   <= non_punctuation mask - 1)%nat /\
  (size (undirected_tree mask sent_predicted sent_gold L).2
   <= non_punctuation mask - 1)%nat.
Proof.
  intros Hm Hp Hg. unfold undirected_tree. simpl. split.
  - by apply undirected_edges_entries.
  - by apply undirected_edges_entries.
Qed.

Lemma undirected_tree_at_most_witness :
  (size (undirected_tree punct_first zero3 path3 3).1
   <= non_punctuation punct_first - 1)%nat /\
  (size (undirected_tree punct_first zero3 path3 3).2
   <= non_punctuation punct_first - 1)%nat.
Proof.
  apply (undirected_tree_at_most punct_first zero3 path3 3).
  - reflexivity.
  - split; [done|]. repeat constructor.
  - exact square_path3.
Defined.

(** X8: Every decoded edge (a, b) is the 1-based, swapped position of an
    entry of its own matrix, above the diagonal, between two tokens
    that are not punctuation, whose distance is finite and not zero. *)
Theorem undirected_tree_edges_are_entries (mask : list bool)
    (sent_predicted sent_gold : list (list Q)) (L : nat) :
  length mask = L -> square sent_predicted L -> square sent_gold L ->
  (forall a b, (a, b) ∈ (undirected_tree mask sent_predicted sent_gold L).1 ->
     exists i j, a = S j /\ b = S i /\ nonzero_entry mask sent_predicted i j) /\
  (forall a b, (a, b) ∈ (undirected_tree mask sent_predicted sent_gold L).2 ->
     exists i j, a = S j /\ b = S i /\ nonzero_entry mask sent_gold i j).
Proof.
  intros Hm Hp Hg. unfold undirected_tree. simpl. split.
  - by apply undirected_edges_entries.
  - by apply undirected_edges_entries.
Qed.

Lemma undirected_tree_edges_are_entries_witness :
  (forall a b, (a, b) ∈ (undirected_tree punct_first zero3 path3 3).1 ->
     exists i j, a = S j /\ b = S i /\ nonzero_entry punct_first zero3 i j) /\
  (forall a b, (a, b) ∈ (undirected_tree punct_first zero3 path3 3).2 ->
     exists i j, a = S j /\ b = S i /\ nonzero_entry punct_first path3 i j).
Proof.
  apply (undirected_tree_edges_are_entries punct_first zero3 path3 3).
  - reflexivity.
  - split; [done|]. repeat constructor.
  - exact square_path3.
Defined.

(** ** [UASReporter.directed_tree]: the candidate arcs *)

(** X9: In the score matrix the virtual root has no candidate head.  The
    root is a candidate head, always with score 0, of no token other
    than the punctuation tokens and the token wired as root.  A token is a candidate head
    of another only if neither is punctuation and its depth is strictly
    smaller; the score is then the negated distance. *)
Theorem candidate_arcs_descend (mask : list bool) (depths : list Q)
    (root : nat) (sent : list (list Q)) (L r c : nat) (q : Q) :
  well_shaped mask depths sent L ->
  (1 <= root)%nat ->
  mget (with_root mask depths root sent L) r c = Some (Sc q) ->
  exists i, r = S i /\ (i < L)%nat /\
    ((c = 0%nat /\ q = 0%Q /\ (punct mask i = true \/ root = S i)) \/
     (exists j d, c = S j /\ (j < L)%nat /\
        punct mask i = false /\ punct mask j = false /\
        (depth_at depths j < depth_at depths i)%Q /\
        mget sent i j = Some d /\ q = (- d)%Q)).
Proof.
  intros (Hmask & Hdepths & Hsent & Hrows) Hroot Hq.
  assert (Hrows' : Forall (fun row => length row = length sent) sent)
    by (by rewrite Hsent).
  destruct (with_root_shape mask depths root sent L Hrows') as [Hslen Hsrows].
  rewrite Hsent in Hslen, Hsrows.
  destruct (mget_range _ (S L) r c _ Hslen Hsrows Hq) as [Hr Hc].
  rewrite with_root_cell in Hq by (done || lia). injection Hq as Hq.
  destruct r as [|i]; [done|]. exists i. split; [done|]. split; [lia|].
  destruct c as [|j]; unfold score_cell in Hq.
  - left. destruct (punct mask i) eqn:Hp; simpl in Hq.
    + injection Hq as <-. auto.
    + destruct (Nat.eqb_spec root (S i)); [|done]. injection Hq as <-. auto.
  - right. destruct (punct mask i) eqn:Hpi; [done|].
    destruct (punct mask j) eqn:Hpj; [done|].
    cbn [orb] in Hq. destruct (Qle_bool _ _) eqn:Hle; [done|].
    destruct (mget sent i j) as [d|] eqn:Hd; [|done]. injection Hq as <-.
    exists j, d. split_and!; try done; try lia.
    apply Qnot_le_lt. intros Hc'. apply Qle_bool_iff in Hc'. congruence.
Qed.

Lemma candidate_arcs_descend_witness :
  exists i, 3%nat = S i /\ (i < 3)%nat /\
    ((1%nat = 0%nat /\ (- (2))%Q = 0%Q /\
      (punct no_punct3 i = true \/ 1%nat = S i)) \/
     (exists j d, 1%nat = S j /\ (j < 3)%nat /\
        punct no_punct3 i = false /\ punct no_punct3 j = false /\
        (depth_at path_depths j < depth_at path_depths i)%Q /\
        mget path3 i j = Some d /\ (- (2))%Q = (- d)%Q)).
Proof.
  apply (candidate_arcs_descend no_punct3 path_depths 1 path3 3 3 1 (- (2))%Q).
  - apply well_shaped_path3. reflexivity.
  - lia.
  - reflexivity.
Defined.
(** ** [SelectedDimensionalityReporter.write] after [compute] *)

Lemma append_assoc (a b c : string) : (a +:+ b) +:+ c = a +:+ b +:+ c.
Proof.
  induction a as [|x a IH]; [done|].
  change (String x ((a +:+ b) +:+ c) = String x (a +:+ b +:+ c)).
  by rewrite IH.
Qed.

(** A square matrix whose cells are all overlaps is the table of
    overlaps. *)
Lemma table_of_cells (gates : list (list Z)) (Mx : list (list Z)) :
  shape_ok (length gates) Mx ->
  (forall i j, (i < length gates)%nat -> (j < length gates)%nat ->
     cell_ok gates Mx i j) ->
  Mx = overlap_table gates.
Proof.
  intros [Hrows Hcols] Hcells. apply list_eq. intros i.
  unfold overlap_table.
  change (map ?f ?l) with (f <$> l). rewrite list_lookup_fmap.
  destruct (gates !! i) as [gi|] eqn:Hgi; simpl.
  - pose proof (lookup_lt_Some _ _ _ Hgi) as Hi.
    destruct (lookup_lt_is_Some_2 Mx i) as [row Hrow]; [lia|].
    rewrite Hrow. f_equal. apply list_eq. intros j.
    change (map ?f ?l) with (f <$> l). rewrite list_lookup_fmap.
    destruct (gates !! j) as [gj|] eqn:Hgj; simpl.
    + pose proof (lookup_lt_Some _ _ _ Hgj) as Hj.
      pose proof (Hcells i j Hi Hj) as Hc.
      unfold cell_ok, mget, gate_at in Hc. rewrite Hrow, Hgi, Hgj in Hc.
      simpl in Hc. done.
    + apply lookup_ge_None_2. apply lookup_ge_None_1 in Hgj.
      rewrite Forall_lookup in Hcols. rewrite (Hcols i row Hrow). lia.
  - apply lookup_ge_None_2. apply lookup_ge_None_1 in Hgi. lia.
Qed.

Lemma overlap_table_diagonal (gates : list (list Z)) (i : nat) :
  (i < length gates)%nat ->
  mget (overlap_table gates) i i = Some (true_count (gate_at gates i)).
Proof.
  intros Hi. destruct (lookup_lt_is_Some_2 gates i Hi) as [gi Hgi].
  unfold mget, overlap_table, gate_at.
  change (map ?f ?l) with (f <$> l). rewrite list_lookup_fmap, Hgi. simpl.
  change (map ?f ?l) with (f <$> l). rewrite list_lookup_fmap, Hgi. simpl.
  by rewrite both_true_self.
Qed.

(** With the table stored for [language], its part of [write] appends
    one file per task and then the table file. *)
Lemma write_language_ok (out_dir language : string) (tasks : list string)
    (gates : list (list Z)) (dm : gmap string (list (list Z)))
    (log : list file) :
  length tasks = length gates ->
  dm !! language = Some (overlap_table gates) ->
  (for_each (enumerate tasks) (write_selected_dims out_dir language dm) ;;;
   write_inter_dims out_dir language tasks dm) log
  = (Ok tt,
     log ++ map (selected_dims_file out_dir language gates) (enumerate tasks)
         ++ [inter_dims_file out_dir language tasks gates]).
Proof.
  intros Hlen Hdm.
  assert (Hloop : runs_ok
            (for_each (enumerate tasks) (write_selected_dims out_dir language dm))
            log
            (fun _ log' =>
               log' = log ++ map (selected_dims_file out_dir language gates)
                                 (enumerate tasks))).
  { apply (for_each_runs_ok
             (fun pre log' =>
                log' = log ++ map (selected_dims_file out_dir language gates) pre)).
    - intros pre [idx task] post s Hsplit ->.
      apply enumerate_split in Hsplit as [Hidx Htask]. simpl in Hidx, Htask.
      pose proof (lookup_lt_Some _ _ _ Htask) as Hi.
      exists tt. eexists. split; [|reflexivity].
      unfold write_selected_dims. cbn [fst snd]. rewrite Hdm.
      cbn [of_option rbind].
      rewrite overlap_table_diagonal by lia. cbn [of_option].
      unfold emit, selected_dims_file. rewrite map_app, app_assoc.
      cbn [map fst snd]. by rewrite !append_assoc.
    - simpl. by rewrite app_nil_r. }
  destruct Hloop as ([] & log' & Hrun & ->).
  unfold bind. rewrite Hrun. unfold write_inter_dims. rewrite Hdm.
  unfold emit, inter_dims_file. rewrite <- app_assoc.
  by rewrite !append_assoc.
Qed.

Lemma write_languages_ok (out_dir : string) (languages tasks : list string)
    (gates : list (list Z)) (dm : gmap string (list (list Z))) :
  length tasks = length gates ->
  (forall l, l ∈ languages -> dm !! l = Some (overlap_table gates)) ->
  forall log,
    SelectedDimensionalityReporter_write out_dir languages tasks dm log
    = (Ok tt,
       log ++ flat_map
         (fun language =>
            map (selected_dims_file out_dir language gates) (enumerate tasks)
            ++ [inter_dims_file out_dir language tasks gates]) languages).
Proof.
  intros Hlen. unfold SelectedDimensionalityReporter_write.
  induction languages as [|language languages IH]; intros Hdm log.
  - simpl. by rewrite app_nil_r.
  - cbn [for_each flat_map]. unfold bind at 1.
    rewrite (write_language_ok out_dir language tasks gates dm log Hlen)
      by (apply Hdm; left).
    rewrite IH by (intros l Hl; apply Hdm; by right).
    by rewrite <- !app_assoc.
Qed.

(** After [compute], every requested language has the table of overlaps
    stored. *)
Lemma compute_stores_tables (net : probe_weights) (self : reporter_args)
    (tasks : list string) (gates : list (list Z)) (D : nat)
    (languages : list string) (st : sd_state) :
  Forall2 (fun task g => get_embedding_gate net self task 0 = Ok g) tasks gates ->
  Forall (fun g => length g = D) gates ->
  runs_ok (SelectedDimensionalityReporter_compute net self languages tasks) st
    (fun _ st' => forall l, l ∈ languages ->
       dimension_matrices st' !! l = Some (overlap_table gates)).
Proof.
  intros Hgates HD. pose proof (Forall2_length _ _ _ Hgates) as Hlen.
  unfold SelectedDimensionalityReporter_compute.
  apply (for_each_runs_ok
           (fun pre s => forall l, l ∈ pre ->
              dimension_matrices s !! l = Some (overlap_table gates))).
  - intros pre language post s _ Hpre.
    eapply runs_ok_weaken;
      [apply (language_step_ok net self tasks gates D Hgates HD)|].
    intros [] s' (Hframe & Mx & HM & Hshape & Hdone & _) l Hl.
    destruct (decide (l = language)) as [->|Hne].
    + rewrite HM. f_equal. apply table_of_cells.
      * by rewrite <- Hlen.
      * intros i j Hi Hj. apply Hdone; lia.
    + rewrite (Hframe l Hne). apply Hpre.
      apply elem_of_app in Hl as [Hl|Hl]; [done|].
      by apply list_elem_of_singleton in Hl.
  - intros l Hl. inversion Hl.
Qed.

(** X10: With the gate of every task defined and all gates of one length,
    [compute] followed by [write] runs to its end and writes, for each
    language in order, one [selected_dims] file per task holding the
    number of true entries of that task's gate, and then the
    [inter_dims] file holding the header and one line per task with the
    overlaps of its gate with every gate; nothing else is written. *)
Theorem compute_then_write_files (net : probe_weights) (self : reporter_args)
    (tasks : list string) (gates : list (list Z)) (D : nat)
    (out_dir : string) (languages : list string) (st : sd_state) :
  Forall2 (fun task g => get_embedding_gate net self task 0 = Ok g) tasks gates ->
  Forall (fun g => length g = D) gates ->
  exists st',
    SelectedDimensionalityReporter_compute net self languages tasks st
      = (Ok tt, st') /\
    SelectedDimensionalityReporter_write out_dir languages tasks
      (dimension_matrices st') []
    = (Ok tt,
       flat_map
         (fun language =>
            map (selected_dims_file out_dir language gates) (enumerate tasks)
            ++ [inter_dims_file out_dir language tasks gates]) languages).
Proof.
  intros Hgates HD.
  destruct (compute_stores_tables net self tasks gates D languages st Hgates HD)
    as ([] & st' & Hrun & Hpost).
  exists st'. split; [done|].
  rewrite (write_languages_ok out_dir languages tasks gates); [done| |done].
  apply (Forall2_length _ _ _ Hgates).
Qed.

Lemma compute_then_write_files_witness :
  exists st',
    SelectedDimensionalityReporter_compute overlap_probes overlap_reporter
      ["en"] ["a_distance"; "b_depth"] empty_sd_state = (Ok tt, st') /\
    SelectedDimensionalityReporter_write "out" ["en"] ["a_distance"; "b_depth"]
      (dimension_matrices st') []
    = (Ok tt,
       flat_map
         (fun language =>
            map (selected_dims_file "out" language [[1; 1; 0; 0]; [1; 0; 0; 1]])
                (enumerate ["a_distance"; "b_depth"])
            ++ [inter_dims_file "out" language ["a_distance"; "b_depth"]
                  [[1; 1; 0; 0]; [1; 0; 0; 1]]]) ["en"]).
Proof.
  apply (compute_then_write_files overlap_probes overlap_reporter
           ["a_distance"; "b_depth"] [[1; 1; 0; 0]; [1; 0; 0; 1]] 4).
  - repeat constructor.
  - repeat constructor.
Defined.

(** X11: [write] on a language whose matrix is not stored raises
    [KeyError] at once; the file it had just opened is left behind: the
    first task's [selected_dims] file, empty, or, with no task, the
    [inter_dims] file holding the header alone. *)
Theorem selected_dims_write_before_compute (out_dir language : string)
    (languages tasks : list string) (dm : gmap string (list (list Z))) :
  dm !! language = None ->
  SelectedDimensionalityReporter_write out_dir (language :: languages) tasks dm []
  = (Raise KeyError,
     [match tasks with
      | [] => (path_join out_dir (language +:+ "." +:+ "inter_dims"),
               " " +:+ newline)
      | task :: _ =>
          (path_join out_dir (language +:+ "." +:+ task +:+ "." +:+ "selected_dims"),
           "")
      end]).
Proof.
  intros Hdm. unfold SelectedDimensionalityReporter_write.
  cbn [for_each]. unfold bind at 1. destruct tasks as [|task tasks].
  - cbn [enumerate imap for_each]. unfold bind at 1. unfold ret.
    unfold write_inter_dims. rewrite Hdm.
    unfold bind, emit, fail. cbn [join_with app]. by rewrite append_assoc.
  - unfold enumerate. cbn [imap for_each]. unfold bind at 1 2.
    unfold write_selected_dims. cbn [fst snd]. rewrite Hdm.
    cbn [of_option rbind]. unfold bind, emit, fail. cbn [app].
    by rewrite !append_assoc.
Qed.

Lemma selected_dims_write_before_compute_witness :
  SelectedDimensionalityReporter_write "out" ["en"] ["a_distance"] ∅ []
  = (Raise KeyError, [("out/en.a_distance.selected_dims", "")]).
Proof.
  apply (selected_dims_write_before_compute "out" "en" [] ["a_distance"] ∅).
  reflexivity.
Defined.
(** ** [DependencyDepthReporter.compute]: which depths are kept *)

Lemma run_generator_finished {A B} (step : A -> result B) (xs : list A)
    (ys : list B) :
  run_generator step xs = (ys, Finished) ->
  Forall2 (fun x y => step x = Ok y) xs ys.
Proof.
  revert ys. induction xs as [|x xs IH]; intros ys H; simpl in H.
  - injection H as <-. constructor.
  - destruct (step x) as [y|e] eqn:Hx; [|done].
    destruct (run_generator step xs) as [ys' o] eqn:Hrun.
    injection H as <- ->. constructor; [done|by apply IH].
Qed.

Lemma zip_slices_length {A} (f : nat -> ndarray A -> result (ndarray A))
    (arrays : list (ndarray A)) (lens : list nat) (out : list (ndarray A)) :
  zip_slices f arrays lens = Ok out ->
  length out = Nat.min (length arrays) (length lens).
Proof.
  revert lens out. induction arrays as [|a arrays IH]; intros [|n lens] out H;
    simpl in H; try (injection H as <-; done).
  destruct (f n a) as [x|e]; [|done]. simpl in H.
  destruct (zip_slices f arrays lens) as [xs|e] eqn:Hxs; [|done].
  simpl in H. injection H as <-. simpl. by rewrite (IH lens xs).
Qed.

(** A loop that ran to its end carries an invariant that each of its
    completed iterations carries. *)
Lemma for_each_ok_inv {S A} (P : S -> Prop) (xs : list A)
    (body : A -> action S unit) :
  (forall x s s', x ∈ xs -> P s -> body x s = (Ok tt, s') -> P s') ->
  forall s s', for_each xs body s = (Ok tt, s') -> P s -> P s'.
Proof.
  induction xs as [|x xs IH]; intros Hbody s s' Hrun Hs; simpl in Hrun.
  - unfold ret in Hrun. by injection Hrun as <-.
  - unfold bind in Hrun. destruct (body x s) as [[[]|e] s1] eqn:Hx; [|done].
    eapply IH; [|done|].
    + intros y t t' Hy. apply Hbody. by right.
    + eapply Hbody; [by left|done|done].
Qed.

(** Under complete batches the sentences of a yielded tuple are the
    sentence indices of its batch, whatever part is dropped. *)
Lemma depth_sentences_keys (net : network) (self : reporter_args)
    (language lang : string) (part : Z) (b : batch) (p : prediction) :
  complete_batches net ->
  b ∈ data_pipeline net lang "dep_depth" ->
  predict_batch net self language lang "dep_depth" part b = Ok p ->
  (depth_sentences p).*1 = conll_indicies b.
Proof.
  intros Hc Hb Hp. destruct (Hc lang b Hb) as (Hnt & Htg & Hraw).
  unfold predict_batch in Hp.
  destruct (if truthyQ (_probe_threshold self)
            then g <-! get_embedding_gate (probes net) self "dep_depth" part;
                 Ok (Some g)
            else Ok None) as [g|e]; [|done].
  cbn [rbind] in Hp.
  change (contains "distance" "dep_depth") with false in Hp.
  change (contains "depth" "dep_depth") with true in Hp. cbv iota in Hp.
  specialize (Hraw language g).
  destruct (zip_slices slice_rows_ok _ (batch_num_tokens b)) as [pv|e] eqn:Hpv
    in Hp; [|done].
  cbn [rbind] in Hp.
  destruct (zip_slices slice_rows_ok (batch_target b) (batch_num_tokens b))
    as [gv|e] eqn:Hgv; [|done].
  cbn [rbind] in Hp.
  destruct (zip_slices slice_rows_ok (map astype_bool (batch_mask b))
              (batch_num_tokens b)) as [mk|e]; [|done].
  cbn [rbind] in Hp. injection Hp as <-.
  apply zip_slices_length in Hpv, Hgv.
  unfold depth_sentences, zip3. cbn [p_conll_indicies pred_values gold_values].
  apply fst_zip. rewrite length_zip, Hpv, Hgv. lia.
Qed.

Lemma depths_of_lang_map (r : depth_results) (lang : string) (idx : nat) :
  depths_of r lang idx = lang_map lang r !! idx.
Proof.
  unfold depths_of, lang_map. destruct (r !! lang); simpl; [done|].
  by rewrite lookup_empty.
Qed.

(** What survives a sequence of stores: the last store of the key, or
    the old entry of a key not stored. *)
Lemma foldl_put_lookup (W : list (nat * (ndarray Q * ndarray Q)))
    (m : gmap nat (ndarray Q * ndarray Q)) (idx : nat)
    (v : ndarray Q * ndarray Q) :
  foldl put m W !! idx = Some v ->
  (idx, v) ∈ W \/ ((idx ∉ W.*1) /\ m !! idx = Some v).
Proof.
  revert m. induction W as [|[k x] W IH]; intros m H; simpl in H.
  - right. split; [|done]. intros Hin. inversion Hin.
  - destruct (IH _ H) as [Hin|[Hnot Hm]]; [left; by right|].
    unfold put in Hm. cbn [fst snd] in Hm.
    destruct (decide (k = idx)) as [->|Hne].
    + rewrite lookup_insert_eq in Hm. injection Hm as ->. left. by left.
    + rewrite lookup_insert_ne in Hm by done. right. split; [|done].
      simpl. intros Hin. apply elem_of_cons in Hin as [->|Hin]; done.
Qed.

Lemma foldl_put_is_Some (W : list (nat * (ndarray Q * ndarray Q)))
    (m : gmap nat (ndarray Q * ndarray Q)) (idx : nat) :
  idx ∈ W.*1 \/ is_Some (m !! idx) -> is_Some (foldl put m W !! idx).
Proof.
  revert m. induction W as [|[k x] W IH]; intros m H; simpl.
  - destruct H as [H|H]; [inversion H|done].
  - apply IH. destruct (decide (k = idx)) as [->|Hne].
    + right. unfold put. simpl. rewrite lookup_insert_eq. eauto.
    + destruct H as [H|H].
      * simpl in H. apply elem_of_cons in H as [->|H]; [done|by left].
      * right. unfold put. simpl. by rewrite lookup_insert_ne.
Qed.

Lemma store_loop (lang : string) (W : list (nat * (ndarray Q * ndarray Q)))
    (r : depth_results) :
  exists r', for_each W (store_depths lang) r = (Ok tt, r') /\
    lang_map lang r' = foldl put (lang_map lang r) W /\
    forall l, l <> lang -> r' !! l = r !! l.
Proof.
  revert r. induction W as [|w W IH]; intros r; simpl.
  - exists r. done.
  - unfold bind, store_depths at 1.
    destruct (IH (<[lang := <[w.1 := w.2]> (default ∅ (r !! lang))]> r))
      as (r' & -> & Hmap & Hframe).
    exists r'. split; [done|]. split.
    + rewrite Hmap. unfold lang_map. by rewrite lookup_insert_eq.
    + intros l Hl. rewrite (Hframe l Hl). by rewrite lookup_insert_ne.
Qed.

Lemma stream_loop (lang : string) (ys : list prediction) (r : depth_results) :
  exists r',
    for_each ys (fun p => for_each (depth_sentences p) (store_depths lang)) r
    = (Ok tt, r') /\
    lang_map lang r' = foldl put (lang_map lang r) (flat_map depth_sentences ys) /\
    forall l, l <> lang -> r' !! l = r !! l.
Proof.
  revert r. induction ys as [|p ys IH]; intros r; simpl.
  - exists r. done.
  - unfold bind.
    destruct (store_loop lang (depth_sentences p) r) as (r1 & -> & Hmap1 & Hframe1).
    destruct (IH r1) as (r' & -> & Hmap & Hframe).
    exists r'. split; [done|]. split.
    + by rewrite Hmap, Hmap1, foldl_app.
    + intros l Hl. by rewrite (Hframe l Hl), (Hframe1 l Hl).
Qed.

(** The keys stored while a run of iterations over batches of the
    pipeline is consumed. *)
Lemma pass_keys (net : network) (self : reporter_args) (language lang : string)
    (its : list (Z * batch)) (ys : list prediction) :
  complete_batches net ->
  (forall it, it ∈ its -> it.2 ∈ data_pipeline net lang "dep_depth") ->
  Forall2 (fun it y =>
             predict_batch net self language lang "dep_depth" it.1 it.2 = Ok y)
          its ys ->
  (flat_map depth_sentences ys).*1 = flat_map (fun it => conll_indicies it.2) its.
Proof.
  intros Hc Hits H. induction H as [|it y its ys Hy _ IH]; simpl; [done|].
  rewrite fmap_app, IH by (intros z Hz; apply Hits; by right).
  f_equal. eapply depth_sentences_keys; [done| |done]. apply Hits. by left.
Qed.

(** The run of one member of a language: after it, the dictionary of
    [lang] holds, for the pipeline's sentences, what the last pass
    yielded, and is otherwise as before. *)
Lemma depth_member_step_ok (net : network) (self : reporter_args)
    (language lang : string) (r r' : depth_results) :
  complete_batches net ->
  depth_member_step net self language lang r = (Ok tt, r') ->
  (forall l, l <> lang -> r' !! l = r !! l) /\
  (forall idx v, depths_of r' lang idx = Some v ->
     depths_of r lang idx = Some v \/
     exists b p,
       b ∈ data_pipeline net lang "dep_depth" /\
       predict_batch net self language lang "dep_depth"
                     (validation_steps self - 1) b = Ok p /\
       (idx, v) ∈ depth_sentences p) /\
  (forall idx, is_Some (depths_of r lang idx) -> is_Some (depths_of r' lang idx)) /\
  (forall b idx, 1 <= validation_steps self ->
     b ∈ data_pipeline net lang "dep_depth" -> idx ∈ conll_indicies b ->
     is_Some (depths_of r' lang idx)).
Proof.
  intros Hc Hrun. unfold depth_member_step, for_stream, predict in Hrun.
  destruct (run_generator _ (predict_iterations net self lang "dep_depth"))
    as [ys o] eqn:Hgen.
  cbn [fst snd] in Hrun. unfold bind in Hrun.
  destruct (stream_loop lang ys r) as (r1 & Hloop & Hmap & Hframe).
  rewrite Hloop in Hrun. destruct o as [|e]; [|done].
  unfold ret in Hrun. injection Hrun as <-.
  apply run_generator_finished in Hgen.
  split; [done|]. split; [|split].
  3:{ intros b idx Hk Hb Hidx. rewrite depths_of_lang_map, Hmap.
      apply foldl_put_is_Some. left.
      rewrite (pass_keys net self language lang
                 (predict_iterations net self lang "dep_depth") ys Hc);
        [| |done].
      - apply list_elem_of_In, in_flat_map.
        exists ((validation_steps self - 1), b). split; [|by apply list_elem_of_In].
        unfold predict_iterations. apply in_flat_map.
        exists (validation_steps self - 1). split.
        + unfold py_range. apply in_map_iff.
          exists (Z.to_nat (validation_steps self - 1)). split; [lia|].
          apply in_seq. lia.
        + apply in_map_iff. exists b. split; [done|by apply list_elem_of_In].
      - intros it Hit. by apply (elem_of_predict_iterations net self). }
  2:{ intros idx Hsome. rewrite depths_of_lang_map, Hmap.
      apply foldl_put_is_Some. right. by rewrite <- depths_of_lang_map. }
  intros idx v Hv. rewrite depths_of_lang_map, Hmap in Hv.
  rewrite depths_of_lang_map.
  unfold predict_iterations, py_range in Hgen.
  destruct (Z.to_nat (validation_steps self)) as [|n] eqn:Hn.
  - simpl in Hgen. inversion Hgen; subst. simpl in Hv. by left.
  - rewrite seq_S in Hgen. simpl in Hgen.
    rewrite map_app, flat_map_app in Hgen. simpl in Hgen.
    rewrite app_nil_r in Hgen.
    apply Forall2_app_inv_l in Hgen as (ys1 & ys2 & H1 & H2 & ->).
    rewrite flat_map_app, foldl_app in Hv.
    assert (Hlast : Z.of_nat n = validation_steps self - 1) by lia.
    rewrite Hlast in H2.
    assert (Hin2 : forall it,
               it ∈ map (fun b => (validation_steps self - 1, b))
                        (data_pipeline net lang "dep_depth") ->
               it.2 ∈ data_pipeline net lang "dep_depth").
    { intros it Hit. apply list_elem_of_In, in_map_iff in Hit as (b & <- & Hb).
      by apply list_elem_of_In. }
    assert (Hin1 : forall it,
               it ∈ flat_map
                      (fun part_to_drop =>
                         map (fun b => (part_to_drop, b))
                             (data_pipeline net lang "dep_depth"))
                      (map Z.of_nat (seq 0 n)) ->
               it.2 ∈ data_pipeline net lang "dep_depth").
    { intros it Hit. apply list_elem_of_In, in_flat_map in Hit as (q & _ & Hit).
      apply in_map_iff in Hit as (b & <- & Hb). by apply list_elem_of_In. }
    pose proof (pass_keys net self language lang _ ys1 Hc Hin1 H1) as Hk1.
    pose proof (pass_keys net self language lang _ ys2 Hc Hin2 H2) as Hk2.
    destruct (foldl_put_lookup _ _ _ _ Hv) as [Hw|[Hnot Hmid]].
    + right. apply list_elem_of_In, in_flat_map in Hw as (p & Hp & Hw).
      apply list_elem_of_In in Hp, Hw.
      destruct (proj1 (list_elem_of_lookup _ _) Hp) as [i Hi].
      destruct (Forall2_lookup_r _ _ _ _ _ H2 Hi) as ([q b] & Hit & Hstep).
      simpl in Hstep.
      apply list_elem_of_lookup_2 in Hit.
      pose proof (Hin2 _ Hit) as Hb. simpl in Hb.
      apply list_elem_of_In, in_map_iff in Hit as (b' & Heq & _).
      injection Heq as Hq _. subst q. exists b, p. done.
    + destruct (foldl_put_lookup _ _ _ _ Hmid) as [Hw|[_ Hold]]; [|by left].
      exfalso. apply Hnot. rewrite Hk2.
      assert (Hidx : idx ∈ (flat_map depth_sentences ys1).*1).
      { apply list_elem_of_fmap. by exists (idx, v). }
      rewrite Hk1 in Hidx.
      apply list_elem_of_In, in_flat_map in Hidx as ([q b] & Hit & Hidx).
      apply list_elem_of_In, Hin1 in Hit. simpl in Hit, Hidx.
      apply list_elem_of_In, in_flat_map.
      exists (validation_steps self - 1, b). split; [|done].
      apply in_map_iff. exists b. split; [done|by apply list_elem_of_In].
Qed.

Lemma compute_as_depth_loops (net : network) (self : reporter_args)
    (languages : list string) (results : depth_results) :
  DependencyDepthReporter_compute net self languages = Ok results ->
  depth_loops net self languages ∅ = (Ok tt, results).
Proof.
  unfold DependencyDepthReporter_compute.
  destruct (depth_loops net self languages ∅) as [[[]|e] r]; [|done].
  by intros [= ->].
Qed.

(** X13: With complete batches, every pair of depths that [compute] returns
    was yielded by the last pass of [predict] over the language: under
    [drop_parts] the passes that drop the earlier parts are
    overwritten. *)
Theorem depths_are_of_the_last_pass (net : network) (self : reporter_args)
    (languages : list string) (results : depth_results)
    (lang : string) (idx : nat) (v : ndarray Q * ndarray Q) :
  complete_batches net ->
  DependencyDepthReporter_compute net self languages = Ok results ->
  depths_of results lang idx = Some v ->
  from_last_pass net self languages lang idx v.
Proof.
  intros Hc Hrun Hv. apply compute_as_depth_loops in Hrun.
  revert lang idx v Hv.
  unfold depth_loops in Hrun.
  eapply (for_each_ok_inv
            (fun r => forall lang idx v, depths_of r lang idx = Some v ->
                        from_last_pass net self languages lang idx v));
    [|exact Hrun|].
  - intros language s s' Hlanguage Hs Hgroup.
    eapply (for_each_ok_inv
              (fun r => forall lang idx v, depths_of r lang idx = Some v ->
                          from_last_pass net self languages lang idx v));
      [|exact Hgroup|exact Hs].
    intros lang t t' Hlang Ht Hstep l idx v Hv.
    destruct (depth_member_step_ok net self language lang t t' Hc Hstep)
      as (Hframe & Hprov & _).
    destruct (decide (l = lang)) as [->|Hne].
    + destruct (Hprov idx v Hv) as [Hold|(b & p & Hb & Hp & Hw)].
      * by apply Ht.
      * exists language, b, p. done.
    + apply Ht. unfold depths_of in *. by rewrite <- (Hframe l Hne).
  - intros lang idx v Hv. unfold depths_of in Hv.
    rewrite lookup_empty in Hv. done.
Qed.

Lemma complete_batches_gate_echo_net : complete_batches gate_echo_net.
Proof.
  intros lang b Hb. apply list_elem_of_singleton in Hb as ->.
  split_and!; [done|done|]. intros language g. simpl. lia.
Qed.

Lemma depths_are_of_the_last_pass_witness :
  from_last_pass gate_echo_net dropping_reporter ["en"] "en" 0
    (Arr1 [1; 0]%Q, Arr2 [[0; 1]; [1; 0]]%Q).
Proof.
  apply (depths_are_of_the_last_pass gate_echo_net dropping_reporter ["en"]
           {[ "en" := {[ 0%nat := (Arr1 [1; 0]%Q, Arr2 [[0; 1]; [1; 0]]%Q) ]} ]}).
  - exact complete_batches_gate_echo_net.
  - vm_compute. reflexivity.
  - vm_compute. reflexivity.
Defined.

Lemma depths_kept_preorder : PreOrder depths_kept.
Proof.
  split.
  - by intros r lang idx.
  - intros r1 r2 r3 H12 H23 lang idx H. by apply H23, H12.
Qed.

Lemma depth_member_step_kept (net : network) (self : reporter_args)
    (language lang : string) (r : depth_results) :
  depths_kept r (depth_member_step net self language lang r).2.
Proof.
  unfold depth_member_step, for_stream.
  destruct (predict net self language lang "dep_depth") as [ys o].
  cbn [fst snd]. unfold bind.
  destruct (stream_loop lang ys r) as (r1 & -> & Hmap & Hframe).
  assert (Hkept : depths_kept r r1).
  { intros l idx H. destruct (decide (l = lang)) as [->|Hne].
    - rewrite depths_of_lang_map, Hmap. apply foldl_put_is_Some. right.
      by rewrite <- depths_of_lang_map.
    - unfold depths_of in *. by rewrite (Hframe l Hne). }
  by destruct o.
Qed.

Lemma depth_group_kept (net : network) (self : reporter_args)
    (language : string) (r : depth_results) :
  depths_kept r
    (for_each (split_on plus_sign language)
              (depth_member_step net self language) r).2.
Proof.
  pose proof depths_kept_preorder as Hpre.
  apply (for_each_preserves (depths_kept r)); [|reflexivity].
  intros lang s _ Hs. etrans; [exact Hs|apply depth_member_step_kept].
Qed.

(** X14: With complete batches and at least one pass, when [compute]
    returns, every sentence of the depth pipeline of every member of a
    requested language has its pair of depths. *)
Theorem every_sentence_has_depths (net : network) (self : reporter_args)
    (languages : list string) (results : depth_results)
    (language lang : string) (b : batch) (idx : nat) :
  complete_batches net ->
  1 <= validation_steps self ->
  DependencyDepthReporter_compute net self languages = Ok results ->
  language ∈ languages -> lang ∈ split_on plus_sign language ->
  b ∈ data_pipeline net lang "dep_depth" -> idx ∈ conll_indicies b ->
  is_Some (depths_of results lang idx).
Proof.
  intros Hc Hk Hrun Hlanguage Hlang Hb Hidx.
  apply compute_as_depth_loops in Hrun. unfold depth_loops in Hrun.
  pose proof depths_kept_preorder as Hpre.
  destruct (for_each_ok_elem depths_kept languages _
              (fun x s => depth_group_kept net self x s) _ _ Hrun)
    as [_ Hgroups].
  destruct (Hgroups language Hlanguage) as (s1 & s2 & _ & Hgroup & Hs2).
  destruct (for_each_ok_elem depths_kept (split_on plus_sign language) _
              (fun x s => depth_member_step_kept net self language x s)
              _ _ Hgroup)
    as [_ Hmembers].
  destruct (Hmembers lang Hlang) as (t1 & t2 & _ & Hstep & Ht2).
  destruct (depth_member_step_ok net self language lang t1 t2 Hc Hstep)
    as (_ & _ & _ & Hall).
  apply Hs2, Ht2. by eapply Hall.
Qed.

Lemma every_sentence_has_depths_witness :
  is_Some (depths_of
             {[ "en" := {[ 0%nat := (Arr1 [1; 0]%Q, Arr2 [[0; 1]; [1; 0]]%Q) ]} ]}
             "en" 0).
Proof.
  apply (every_sentence_has_depths gate_echo_net dropping_reporter ["en"]
           {[ "en" := {[ 0%nat := (Arr1 [1; 0]%Q, Arr2 [[0; 1]; [1; 0]]%Q) ]} ]}
           "en" "en" sample_batch 0).
  - exact complete_batches_gate_echo_net.
  - vm_compute. discriminate.
  - vm_compute. reflexivity.
  - by left.
  - by left.
  - by left.
  - by left.
Defined.
(** ** [UASReporter.compute] and [UASReporter.write] *)

Lemma for_stream_preserves {S A} (P : S -> Prop) (g : stream A)
    (body : A -> action S unit) :
  (forall x s, P s -> P (body x s).2) ->
  forall s, P s -> P (for_stream g body s).2.
Proof.
  intros Hbody s Hs. unfold for_stream, bind.
  pose proof (for_each_preserves P g.1 body (fun x s _ => Hbody x s) s Hs) as H.
  destruct (for_each g.1 body s) as [[[]|e] s1]; [|done].
  by destruct g.2.
Qed.

(** A loop that ran to its end runs to the corresponding end from a
    state changed by [f], when each completed iteration does. *)
Lemma for_each_sim {S A} (f : S -> S) (P : S -> Prop) (xs : list A)
    (body : A -> action S unit) :
  (forall x s s1, P s -> body x s = (Ok tt, s1) ->
     P s1 /\ body x (f s) = (Ok tt, f s1)) ->
  forall s s1, P s -> for_each xs body s = (Ok tt, s1) ->
    P s1 /\ for_each xs body (f s) = (Ok tt, f s1).
Proof.
  intros Hbody. induction xs as [|x xs IH]; intros s s1 Hs Hrun; simpl in *.
  - unfold ret in *. by injection Hrun as <-.
  - unfold bind in *. destruct (body x s) as [[[]|e] s2] eqn:Hx; [|done].
    destruct (Hbody x s s2 Hs Hx) as [Hs2 ->]. by apply IH.
Qed.

Section UASProperties.

Variable chu_liu_edmonds : list (list score) -> result (list Z).
Variable uas_t : Type.
Variable UAS : uas_t.
Variable uas_update_state : uas_t -> arcs -> arcs -> result uas_t.
Variable uas_result_str : uas_t -> result string.

Lemma uas_kept_preorder : PreOrder (@uas_kept uas_t).
Proof.
  split.
  - by intros s k.
  - intros s1 s2 s3 H12 H23 k H. by apply H23, H12.
Qed.

Lemma uas_sentence_step_kept (self : UASReporter) (lang : string)
    (it : nat * (ndarray Q * (ndarray Q * nat))) (s : gmap string uas_t) :
  uas_kept s
    (uas_sentence_step chu_liu_edmonds uas_update_state self lang it s).2.
Proof.
  unfold uas_sentence_step, bind, lift, uas_kept.
  destruct (uas_sentence chu_liu_edmonds self lang it) as [t|e]; [|done].
  destruct (s !! lang) as [m|]; simpl; [|done].
  destruct (uas_update_state m t.2 t.1) as [m'|e]; simpl; [|done].
  intros k Hk. destruct (decide (k = lang)) as [->|Hne].
  - rewrite lookup_insert_eq. eauto.
  - by rewrite lookup_insert_ne.
Qed.

Lemma uas_member_step_kept (net : network) (self : UASReporter)
    (language lang : string) (s : gmap string uas_t) :
  uas_kept s
    (uas_member_step chu_liu_edmonds UAS uas_update_state net self
                     language lang s).2 /\
  is_Some ((uas_member_step chu_liu_edmonds UAS uas_update_state net self
                            language lang s).2 !! lang).
Proof.
  pose proof uas_kept_preorder as Hpre.
  unfold uas_member_step, bind at 1.
  assert (H : uas_kept (<[lang := UAS]> s)
                (for_stream
                   (predict net (uas_base self) language lang "dep_distance")
                   (fun p => for_each (uas_sentences p)
                      (uas_sentence_step chu_liu_edmonds uas_update_state
                                         self lang))
                   (<[lang := UAS]> s)).2).
  { apply (for_stream_preserves (uas_kept (<[lang := UAS]> s))); [|reflexivity].
    intros p t Ht.
    apply (for_each_preserves (uas_kept (<[lang := UAS]> s))); [|done].
    intros it t' _ Ht'. etrans; [exact Ht'|apply uas_sentence_step_kept]. }
  split.
  - intros k Hk. apply H. destruct (decide (k = lang)) as [->|Hne].
    + rewrite lookup_insert_eq. eauto.
    + by rewrite lookup_insert_ne.
  - apply H. rewrite lookup_insert_eq. eauto.
Qed.

Lemma uas_group_kept (net : network) (self : UASReporter)
    (language : string) (s : gmap string uas_t) :
  uas_kept s
    (for_each (split_on plus_sign language)
       (uas_member_step chu_liu_edmonds UAS uas_update_state net self language)
       s).2.
Proof.
  pose proof uas_kept_preorder as Hpre.
  apply (for_each_preserves (uas_kept s)); [|reflexivity].
  intros lang t _ Ht. etrans; [exact Ht|apply uas_member_step_kept].
Qed.

(** After a completed [compute] every member of a requested language
    has its metric. *)
Lemma compute_enters_members (net : network) (self : UASReporter)
    (st uas : gmap string uas_t) (language lang : string) :
  UASReporter_compute chu_liu_edmonds UAS uas_update_state net self st
    = (Ok tt, uas) ->
  language ∈ uas_languages self -> lang ∈ split_on plus_sign language ->
  is_Some (uas !! lang).
Proof.
  intros Hrun Hlanguage Hlang. unfold UASReporter_compute in Hrun.
  pose proof uas_kept_preorder as Hpre.
  destruct (for_each_ok_elem uas_kept (uas_languages self) _
              (fun x s => uas_group_kept net self x s) _ _ Hrun) as [_ Hgroups].
  destruct (Hgroups language Hlanguage) as (s1 & s2 & _ & Hgroup & Hs2).
  destruct (for_each_ok_elem uas_kept (split_on plus_sign language) _
              (fun x s => proj1 (uas_member_step_kept net self language x s))
              _ _ Hgroup) as [_ Hmembers].
  destruct (Hmembers lang Hlang) as (t1 & t2 & _ & Hstep & Ht2).
  apply Hs2, Ht2.
  pose proof (proj2 (uas_member_step_kept net self language lang t1)) as H.
  by rewrite Hstep in H.
Qed.

Lemma uas_write_members (out_dir : string) (self : UASReporter)
    (uas : gmap string uas_t) (langs : list string) :
  (forall lang, lang ∈ langs ->
     exists m s, uas !! lang = Some m /\ uas_result_str m = Ok s) ->
  forall log, exists fs,
    for_each langs (uas_write_one uas_result_str out_dir self uas) log
    = (Ok tt, log ++ fs) /\
    uas_files uas_result_str out_dir self uas langs fs.
Proof.
  induction langs as [|lang langs IH]; intros H log.
  - exists []. simpl. rewrite app_nil_r. split; [done|constructor].
  - destruct (H lang) as (m & s & Hm & Hs); [by left|].
    set (f := (path_join out_dir
                 (uas_prefix self lang +:+
                  (if truthy_depths (depths self) then "uas" else "uuas")),
               s +:+ newline)).
    assert (Hone : uas_write_one uas_result_str out_dir self uas lang log
                   = (Ok tt, log ++ [f])).
    { unfold uas_write_one. rewrite Hm. cbn [of_option rbind]. by rewrite Hs. }
    cbn [for_each]. unfold bind. rewrite Hone.
    destruct (IH (fun l Hl => H l ltac:(by right)) (log ++ [f]))
      as (fs & -> & Hfs).
    exists (f :: fs). rewrite <- app_assoc. split; [done|].
    constructor; [|done]. exists m, s. done.
Qed.

(** X15: When [compute] has run to its end and the metrics report, [write]
    runs to its end too: no metric is missing.  It writes one file per
    member of each requested language, in order, named [uas] when there
    are depths and [uuas] otherwise, holding that member's result. *)
Theorem uas_compute_then_write (net : network) (self : UASReporter)
    (st uas : gmap string uas_t) (out_dir : string) :
  UASReporter_compute chu_liu_edmonds UAS uas_update_state net self st
    = (Ok tt, uas) ->
  (forall m, exists s, uas_result_str m = Ok s) ->
  exists log,
    UASReporter_write uas_result_str out_dir self uas [] = (Ok tt, log) /\
    uas_files uas_result_str out_dir self uas
      (flat_map (split_on plus_sign) (uas_languages self)) log.
Proof.
  intros Hrun Hres.
  assert (Hkeys : forall language lang,
            language ∈ uas_languages self -> lang ∈ split_on plus_sign language ->
            exists m s, uas !! lang = Some m /\ uas_result_str m = Ok s).
  { intros language lang Hlanguage Hlang.
    destruct (compute_enters_members net self st uas language lang
                Hrun Hlanguage Hlang) as [m Hm].
    destruct (Hres m) as [s Hs]. by exists m, s. }
  clear Hrun. unfold UASReporter_write.
  assert (H : forall log0, exists fs,
            for_each (uas_languages self)
              (fun language =>
                 for_each (split_on plus_sign language)
                   (uas_write_one uas_result_str out_dir self uas)) log0
            = (Ok tt, log0 ++ fs) /\
            uas_files uas_result_str out_dir self uas
              (flat_map (split_on plus_sign) (uas_languages self)) fs).
  { induction (uas_languages self) as [|language languages IH]; intros log0.
    - exists []. simpl. rewrite app_nil_r. split; [done|constructor].
    - destruct (uas_write_members out_dir self uas (split_on plus_sign language)
                  (fun l Hl => Hkeys language l ltac:(by left) Hl) log0)
        as (fs1 & Hrun1 & Hfs1).
      destruct IH with (log0 := log0 ++ fs1) as (fs2 & Hrun2 & Hfs2).
      { intros l' l Hl' Hl. apply (Hkeys l' l); [by right|done]. }
      exists (fs1 ++ fs2). simpl. unfold bind. rewrite Hrun1, Hrun2.
      rewrite <- app_assoc. split; [done|].
      by apply Forall2_app. }
  destruct (H []) as (fs & Hrun & Hfs). by exists fs.
Qed.

(** One sentence, from a state extended by older metrics. *)
Lemma uas_sentence_step_sim (self : UASReporter) (lang : string)
    (old : gmap string uas_t)
    (it : nat * (ndarray Q * (ndarray Q * nat))) (s s1 : gmap string uas_t) :
  is_Some (s !! lang) ->
  uas_sentence_step chu_liu_edmonds uas_update_state self lang it s
    = (Ok tt, s1) ->
  is_Some (s1 !! lang) /\
  uas_sentence_step chu_liu_edmonds uas_update_state self lang it (s ∪ old)
    = (Ok tt, s1 ∪ old).
Proof.
  intros [m Hm]. unfold uas_sentence_step, bind, lift.
  destruct (uas_sentence chu_liu_edmonds self lang it) as [t|e]; [|done].
  rewrite Hm, (lookup_union_Some_l _ _ _ _ Hm). simpl.
  destruct (uas_update_state m t.2 t.1) as [m'|e]; simpl; [|done].
  intros [= <-]. rewrite lookup_insert_eq. split; [eauto|].
  by rewrite insert_union_l.
Qed.

Lemma uas_member_step_sim (net : network) (self : UASReporter)
    (language lang : string) (old s s1 : gmap string uas_t) :
  uas_member_step chu_liu_edmonds UAS uas_update_state net self language lang s
    = (Ok tt, s1) ->
  uas_member_step chu_liu_edmonds UAS uas_update_state net self language lang
    (s ∪ old) = (Ok tt, s1 ∪ old).
Proof.
  unfold uas_member_step. intros Hrun.
  unfold bind at 1 in Hrun. unfold bind at 1.
  rewrite insert_union_l. unfold for_stream in *.
  destruct (predict net (uas_base self) language lang "dep_distance") as [ys o].
  cbn [fst snd] in *. unfold bind in *.
  destruct (for_each ys _ (<[lang := UAS]> s)) as [[[]|e] s2] eqn:Hloop; [|done].
  destruct (for_each_sim (fun t => t ∪ old) (fun t => is_Some (t !! lang)) ys
              (fun p => for_each (uas_sentences p)
                 (uas_sentence_step chu_liu_edmonds uas_update_state self lang)))
    with (s := <[lang := UAS]> s) (s1 := s2) as [_ ->]; [| |done|].
  - intros p t t1 Ht Hp.
    apply (for_each_sim (fun t => t ∪ old) (fun t => is_Some (t !! lang))
             (uas_sentences p)); [|done|done].
    intros it u u1 Hu Hit. by apply uas_sentence_step_sim.
  - rewrite lookup_insert_eq. eauto.
  - destruct o; [|done]. unfold ret in *. by injection Hrun as <-.
Qed.

(** X16: [compute] rebuilds: run on a reporter that already holds metrics,
    it ends as it does on a fresh one and leaves the same metrics for
    the languages it visits, each built from a fresh instance; metrics
    of other languages stay as they were. *)
Theorem uas_compute_rebuilds (net : network) (self : UASReporter)
    (old uas : gmap string uas_t) :
  UASReporter_compute chu_liu_edmonds UAS uas_update_state net self ∅
    = (Ok tt, uas) ->
  UASReporter_compute chu_liu_edmonds UAS uas_update_state net self old
    = (Ok tt, uas ∪ old).
Proof.
  intros Hrun. unfold UASReporter_compute in *.
  destruct (for_each_sim (fun t : gmap string uas_t => t ∪ old) (fun _ => True)
              (uas_languages self)
              (fun language =>
                 for_each (split_on plus_sign language)
                   (uas_member_step chu_liu_edmonds UAS uas_update_state
                                    net self language)))
    with (s := (∅ : gmap string uas_t)) (s1 := uas) as [_ H]; [|done|done|].
  - intros language s s1 _ Hgroup.
    apply (for_each_sim (fun t : gmap string uas_t => t ∪ old) (fun _ => True)
             (split_on plus_sign language)); [|done|done].
    intros lang t t1 _ Hstep. split; [done|]. by apply uas_member_step_sim.
  - by rewrite (left_id_L ∅ (∪)) in H.
Qed.

End UASProperties.

Lemma uas_compute_then_write_witness :
  exists log,
    UASReporter_write counting_result_str "out" sample_uas_reporter
      {[ "en" := 1%nat ]} [] = (Ok tt, log) /\
    uas_files counting_result_str "out" sample_uas_reporter
      {[ "en" := 1%nat ]}
      (flat_map (split_on plus_sign) (uas_languages sample_uas_reporter)) log.
Proof.
  apply (uas_compute_then_write greedy_heads nat 0%nat counting_update
           counting_result_str sample_net sample_uas_reporter ∅).
  - vm_compute. reflexivity.
  - intros m. by eexists.
Defined.

Lemma uas_compute_rebuilds_witness :
  UASReporter_compute greedy_heads 0%nat counting_update sample_net
    sample_uas_reporter {[ "en" := 7%nat; "de" := 5%nat ]}
  = (Ok tt, {[ "en" := 1%nat ]} ∪ {[ "en" := 7%nat; "de" := 5%nat ]}).
Proof.
  apply (uas_compute_rebuilds greedy_heads nat 0%nat counting_update sample_net
           sample_uas_reporter).
  vm_compute. reflexivity.
Defined.
(** ** [merge_dict] *)

Lemma dict_get_set_eq (k : string) (v : pyobj) (d : list (string * pyobj)) :
  dict_get k (dict_set k v d) = Some v.
Proof.
  induction d as [|[k' v'] d IH]; simpl.
  - by rewrite decide_True.
  - destruct (decide (k' = k)) as [->|Hne]; simpl.
    + by rewrite decide_True.
    + by rewrite decide_False.
Qed.

Lemma dict_get_set_ne (k k0 : string) (v : pyobj) (d : list (string * pyobj)) :
  k <> k0 -> dict_get k0 (dict_set k v d) = dict_get k0 d.
Proof.
  intros Hne. induction d as [|[k' v'] d IH]; simpl.
  - by rewrite decide_False.
  - destruct (decide (k' = k)) as [->|Hne']; simpl.
    + by rewrite !decide_False.
    + destruct (decide (k' = k0)); [done|exact IH].
Qed.

Lemma dict_get_None (k : string) (d : list (string * pyobj)) :
  dict_get k d = None <-> k ∉ dict_keys d.
Proof.
  unfold dict_keys. induction d as [|[k' v'] d IH]; simpl.
  - split; [intros _ H; inversion H|done].
  - destruct (decide (k' = k)) as [->|Hne].
    + split; [done|]. intros H. exfalso. apply H. by left.
    + rewrite IH, not_elem_of_cons. split; [by intros H|by intros [_ H]].
Qed.

Lemma dict_set_fresh (k : string) (v : pyobj) (d : list (string * pyobj)) :
  k ∉ dict_keys d -> dict_set k v d = d ++ [(k, v)].
Proof.
  unfold dict_keys. induction d as [|[k' v'] d IH]; simpl; [done|].
  intros H. apply not_elem_of_cons in H as [Hne Hd].
  rewrite decide_False by done. f_equal. by apply IH.
Qed.

Lemma dict_set_keys_present (k : string) (v : pyobj) (d : list (string * pyobj)) :
  k ∈ dict_keys d -> dict_keys (dict_set k v d) = dict_keys d.
Proof.
  unfold dict_keys. induction d as [|[k' v'] d IH]; simpl.
  - intros H. inversion H.
  - intros H. destruct (decide (k' = k)) as [->|Hne]; simpl; [done|].
    apply elem_of_cons in H as [->|H]; [done|]. f_equal. by apply IH.
Qed.

(** The loop of [merge_dict], one item at a time. *)
Lemma merge_dict_cons (d1 : list (string * pyobj)) (k : string) (v2 : pyobj)
    (rest : list (string * pyobj)) :
  merge_dict d1 ((k, v2) :: rest)
  = merge_dict (dict_set k (merged_value (dict_get k d1) v2) d1) rest.
Proof.
  unfold merge_dict, merged_value. simpl.
  destruct (dict_get k d1) as [[| |m1]|]; try done.
  by destruct v2.
Qed.

Lemma merge_dict_nil (d1 : list (string * pyobj)) : merge_dict d1 [] = d1.
Proof. done. Qed.

(** X17: What a merged dictionary holds under a key: the value of [d2] where
    [d2] has the key, merged into the dictionary of [d1] when both hold
    one, and the value of [d1] where [d2] does not have the key. *)
Theorem merge_dict_lookup (d1 d2 : list (string * pyobj)) (k : string) :
  NoDup (dict_keys d2) ->
  dict_get k (merge_dict d1 d2)
  = match dict_get k d2 with
    | Some v2 => Some (merged_value (dict_get k d1) v2)
    | None => dict_get k d1
    end.
Proof.
  revert d1. induction d2 as [|[k2 v2] rest IH]; intros d1 Hnd.
  - done.
  - unfold dict_keys in Hnd. simpl in Hnd. apply NoDup_cons in Hnd as [Hk2 Hnd].
    rewrite merge_dict_cons, (IH _ Hnd). simpl.
    destruct (decide (k2 = k)) as [->|Hne].
    + rewrite (proj2 (dict_get_None k rest) Hk2). apply dict_get_set_eq.
    + rewrite (dict_get_set_ne k2 k) by done. done.
Qed.

Lemma merge_dict_lookup_witness :
  dict_get "train"
    (merge_dict [("train", PyDict [("en", PyNone)]); ("dev", PyNone)]
                [("dev", PyStr "d"); ("train", PyDict [("en", PyStr "e")])])
  = match dict_get "train"
            [("dev", PyStr "d"); ("train", PyDict [("en", PyStr "e")])] with
    | Some v2 =>
        Some (merged_value
                (dict_get "train"
                   [("train", PyDict [("en", PyNone)]); ("dev", PyNone)]) v2)
    | None => dict_get "train"
                [("train", PyDict [("en", PyNone)]); ("dev", PyNone)]
    end.
Proof.
  apply (merge_dict_lookup
           [("train", PyDict [("en", PyNone)]); ("dev", PyNone)]
           [("dev", PyStr "d"); ("train", PyDict [("en", PyStr "e")])] "train").
  unfold dict_keys. simpl. apply NoDup_cons. split.
  - intros H. apply list_elem_of_singleton in H. discriminate H.
  - apply NoDup_singleton.
Defined.

Lemma filter_ext_elem {A} (P Q : A -> Prop) `{!forall x, Decision (P x)}
    `{!forall x, Decision (Q x)} (l : list A) :
  (forall x, x ∈ l -> P x <-> Q x) -> filter P l = filter Q l.
Proof.
  induction l as [|x l IH]; intros Hext; [done|].
  assert (Hl : filter P l = filter Q l).
  { apply IH. intros y Hy. apply Hext. by right. }
  destruct (decide (P x)) as [HP|HP].
  - rewrite (filter_cons_True P) by done.
    rewrite (filter_cons_True Q) by (apply Hext; [by left|done]). by rewrite Hl.
  - rewrite (filter_cons_False P) by done.
    rewrite (filter_cons_False Q); [done|].
    intros HQ. apply HP, Hext; [by left|done].
Qed.

Lemma dict_keys_snoc (d : list (string * pyobj)) (k : string) (v : pyobj) :
  dict_keys (d ++ [(k, v)]) = dict_keys d ++ [k].
Proof. unfold dict_keys. by rewrite fmap_app. Qed.

(** X18: [merge_dict] removes and moves no key: the keys of [d1] stay in
    their places and the keys new in [d2] follow in the order of [d2]. *)
Theorem merge_dict_keys (d1 d2 : list (string * pyobj)) :
  NoDup (dict_keys d2) ->
  dict_keys (merge_dict d1 d2)
  = dict_keys d1 ++ filter (fun k => k ∉ dict_keys d1) (dict_keys d2).
Proof.
  revert d1. induction d2 as [|[k2 v2] rest IH]; intros d1 Hnd.
  - rewrite merge_dict_nil. change (dict_keys []) with (@nil string).
    by rewrite app_nil_r.
  - change (dict_keys ((k2, v2) :: rest)) with (k2 :: dict_keys rest) in *.
    apply NoDup_cons in Hnd as [Hk2 Hnd].
    rewrite merge_dict_cons, (IH _ Hnd).
    destruct (decide (k2 ∈ dict_keys d1)) as [Hin|Hnot].
    + rewrite dict_set_keys_present by done.
      rewrite filter_cons_False by (intros Hn; by apply Hn). done.
    + rewrite dict_set_fresh, dict_keys_snoc by done.
      rewrite filter_cons_True by done.
      rewrite <- app_assoc. simpl. f_equal. f_equal.
      apply filter_ext_elem. intros k Hk.
      rewrite not_elem_of_app. split; [by intros [Hn _]|].
      intros Hn. split; [done|]. intros H'.
      apply list_elem_of_singleton in H' as ->. by apply Hk2.
Qed.

Lemma merge_dict_keys_witness :
  dict_keys
    (merge_dict [("train", PyDict [("en", PyNone)]); ("dev", PyNone)]
                [("test", PyStr "t"); ("train", PyDict [("en", PyStr "e")])])
  = dict_keys [("train", PyDict [("en", PyNone)]); ("dev", PyNone)]
    ++ filter (fun k => k ∉ dict_keys
                 [("train", PyDict [("en", PyNone)]); ("dev", PyNone)])
              (dict_keys [("test", PyStr "t");
                          ("train", PyDict [("en", PyStr "e")])]).
Proof.
  apply (merge_dict_keys
           [("train", PyDict [("en", PyNone)]); ("dev", PyNone)]
           [("test", PyStr "t"); ("train", PyDict [("en", PyStr "e")])]).
  unfold dict_keys. simpl. apply NoDup_cons. split.
  - intros H. apply list_elem_of_singleton in H. discriminate H.
  - apply NoDup_singleton.
Defined.

Lemma dict_set_same (k : string) (v : pyobj) (d : list (string * pyobj)) :
  dict_get k d = Some v -> dict_set k v d = d.
Proof.
  induction d as [|[k' v'] d IH]; simpl; [done|].
  destruct (decide (k' = k)) as [->|Hne].
  - by intros [= ->].
  - intros H. f_equal. by apply IH.
Qed.

Lemma dict_get_elem (k : string) (v : pyobj) (d : list (string * pyobj)) :
  NoDup (dict_keys d) -> (k, v) ∈ d -> dict_get k d = Some v.
Proof.
  unfold dict_keys. induction d as [|[k' v'] d IH]; simpl; intros Hnd Hin.
  - inversion Hin.
  - apply NoDup_cons in Hnd as [Hk' Hnd].
    apply elem_of_cons in Hin as [[= <- <-]|Hin].
    + by rewrite decide_True.
    + rewrite decide_False; [by apply IH|].
      intros ->. apply Hk'. apply list_elem_of_fmap. by exists (k, v).
Qed.

Lemma well_formed_elem (d : list (string * pyobj)) (k : string) (v : pyobj) :
  well_formed (PyDict d) -> (k, v) ∈ d -> well_formed v.
Proof.
  intros [_ Hall] Hin. induction d as [|[k' v'] d IH]; [inversion Hin|].
  destruct Hall as [Hv Hall].
  apply elem_of_cons in Hin as [[= <- <-]|Hin]; [done|by apply IH].
Qed.

Lemma pysize_elem (d : list (string * pyobj)) (k : string) (v : pyobj) :
  (k, v) ∈ d -> (pysize v < pysize (PyDict d))%nat.
Proof.
  intros Hin. induction d as [|[k' v'] d IH]; [inversion Hin|].
  apply elem_of_cons in Hin as [[= <- <-]|Hin].
  - simpl. lia.
  - specialize (IH Hin). simpl in *. lia.
Qed.

(** A merge whose every step stores what is already there changes
    nothing. *)
Lemma merge_dict_noop (d1 d2 : list (string * pyobj)) :
  (forall k v2, (k, v2) ∈ d2 ->
     dict_get k d1 = Some (merged_value (dict_get k d1) v2)) ->
  merge_dict d1 d2 = d1.
Proof.
  induction d2 as [|[k v2] rest IH]; intros H; [done|].
  rewrite merge_dict_cons.
  rewrite dict_set_same by (apply H; by left).
  apply IH. intros k' v' Hin. apply H. by right.
Qed.

Lemma merge_dict_self (n : nat) (d : list (string * pyobj)) :
  (pysize (PyDict d) < n)%nat -> well_formed (PyDict d) -> merge_dict d d = d.
Proof.
  revert d. induction n as [|n IH]; intros d Hn Hwf; [lia|].
  apply merge_dict_noop. intros k v Hin.
  rewrite (dict_get_elem k v d) by (done || apply Hwf). f_equal.
  destruct v as [| |m]; try done. simpl. f_equal. symmetry. apply IH.
  - pose proof (pysize_elem d k (PyDict m) Hin). lia.
  - by eapply well_formed_elem.
Qed.

Lemma merge_dict_twice (n : nat) (d1 d2 : list (string * pyobj)) :
  (pysize (PyDict d2) < n)%nat -> well_formed (PyDict d2) ->
  merge_dict (merge_dict d1 d2) d2 = merge_dict d1 d2.
Proof.
  revert d1 d2. induction n as [|n IH]; intros d1 d2 Hn Hwf; [lia|].
  apply merge_dict_noop. intros k v2 Hin.
  assert (Hnd : NoDup (dict_keys d2)) by apply Hwf.
  rewrite (merge_dict_lookup d1 d2 k Hnd), (dict_get_elem k v2 d2 Hnd Hin).
  f_equal. destruct v2 as [| |m2].
  1,2: by destruct (dict_get k d1) as [[| |?]|].
  assert (Hm2 : (pysize (PyDict m2) < n)%nat).
  { pose proof (pysize_elem d2 k (PyDict m2) Hin). lia. }
  assert (Hwf2 : well_formed (PyDict m2)) by (by eapply well_formed_elem).
  destruct (dict_get k d1) as [[| |m1]|]; simpl; f_equal; symmetry.
  - by apply (merge_dict_self n).
  - by apply (merge_dict_self n).
  - by apply IH.
  - by apply (merge_dict_self n).
Qed.

(** X19: Merging the same dictionary a second time changes nothing. *)
Theorem merge_dict_idempotent (d1 d2 : list (string * pyobj)) :
  well_formed (PyDict d2) ->
  merge_dict (merge_dict d1 d2) d2 = merge_dict d1 d2.
Proof.
  intros Hwf.
  by apply (merge_dict_twice (S (pysize (PyDict d2)))); [lia|].
Qed.

Lemma merge_dict_idempotent_witness :
  merge_dict
    (merge_dict [("train", PyDict [("en", PyNone)]); ("dev", PyNone)]
                [("dev", PyDict [("x", PyStr "d")]);
                 ("train", PyDict [("en", PyStr "e")])])
    [("dev", PyDict [("x", PyStr "d")]); ("train", PyDict [("en", PyStr "e")])]
  = merge_dict [("train", PyDict [("en", PyNone)]); ("dev", PyNone)]
               [("dev", PyDict [("x", PyStr "d")]);
                ("train", PyDict [("en", PyStr "e")])].
Proof.
  apply (merge_dict_idempotent
           [("train", PyDict [("en", PyNone)]); ("dev", PyNone)]
           [("dev", PyDict [("x", PyStr "d")]);
            ("train", PyDict [("en", PyStr "e")])]).
  simpl. split_and!; try done; try apply NoDup_singleton.
  apply NoDup_cons. split; [|apply NoDup_singleton].
  intros H. apply list_elem_of_singleton in H. discriminate H.
Defined.

(** ** [TFRecordReader.read] *)

Lemma tfr_fn_of_inr (self : TFRecordReader) (mode lang task p : string) :
  tfr_fn_of self mode lang task = inr p <->
  exists fn, available self mode lang task fn /\ p = path_join (data_dir self) fn.
Proof.
  unfold tfr_fn_of, available, subscript. split.
  - destruct (dict_get mode (map_tfrecord self)) as [[| |m1]|] eqn:H1;
      try done.
    destruct (dict_get (model_name self) m1) as [[| |m2]|] eqn:H2; try done.
    destruct (dict_get lang m2) as [[| |m3]|] eqn:H3; try done.
    destruct (dict_get task m3) as [[|fn|]|] eqn:H4; try done.
    simpl. intros [= <-]. exists fn. split; [|done].
    exists m1, m2, m3. by split_and!.
  - intros (fn & (m1 & m2 & m3 & -> & -> & -> & ->) & ->). done.
Qed.

Lemma tfr_fn_of_ok (self : TFRecordReader) (mode lang task : string) :
  (exists p, tfr_fn_of self mode lang task = inr p) <->
  exists fn, available self mode lang task fn.
Proof.
  split.
  - intros [p Hp]. apply tfr_fn_of_inr in Hp as (fn & Hfn & _). by exists fn.
  - intros [fn Hfn]. exists (path_join (data_dir self) fn).
    apply tfr_fn_of_inr. by exists fn.
Qed.

Lemma read_tasks_loop_ok (self : TFRecordReader) (mode lang : string)
    (ts : list string) (ds : data_set_t) :
  (exists ds', read_tasks_loop self mode lang ts ds = inr ds') <->
  forall task, task ∈ ts ->
    task ∈ tfr_tasks self /\ exists fn, available self mode lang task fn.
Proof.
  revert ds. induction ts as [|task ts IH]; intros ds; simpl.
  - split; [intros _ t Ht; inversion Ht|eauto].
  - destruct (decide (task ∈ tfr_tasks self)) as [Hin|Hnot].
    + destruct (tfr_fn_of self mode lang task) as [e|p] eqn:Hp.
      * split; [by intros [? ?]|]. intros H.
        destruct (H task) as [_ Hfn]; [by left|].
        apply tfr_fn_of_ok in Hfn as [p Hp']. congruence.
      * rewrite IH. split.
        -- intros H t Ht. apply elem_of_cons in Ht as [->|Ht]; [|by apply H].
           split; [done|]. apply tfr_fn_of_ok. eauto.
        -- intros H t Ht. apply H. by right.
    + split; [by intros [? ?]|]. intros H.
      destruct (H task) as [Hin _]; [by left|done].
Qed.

Lemma read_langs_loop_ok (self : TFRecordReader) (mode : string)
    (ts langs : list string) (ds : data_set_t) :
  (exists ds', read_langs_loop self mode ts langs ds = inr ds') <->
  forall lang, lang ∈ langs ->
    lang ∈ tfr_languages self /\
    forall task, task ∈ ts ->
      task ∈ tfr_tasks self /\ exists fn, available self mode lang task fn.
Proof.
  revert ds. induction langs as [|lang langs IH]; intros ds; simpl.
  - split; [intros _ l Hl; inversion Hl|eauto].
  - destruct (decide (lang ∈ tfr_languages self)) as [Hin|Hnot].
    + destruct (read_tasks_loop self mode lang ts (<[lang := ∅]> ds))
        as [e|ds1] eqn:Hts.
      * split; [by intros [? ?]|]. intros H.
        destruct (H lang) as [_ Htasks]; [by left|].
        apply (read_tasks_loop_ok self mode lang ts (<[lang := ∅]> ds))
          in Htasks as [ds' Hds']. congruence.
      * rewrite IH. split.
        -- intros H l Hl. apply elem_of_cons in Hl as [->|Hl]; [|by apply H].
           split; [done|].
           apply (read_tasks_loop_ok self mode lang ts (<[lang := ∅]> ds)).
           eauto.
        -- intros H l Hl. apply H. by right.
    + split; [by intros [? ?]|]. intros H.
      destruct (H lang) as [Hin _]; [by left|done].
Qed.

Lemma read_modes_loop_ok (self : TFRecordReader) (ts rl ms : list string)
    (attrs : gmap string data_set_t) :
  (read_modes_loop self ts rl ms attrs).2 = None <->
  forall mode, mode ∈ ms ->
    exists ds, read_langs_loop self mode ts
                 (flat_map (split_on plus_sign) rl) ∅ = inr ds.
Proof.
  revert attrs. induction ms as [|mode ms IH]; intros attrs; simpl.
  - split; [intros _ m Hm; inversion Hm|done].
  - destruct (read_langs_loop self mode ts (flat_map (split_on plus_sign) rl) ∅)
      as [e|ds] eqn:Hmode.
    + simpl. split; [done|]. intros H.
      destruct (H mode) as [ds Hds]; [by left|]. congruence.
    + rewrite IH. split.
      * intros H m Hm. apply elem_of_cons in Hm as [->|Hm]; [eauto|by apply H].
      * intros H m Hm. apply H. by right.
Qed.

(** X20: [read] ends without an exception exactly when the model is one of
    the wrapper's, every member of a requested language is one of its
    languages, and every requested task is one of its tasks and has a
    file name in the data map under each mode.  The tasks are looked at
    only inside the loop over the languages: with no language requested
    any task passes. *)
Theorem read_succeeds_iff (self : TFRecordReader)
    (read_tasks read_languages : list string) :
  (TFRecordReader_read self read_tasks read_languages).2 = None <->
  model_name self ∈ tfr_models self /\
  forall lang, lang ∈ flat_map (split_on plus_sign) read_languages ->
    lang ∈ tfr_languages self /\
    forall task, task ∈ read_tasks ->
      task ∈ tfr_tasks self /\
      forall mode, mode ∈ modes -> exists fn, available self mode lang task fn.
Proof.
  unfold TFRecordReader_read.
  destruct (decide (model_name self ∈ tfr_models self)) as [Hin|Hnot];
    [|split; [done|by intros [? _]]].
  rewrite read_modes_loop_ok. split.
  - intros H. split; [done|]. intros lang Hlang.
    assert (Hmode : forall mode, mode ∈ modes ->
              lang ∈ tfr_languages self /\
              forall task, task ∈ read_tasks ->
                task ∈ tfr_tasks self /\
                exists fn, available self mode lang task fn).
    { intros mode Hmode. destruct (H mode Hmode) as [ds Hds].
      by apply (proj1 (read_langs_loop_ok self mode read_tasks _ ∅)
                      (ex_intro _ ds Hds)). }
    split.
    + apply (Hmode "train"). by left.
    + intros task Htask. split.
      * apply (Hmode "train"); [by left|done].
      * intros mode Hm. by apply (Hmode mode).
  - intros [_ H] mode Hmode. apply read_langs_loop_ok. intros lang Hlang.
    destruct (H lang Hlang) as [Hl Htasks]. split; [done|].
    intros task Htask. destruct (Htasks task Htask) as [Ht Hfn].
    split; [done|by apply Hfn].
Qed.

Lemma read_tasks_loop_keep (self : TFRecordReader) (mode lang : string)
    (ts : list string) (ds ds' : data_set_t) :
  read_tasks_loop self mode lang ts ds = inr ds' ->
  (forall l, l <> lang -> ds' !! l = ds !! l) /\
  (forall t p, entry ds lang t = Some p ->
     tfr_fn_of self mode lang t = inr p -> entry ds' lang t = Some p).
Proof.
  revert ds. induction ts as [|task ts IH]; intros ds; simpl.
  - by intros [= <-].
  - destruct (decide (task ∈ tfr_tasks self)) as [Hin|]; [|done].
    destruct (tfr_fn_of self mode lang task) as [e|p0] eqn:Hp0; [done|].
    intros Hrun. destruct (IH _ Hrun) as [Hframe Hkeep]. split.
    + intros l Hl. rewrite (Hframe l Hl). by rewrite lookup_insert_ne.
    + intros t p Ht Hp. apply Hkeep; [|done].
      unfold entry in *. rewrite lookup_insert_eq. simpl.
      destruct (decide (t = task)) as [->|Hne].
      * rewrite lookup_insert_eq. congruence.
      * rewrite lookup_insert_ne by done.
        destruct (ds !! lang); [done|]. simpl in Ht. done.
Qed.

Lemma read_tasks_loop_content (self : TFRecordReader) (mode lang : string)
    (ts : list string) (ds ds' : data_set_t) (task : string) :
  read_tasks_loop self mode lang ts ds = inr ds' -> task ∈ ts ->
  exists p, tfr_fn_of self mode lang task = inr p /\
            entry ds' lang task = Some p.
Proof.
  revert ds. induction ts as [|t ts IH]; intros ds; simpl.
  - intros _ H. inversion H.
  - destruct (decide (t ∈ tfr_tasks self)) as [Hint|]; [|done].
    destruct (tfr_fn_of self mode lang t) as [e|p0] eqn:Hp0; [done|].
    intros Hrun Hin. apply elem_of_cons in Hin as [->|Hin]; [|by eapply IH].
    exists p0. split; [done|].
    apply (read_tasks_loop_keep _ _ _ _ _ _ Hrun); [|done].
    unfold entry. rewrite lookup_insert_eq. simpl. by rewrite lookup_insert_eq.
Qed.

Lemma read_langs_loop_keep (self : TFRecordReader) (mode : string)
    (ts langs : list string) (ds ds' : data_set_t) (l : string) :
  read_langs_loop self mode ts langs ds = inr ds' ->
  language_read self mode ts ds l -> language_read self mode ts ds' l.
Proof.
  revert ds. induction langs as [|lang langs IH]; intros ds; simpl.
  - by intros [= <-].
  - destruct (decide (lang ∈ tfr_languages self)) as [Hinl|]; [|done].
    destruct (read_tasks_loop self mode lang ts (<[lang := ∅]> ds))
      as [e|ds1] eqn:Hts; [done|].
    intros Hrun Hl. apply (IH _ Hrun).
    destruct (decide (l = lang)) as [->|Hne].
    + intros task Htask. by eapply read_tasks_loop_content.
    + intros task Htask. destruct (Hl task Htask) as (p & Hp & He).
      exists p. split; [done|]. unfold entry in *.
      rewrite (proj1 (read_tasks_loop_keep _ _ _ _ _ _ Hts) l Hne).
      by rewrite lookup_insert_ne.
Qed.

Lemma read_langs_loop_content (self : TFRecordReader) (mode : string)
    (ts langs : list string) (ds ds' : data_set_t) (lang : string) :
  read_langs_loop self mode ts langs ds = inr ds' -> lang ∈ langs ->
  language_read self mode ts ds' lang.
Proof.
  revert ds. induction langs as [|l langs IH]; intros ds; simpl.
  - intros _ H. inversion H.
  - destruct (decide (l ∈ tfr_languages self)) as [Hinl|]; [|done].
    destruct (read_tasks_loop self mode l ts (<[l := ∅]> ds))
      as [e|ds1] eqn:Hts; [done|].
    intros Hrun Hin. apply elem_of_cons in Hin as [->|Hin]; [|by eapply IH].
    apply (read_langs_loop_keep _ _ _ _ _ _ _ Hrun).
    intros task Htask. by eapply read_tasks_loop_content.
Qed.

Lemma read_modes_loop_content (self : TFRecordReader) (ts rl ms : list string)
    (attrs attrs' : gmap string data_set_t) (mode : string) :
  read_modes_loop self ts rl ms attrs = (attrs', None) ->
  mode ∈ ms \/
  (exists ds, attrs !! mode = Some ds /\
     read_langs_loop self mode ts (flat_map (split_on plus_sign) rl) ∅ = inr ds) ->
  exists ds, attrs' !! mode = Some ds /\
    read_langs_loop self mode ts (flat_map (split_on plus_sign) rl) ∅ = inr ds.
Proof.
  revert attrs. induction ms as [|m ms IH]; intros attrs; simpl.
  - intros [= <-] [H|H]; [inversion H|done].
  - destruct (read_langs_loop self m ts (flat_map (split_on plus_sign) rl) ∅)
      as [e|ds] eqn:Hm; [done|].
    intros Hrun H. apply (IH _ Hrun).
    destruct (decide (mode = m)) as [->|Hne].
    + right. exists ds. by rewrite lookup_insert_eq.
    + destruct H as [H|(ds0 & Hds0 & Hrun0)].
      * apply elem_of_cons in H as [->|H]; [done|by left].
      * right. exists ds0. by rewrite lookup_insert_ne.
Qed.

(** X21: When [read] ends without an exception, the attribute of every mode
    is set, and its data set holds for every member of a requested
    language and every requested task the file the data map names,
    joined to the data directory. *)
Theorem read_data_sets (self : TFRecordReader)
    (read_tasks read_languages : list string)
    (attrs : gmap string data_set_t) (mode lang task : string) :
  TFRecordReader_read self read_tasks read_languages = (attrs, None) ->
  mode ∈ modes ->
  lang ∈ flat_map (split_on plus_sign) read_languages ->
  task ∈ read_tasks ->
  exists ds fn,
    attrs !! mode = Some ds /\
    available self mode lang task fn /\
    entry ds lang task = Some (path_join (data_dir self) fn).
Proof.
  unfold TFRecordReader_read.
  destruct (decide (model_name self ∈ tfr_models self)) as [Hmodel|]; [|done].
  intros Hrun Hmode Hlang Htask.
  destruct (read_modes_loop_content _ _ _ _ _ _ mode Hrun (or_introl Hmode))
    as (ds & Hds & Hlangs).
  destruct (read_langs_loop_content _ _ _ _ _ _ lang Hlangs Hlang task Htask)
    as (p & Hp & He).
  apply tfr_fn_of_inr in Hp as (fn & Hfn & ->).
  by exists ds, fn.
Qed.

Lemma read_data_sets_witness :
  exists ds fn,
    (TFRecordReader_read sample_reader ["dep_distance"] ["en"]).1 !! "test"
    = Some ds /\
    available sample_reader "test" "en" "dep_distance" fn /\
    entry ds "en" "dep_distance" = Some (path_join (data_dir sample_reader) fn).
Proof.
  apply (read_data_sets sample_reader ["dep_distance"] ["en"]).
  - vm_compute. reflexivity.
  - by repeat constructor.
  - by left.
  - by left.
Defined.

(** ** The map of a reader *)

Lemma merge_dict_disjoint (d1 d2 : list (string * pyobj)) :
  NoDup (dict_keys d2) ->
  (forall k, k ∈ dict_keys d2 -> k ∉ dict_keys d1) ->
  merge_dict d1 d2 = d1 ++ d2.
Proof.
  revert d1. induction d2 as [|[k v2] rest IH]; intros d1 Hnd Hdis.
  - by rewrite merge_dict_nil, app_nil_r.
  - change (dict_keys ((k, v2) :: rest)) with (k :: dict_keys rest) in *.
    apply NoDup_cons in Hnd as [Hk Hnd].
    assert (Hfresh : k ∉ dict_keys d1) by (apply Hdis; by left).
    rewrite merge_dict_cons.
    rewrite (proj2 (dict_get_None k d1) Hfresh).
    rewrite dict_set_fresh by done.
    rewrite IH; [by rewrite <- app_assoc|done|].
    intros k' Hk'. rewrite dict_keys_snoc, not_elem_of_app. split.
    + apply Hdis. by right.
    + intros H. apply list_elem_of_singleton in H as ->. done.
Qed.

(** X22: What a reader finds under a mode is what the JSON file holds under
    it: the constructor's empty dictionary of the mode takes the file's
    dictionary over as it is. *)
Theorem reader_map_is_json (json_map m : list (string * pyobj)) (mode : string) :
  NoDup (dict_keys json_map) -> NoDup (dict_keys m) ->
  mode ∈ modes ->
  dict_get mode json_map = Some (PyDict m) ->
  dict_get mode (reader_map json_map) = Some (PyDict m).
Proof.
  intros Hnd Hm Hmode Hget. unfold reader_map.
  rewrite (merge_dict_lookup _ _ _ Hnd), Hget. f_equal.
  assert (Hinit : dict_get mode (init_map [] [] []) = Some (PyDict [])).
  { unfold modes in Hmode.
    repeat (apply elem_of_cons in Hmode as [->|Hmode]; [done|]).
    inversion Hmode. }
  rewrite Hinit. simpl. f_equal.
  apply (merge_dict_disjoint [] m Hm). intros k _ H. inversion H.
Qed.

Lemma reader_map_is_json_witness :
  dict_get "dev" (reader_map sample_json_map)
  = Some (PyDict [("bert", PyDict [("en",
      PyDict [("dep_distance", PyStr "dev.tfrecord")])])]).
Proof.
  apply (reader_map_is_json sample_json_map).
  - apply (bool_decide_unpack _). vm_compute. exact I.
  - apply (bool_decide_unpack _). vm_compute. exact I.
  - by repeat constructor.
  - reflexivity.
Defined.
